(** * foldermd: a shallow embedding of [main.go] and its verified properties

    The program walks a directory, renders an ASCII tree of it, optionally
    embeds file contents, and writes the result as a Markdown document.

    Go strings are byte sequences: they are modelled by [string] (a list of
    8-bit [ascii]); Go [int]/[int64] values by [Z]; the filesystem by an
    inductive tree of directory entries; the output file by the string of
    bytes written to it so far.

    The counters of the program ([depth], [fileCount], [dirCount]) are
    bounded by the number of entries of the tree, and [formatFileSize]
    multiplies up to [1024^6] only, so no operation leaves the range of a
    64-bit [int] and [Z] arithmetic is the arithmetic of the program.  The
    progress messages [generateReadme] prints to the standard output are
    not part of the document and are left out.  The root of a walk is taken
    to exist and not to be a symbolic link. *)

From Stdlib Require Import ZArith Lia Ascii.
From stdpp Require Import gmap strings list sorting pretty.

(** ** Bytes and strings of the Go runtime *)

Definition byte_val (c : ascii) : Z := Z.of_N (N_of_ascii c).

Definition str_len (s : string) : nat := String.length s.

(** [s[n:]] for [n <= len(s)]. *)
Fixpoint str_drop (n : nat) (s : string) : string :=
  match n, s with
  | O, _ => s
  | S n', String _ t => str_drop n' t
  | S _, EmptyString => EmptyString
  end.

(** [s[:n]] for [n <= len(s)]. *)
Fixpoint str_take (n : nat) (s : string) : string :=
  match n, s with
  | O, _ => EmptyString
  | S n', String c t => String c (str_take n' t)
  | S _, EmptyString => EmptyString
  end.

Definition str_empty (s : string) : bool :=
  match s with EmptyString => true | _ => false end.

(** [s[i]] as a byte value; callers only index in range. *)
Definition str_at (s : string) (i : nat) : Z :=
  match String.get i s with Some c => byte_val c | None => 0%Z end.

(** The last byte of a non-empty string. *)
Fixpoint str_last (s : string) : option ascii :=
  match s with
  | EmptyString => None
  | String c EmptyString => Some c
  | String _ t => str_last t
  end.

(** [strings.HasPrefix]. *)
Definition HasPrefix (s prefix : string) : bool := String.prefix prefix s.

(** [strings.Contains]: some suffix of [s] starts with [substr]. *)
Fixpoint Contains (s substr : string) : bool :=
  if String.prefix substr s then true
  else match s with
       | EmptyString => false
       | String _ t => Contains t substr
       end.

(** [strings.Join]. *)
Fixpoint Join (elems : list string) (sep : string) : string :=
  match elems with
  | [] => ""
  | [e] => e
  | e :: rest => e +:+ sep +:+ Join rest sep
  end.

(** ** unicode/utf8 *)

Module utf8.
Local Open Scope Z_scope.

Definition RuneError : Z := 65533.   (* U+FFFD *)
Definition RuneSelf : Z := 128.

Definition cont (c : ascii) : Z := Z.land (byte_val c) 63.

(** [utf8.DecodeRuneInString]: the rune at the head of [s] and its width
    in bytes; [(RuneError, 0)] on the empty string and [(RuneError, 1)] on
    an invalid encoding.  The table [first]/[acceptRanges] of the Go
    source is written out as the ranges it encodes. *)
Definition DecodeRuneInString (s : string) : Z * nat :=
  match s with
  | EmptyString => (RuneError, 0%nat)
  | String c0 t =>
    let s0 := byte_val c0 in
    if s0 <? 128 then (s0, 1%nat)
    else if (s0 <? 194) || (244 <? s0) then (RuneError, 1%nat)
    else
      let sz := if s0 <? 224 then 2%nat else if s0 <? 240 then 3%nat else 4%nat in
      let lo := if s0 =? 224 then 160 else if s0 =? 240 then 144 else 128 in
      let hi := if s0 =? 237 then 159 else if s0 =? 244 then 143 else 191 in
      if (str_len s <? sz)%nat then (RuneError, 1%nat)
      else match t with
      | EmptyString => (RuneError, 1%nat)
      | String c1 t1 =>
        let s1 := byte_val c1 in
        if (s1 <? lo) || (hi <? s1) then (RuneError, 1%nat)
        else if (sz <=? 2)%nat then
          (Z.lor (Z.shiftl (Z.land s0 31) 6) (cont c1), 2%nat)
        else match t1 with
        | EmptyString => (RuneError, 1%nat)
        | String c2 t2 =>
          let s2 := byte_val c2 in
          if (s2 <? 128) || (191 <? s2) then (RuneError, 1%nat)
          else if (sz <=? 3)%nat then
            (Z.lor (Z.lor (Z.shiftl (Z.land s0 15) 12) (Z.shiftl (cont c1) 6))
                   (cont c2), 3%nat)
          else match t2 with
          | EmptyString => (RuneError, 1%nat)
          | String c3 _ =>
            let s3 := byte_val c3 in
            if (s3 <? 128) || (191 <? s3) then (RuneError, 1%nat)
            else
              (Z.lor (Z.lor (Z.lor (Z.shiftl (Z.land s0 7) 18)
                                   (Z.shiftl (cont c1) 12))
                            (Z.shiftl (cont c2) 6))
                     (cont c3), 4%nat)
          end
        end
      end
  end.

(** [utf8.RuneStart]: not a continuation byte. *)
Definition RuneStart (b : Z) : bool := negb (Z.land b 192 =? 128).

(** The backwards scan of [DecodeLastRuneInString] for the start of the
    last rune: from [start] down to [lim], stop at the first rune start. *)
Fixpoint scan_start (s : string) (start : nat) (steps : nat) : Z :=
  match steps with
  | O => Z.of_nat start
  | S steps' =>
    if RuneStart (str_at s start) then Z.of_nat start
    else match start with
         | O => -1
         | S start' => scan_start s start' steps'
         end
  end.

(** [utf8.DecodeLastRuneInString]. *)
Definition DecodeLastRuneInString (s : string) : Z * nat :=
  let e := str_len s in
  match e with
  | O => (RuneError, 0%nat)
  | S start =>
    let r := str_at s start in
    if r <? RuneSelf then (r, 1%nat)
    else
      let lim := (e - 4)%nat in
      (* for start--; start >= lim; start-- { if RuneStart(s[start]) break } *)
      let st :=
        match start with
        | O => -1
        | S start' => scan_start s start' (S start' - lim)
        end in
      let st := if st <? 0 then 0%nat else Z.to_nat st in
      let '(r, size) := DecodeRuneInString (str_drop st s) in
      if negb (st + size =? e)%nat then (RuneError, 1%nat) else (r, size)
  end.
End utf8.

(** ** unicode.IsSpace and strings.TrimSpace *)

Definition IsSpace (r : Z) : bool :=
  (if (r <=? 255)%Z
   then bool_decide (r ∈ [9; 10; 11; 12; 13; 32; 133; 160]%Z)
   else bool_decide (r ∈ [5760; 8232; 8233; 8239; 8287; 12288]%Z)
        || ((8192 <=? r)%Z && (r <=? 8202)%Z)).

(** The table [asciiSpace] of package strings. *)
Definition asciiSpace (c : Z) : bool :=
  bool_decide (c ∈ [9; 10; 11; 12; 13; 32]%Z).

(** [strings.TrimLeftFunc(s, unicode.IsSpace)]: [indexFunc] ranges over the
    runes of [s] and stops at the first one that is not a space. *)
Fixpoint TrimLeftSpace_go (fuel : nat) (s : string) : string :=
  match fuel with
  | O => s
  | S fuel' =>
    match s with
    | EmptyString => ""
    | _ =>
      let '(r, n) := utf8.DecodeRuneInString s in
      if IsSpace r then TrimLeftSpace_go fuel' (str_drop n s) else s
    end
  end.

Definition TrimLeftSpace (s : string) : string :=
  TrimLeftSpace_go (str_len s) s.

(** [lastIndexFunc(s, unicode.IsSpace, false)]: the byte index of the last
    rune that is not a space, or [-1]. *)
Fixpoint lastIndexNotSpace (fuel : nat) (s : string) (i : nat) : Z :=
  match fuel with
  | O => (-1)%Z
  | S fuel' =>
    match i with
    | O => (-1)%Z
    | _ =>
      let '(r, size) := utf8.DecodeLastRuneInString (str_take i s) in
      let i' := (i - size)%nat in
      if negb (IsSpace r) then Z.of_nat i'
      else lastIndexNotSpace fuel' s i'
    end
  end.

(** [strings.TrimRightFunc(s, unicode.IsSpace)]. *)
Definition TrimRightSpace (s : string) : string :=
  let i := lastIndexNotSpace (str_len s) s (str_len s) in
  if ((0 <=? i)%Z && (utf8.RuneSelf <=? str_at s (Z.to_nat i))%Z) then
    let '(_, wid) := utf8.DecodeRuneInString (str_drop (Z.to_nat i) s) in
    str_take (Z.to_nat i + wid) s
  else str_take (Z.to_nat (i + 1)) s.

(** The fast path of [TrimSpace] from the left: skip ASCII spaces; on a
    non-ASCII byte fall back to the rune-aware functions on the rest. *)
Fixpoint TrimSpace_left (s : string) : string + string :=
  match s with
  | EmptyString => inr ""
  | String c t =>
    if (utf8.RuneSelf <=? byte_val c)%Z then
      inl (TrimRightSpace (TrimLeftSpace s))
    else if asciiSpace (byte_val c) then TrimSpace_left t
    else inr s
  end.

(** The fast path from the right, on [s[start:stop]]. *)
Fixpoint TrimSpace_right (fuel : nat) (s : string) : string :=
  match fuel with
  | O => s
  | S fuel' =>
    match str_last s with
    | None => s
    | Some c =>
      if (utf8.RuneSelf <=? byte_val c)%Z then TrimRightSpace s
      else if asciiSpace (byte_val c)
           then TrimSpace_right fuel' (str_take (str_len s - 1) s)
           else s
    end
  end.

(** [strings.TrimSpace]. *)
Definition TrimSpace (s : string) : string :=
  match TrimSpace_left s with
  | inl r => r
  | inr s' => TrimSpace_right (str_len s') s'
  end.

(** ** path/filepath.Match (Unix, Go 1.16 and later)

    [Match] is library code the matcher calls; it is transcribed here so
    that [shouldIgnore] can be evaluated.  The only error it returns is
    [ErrBadPattern]. *)

Inductive error : Type :=
  | ErrBadPattern
  | ErrOther (msg : string).

Global Instance error_eq_dec : EqDecision error.
Proof. solve_decision. Defined.

Module filepath.
Local Open Scope Z_scope.

Definition Separator : ascii := "/"%char.

(** The scanning loop of [scanChunk] after the leading stars are gone:
    the length of the chunk, which ends at the first star outside a
    bracket expression. *)
Fixpoint scan_end (pattern : string) (inrange : bool) : nat :=
  match pattern with
  | EmptyString => 0%nat
  | String c t =>
    if Ascii.eqb c "\"%char then
      match t with
      | EmptyString => 1%nat
      | String _ t' => S (S (scan_end t' inrange))
      end
    else if Ascii.eqb c "["%char then S (scan_end t true)
    else if Ascii.eqb c "]"%char then S (scan_end t false)
    else if Ascii.eqb c "*"%char then
      if inrange then S (scan_end t inrange) else 0%nat
    else S (scan_end t inrange)
  end.

Fixpoint skip_stars (pattern : string) : bool * string :=
  match pattern with
  | String c t =>
    if Ascii.eqb c "*"%char then (true, snd (skip_stars t))
    else (false, pattern)
  | EmptyString => (false, pattern)
  end.

(** [scanChunk]: [(star, chunk, rest)]. *)
Definition scanChunk (pattern : string) : bool * string * string :=
  let '(star, pattern) := skip_stars pattern in
  let i := scan_end pattern false in
  (star, str_take i pattern, str_drop i pattern).

(** [getEsc]: one possibly escaped rune of a bracket expression and the
    rest of the chunk; [None] is [ErrBadPattern]. *)
Definition getEsc (chunk : string) : option (Z * string) :=
  match chunk with
  | EmptyString => None
  | String c t =>
    if Ascii.eqb c "-"%char || Ascii.eqb c "]"%char then None
    else
      let chunk := if Ascii.eqb c "\"%char then t else chunk in
      if str_empty chunk then None
      else
        let '(r, n) := utf8.DecodeRuneInString chunk in
        let bad := (r =? utf8.RuneError) && (n =? 1)%nat in
        let nchunk := str_drop n chunk in
        if bad || str_empty nchunk then None else Some (r, nchunk)
  end.

(** The loop "parse all ranges" of [matchChunk], on the chunk after the
    opening bracket and the optional [^]: [Some (match, rest)], or [None]
    for [ErrBadPattern]. *)
Fixpoint parseRanges (fuel : nat) (r : Z) (chunk : string)
         (nrange : nat) (mtch : bool) : option (bool * string) :=
  match fuel with
  | O => None
  | S fuel' =>
    let closing :=
      match chunk with
      | String c _ => Ascii.eqb c "]"%char && (0 <? nrange)%nat
      | EmptyString => false
      end in
    if closing then Some (mtch, str_drop 1 chunk)
    else
      match getEsc chunk with
      | None => None
      | Some (lo, chunk) =>
        let dash :=
          match chunk with
          | String c _ => Ascii.eqb c "-"%char
          | EmptyString => false
          end in
        if dash then
          match getEsc (str_drop 1 chunk) with
          | None => None
          | Some (hi, chunk) =>
            parseRanges fuel' r chunk (S nrange)
                        (mtch || ((lo <=? r) && (r <=? hi)))
          end
        else
          parseRanges fuel' r chunk (S nrange)
                      (mtch || ((lo <=? r) && (r <=? lo)))
      end
  end.

(** [matchChunk]: [(rest, ok, err)]. *)
Fixpoint matchChunk_go (fuel : nat) (failed : bool) (chunk s : string)
  : string * bool * option error :=
  match fuel with
  | O => ("", false, None)
  | S fuel' =>
    match chunk with
    | EmptyString => if failed then ("", false, None) else (s, true, None)
    | String c chunk1 =>
      let failed := failed || str_empty s in
      (* the default case: one literal byte [lit], [rest] follows it *)
      let literal (lit : ascii) (rest : string) :=
        match s with
        | String c0 s1 =>
          if failed then matchChunk_go fuel' failed rest s
          else matchChunk_go fuel' (negb (Ascii.eqb lit c0)) rest s1
        | EmptyString => matchChunk_go fuel' failed rest s
        end in
      if Ascii.eqb c "["%char then
        let '(r, s) :=
          if failed then (0, s)
          else let '(r, n) := utf8.DecodeRuneInString s in (r, str_drop n s) in
        let negated :=
          match chunk1 with
          | String c' _ => Ascii.eqb c' "^"%char
          | EmptyString => false
          end in
        let chunk2 := if negated then str_drop 1 chunk1 else chunk1 in
        match parseRanges (S (str_len chunk2)) r chunk2 0 false with
        | None => ("", false, Some ErrBadPattern)
        | Some (mtch, chunk3) =>
          matchChunk_go fuel' (failed || Bool.eqb mtch negated) chunk3 s
        end
      else if Ascii.eqb c "?"%char then
        match s with
        | String c0 _ =>
          if failed then matchChunk_go fuel' failed chunk1 s
          else
            let '(_, n) := utf8.DecodeRuneInString s in
            matchChunk_go fuel' (Ascii.eqb c0 Separator) chunk1 (str_drop n s)
        | EmptyString => matchChunk_go fuel' failed chunk1 s
        end
      else if Ascii.eqb c "\"%char then
        match chunk1 with
        | EmptyString => ("", false, Some ErrBadPattern)
        | String c' chunk2 => literal c' chunk2
        end
      else literal c chunk1
    end
  end.

Definition matchChunk (chunk s : string) : string * bool * option error :=
  matchChunk_go (S (str_len chunk)) false chunk s.

Inductive star_result : Type :=
  | StarFound (t : string)
  | StarError (e : error)
  | StarNone.

(** The loop "look for match skipping i+1 bytes" of [Match]. *)
Fixpoint starLoop (chunk : string) (lastChunk : bool) (name : string)
  : star_result :=
  match name with
  | EmptyString => StarNone
  | String c rest =>
    if Ascii.eqb c Separator then StarNone
    else
      let '(t, ok, err) := matchChunk chunk rest in
      if ok then
        if lastChunk && negb (str_empty t) then starLoop chunk lastChunk rest
        else StarFound t
      else match err with
           | Some e => StarError e
           | None => starLoop chunk lastChunk rest
           end
  end.

(** The final loop of [Match]: check the rest of the pattern for syntax
    errors before reporting "no match". *)
Fixpoint checkRest (fuel : nat) (pattern : string) : bool * option error :=
  match fuel with
  | O => (false, None)
  | S fuel' =>
    if str_empty pattern then (false, None)
    else
      let '(_, chunk, pattern) := scanChunk pattern in
      let '(_, _, err) := matchChunk chunk "" in
      match err with
      | Some e => (false, Some e)
      | None => checkRest fuel' pattern
      end
  end.

Fixpoint Match_go (fuel : nat) (pattern name : string) : bool * option error :=
  match fuel with
  | O => (false, None)
  | S fuel' =>
    if str_empty pattern then (str_empty name, None)
    else
      let '(star, chunk, pattern) := scanChunk pattern in
      if star && str_empty chunk then
        (negb (Contains name (String Separator "")), None)
      else
        let '(t, ok, err) := matchChunk chunk name in
        if ok && (str_empty t || negb (str_empty pattern)) then
          Match_go fuel' pattern t
        else
          match err with
          | Some e => (false, Some e)
          | None =>
            let rest := checkRest (S (str_len pattern)) pattern in
            if star then
              match starLoop chunk (str_empty pattern) name with
              | StarFound t => Match_go fuel' pattern t
              | StarError e => (false, Some e)
              | StarNone => rest
              end
            else rest
          end
  end.

(** [filepath.Match(pattern, name)]: [(matched, err)]. *)
Definition Match (pattern name : string) : bool * option error :=
  Match_go (S (str_len pattern)) pattern name.
End filepath.

(** [filepath.Ext]: the suffix of [path] from the last dot of its last
    element; the scan from the right stops at a separator. *)
Fixpoint Ext (path : string) : string :=
  match path with
  | EmptyString => ""
  | String c t =>
    let e := Ext t in
    if negb (str_empty e) then e
    else if Contains t "/" then ""
    else if Ascii.eqb c "."%char then path
    else ""
  end.

(** Strip the trailing separators, as [filepath.Base] does first. *)
Fixpoint strip_trailing_slashes (path : string) : string :=
  match path with
  | EmptyString => ""
  | String c t =>
    let t' := strip_trailing_slashes t in
    if str_empty t' && Ascii.eqb c "/"%char then "" else String c t'
  end.

(** The part of [path] after its last separator. *)
Fixpoint last_element (path : string) : string :=
  match path with
  | EmptyString => ""
  | String c t => if Contains path "/" then last_element t else path
  end.

(** [filepath.Base]. *)
Definition Base (path : string) : string :=
  if str_empty path then "."
  else
    let p := last_element (strip_trailing_slashes path) in
    if str_empty p then "/" else p.

(** [filepath.Clean] (Unix), as the library writes it: [out] is the buffer
    written so far, [dotdot] the index in it where [..] must stop, and the
    path is consumed from the left. *)

(** The bytes of [s] up to the first separator, and what follows them. *)
Fixpoint path_element (s : string) : string * string :=
  match s with
  | EmptyString => ("", "")
  | String c t =>
    if Ascii.eqb c "/"%char then ("", s)
    else let '(e, rest) := path_element t in (String c e, rest)
  end.

(** [for out.w > dotdot && !os.IsPathSeparator(out.index(out.w)) { out.w-- }]. *)
Fixpoint back_up (out : string) (dotdot w : nat) : nat :=
  match w with
  | O => w
  | S w' =>
    if (dotdot <? w)%nat && negb (bool_decide (String.get w out = Some "/"%char))
    then back_up out dotdot w'
    else w
  end.

(** [r+1 == n || os.IsPathSeparator(path[r+1])], of the path from [r+1] on. *)
Definition separator_or_end (s : string) : bool :=
  match s with
  | EmptyString => true
  | String c _ => Ascii.eqb c "/"%char
  end.

Fixpoint Clean_go (fuel : nat) (rooted : bool) (out : string) (dotdot : nat)
         (path : string) : string :=
  match fuel with
  | O => out
  | S fuel' =>
    match path with
    | EmptyString => out
    | String c t =>
      if Ascii.eqb c "/"%char then
        (* empty path element *)
        Clean_go fuel' rooted out dotdot t
      else if Ascii.eqb c "."%char && separator_or_end t then
        (* . element *)
        Clean_go fuel' rooted out dotdot t
      else if Ascii.eqb c "."%char && String.prefix "." t
              && separator_or_end (str_drop 1 t) then
        (* .. element: remove to last separator *)
        let t := str_drop 1 t in
        if (dotdot <? str_len out)%nat then
          (* can backtrack *)
          let w := back_up out dotdot (str_len out - 1) in
          Clean_go fuel' rooted (str_take w out) dotdot t
        else if negb rooted then
          (* cannot backtrack, but not rooted, so append .. element *)
          let out := if (0 <? str_len out)%nat then out +:+ "/" else out in
          let out := out +:+ ".." in
          Clean_go fuel' rooted out (str_len out) t
        else Clean_go fuel' rooted out dotdot t
      else
        (* real path element; add slash if needed *)
        let out :=
          if (rooted && negb (str_len out =? 1)%nat)
             || (negb rooted && negb (str_len out =? 0)%nat)
          then out +:+ "/" else out in
        let '(e, rest) := path_element path in
        Clean_go fuel' rooted (out +:+ e) dotdot rest
    end
  end.

Definition Clean (path : string) : string :=
  match path with
  | EmptyString => "."
  | String c t =>
    let rooted := Ascii.eqb c "/"%char in
    let out :=
      if rooted then Clean_go (str_len path) rooted "/" 1 t
      else Clean_go (str_len path) rooted "" 0 path in
    if str_empty out then "." else out
  end.

(** [filepath.Join]: from the first non-empty element on, the elements are
    joined with separators and the result is cleaned. *)
Fixpoint filepath_Join (elem : list string) : string :=
  match elem with
  | [] => ""
  | e :: rest =>
    if str_empty e then filepath_Join rest
    else Clean (Join elem "/")
  end.

(** [strings.Split(s, sep)] for a separator of one byte. *)
Fixpoint Split_go (s : string) (sep : ascii) (cur : string) : list string :=
  match s with
  | EmptyString => [String.rev cur]
  | String c t =>
    if Ascii.eqb c sep then String.rev cur :: Split_go t sep ""
    else Split_go t sep (String c cur)
  end.

Definition Split (s : string) (sep : ascii) : list string := Split_go s sep "".

(** The value of [err.Error()], which [%v] and [%w] print. *)
Definition Error (e : error) : string :=
  match e with
  | ErrBadPattern => "syntax error in pattern"
  | ErrOther msg => msg
  end.

(** A [*fs.PathError]: the error of a system call on a path.  The program
    only ever prints its errors, so the error is kept as its text,
    [op path: err]. *)
Definition PathError (op path : string) (err : error) : error :=
  ErrOther (op +:+ " " +:+ path +:+ ": " +:+ Error err).

(** ** Formatting verbs of package fmt *)

(** [%d]. *)
Definition fmt_d (z : Z) : string := pretty z.

(** [%t]. *)
Definition fmt_t (b : bool) : string := if b then "true" else "false".

(** ** The configuration *)

Record Config : Type := {
  includeFiles : bool;
  includeContent : bool;
  outputFile : string;
  ignorePatterns : list string;
  maxDepth : Z;
  showHidden : bool;
  targetDir : string;
}.

Definition with_ignorePatterns (config : Config) (ps : list string) : Config :=
  {| includeFiles := includeFiles config;
     includeContent := includeContent config;
     outputFile := outputFile config;
     ignorePatterns := ps;
     maxDepth := maxDepth config;
     showHidden := showHidden config;
     targetDir := targetDir config |}.

(** ** The matcher: [shouldIgnore] *)

(** The body of the loop of [shouldIgnore] after the pattern has been
    trimmed: does this pattern make the function return true? *)
Definition hits (name pattern : string) : bool :=
  if bool_decide (pattern = name) then true
  else if Contains pattern "*" then
    let '(matched, _) := filepath.Match pattern name in matched
  else false.

(** One iteration of the loop. *)
Definition pattern_hits (name pattern : string) : bool :=
  hits name (TrimSpace pattern).

Fixpoint shouldIgnore_loop (name : string) (patterns : list string) : bool :=
  match patterns with
  | [] => false
  | pattern :: rest =>
    if pattern_hits name pattern then true else shouldIgnore_loop name rest
  end.

Definition shouldIgnore (name : string) (config : Config) : bool :=
  shouldIgnore_loop name (ignorePatterns config).

(** ** The filesystem

    What the program can observe of a regular file (or of anything that is
    not a directory), one field per system call it makes on it. *)

Record FileData : Type := {
  fd_size : Z;                    (* [info.Size()] *)
  fd_info : option error;         (* the error of [d.Info()] *)
  fd_open : option error;         (* the error of [os.Open] *)
  fd_read : option error;         (* the error of a [Read] other than EOF *)
  fd_bytes : string;              (* the bytes of the file *)
  fd_readfile : option error;     (* the error of [os.ReadFile] *)
}.

#[local] Unset Elimination Schemes.

(** A directory entry with what lies under it.  [Dir name entries err]:
    [os.ReadDir] on it returns [entries] and [err].  [OutputFile name] is
    the file the program itself is writing, when it lies inside the tree it
    walks: its bytes are whatever has been written so far. *)
Inductive node : Type :=
  | File (name : string) (data : FileData)
  | OutputFile (name : string)
  | Dir (name : string) (entries : list node) (readdir : option error).

#[local] Set Elimination Schemes.

Definition Name (d : node) : string :=
  match d with File n _ | OutputFile n | Dir n _ _ => n end.

Definition IsDir (d : node) : bool :=
  match d with Dir _ _ _ => true | _ => false end.

(** Error numbers of the system, by their text. *)
Definition ENOTDIR : error := ErrOther "not a directory".
Definition ENOENT : error := ErrOther "no such file or directory".

(** [os.IsNotExist]. *)
Definition IsNotExist (err : option error) : bool := bool_decide (err = Some ENOENT).
Definition EISDIR : error := ErrOther "is a directory".
Definition EOF : error := ErrOther "EOF".

(** [d.Info()]: the size and the error.  [out] is what the output file
    holds at the time of the call.  The program asks it of no directory. *)
Definition Info (d : node) (out : string) : Z * option error :=
  match d with
  | File _ data => (fd_size data, fd_info data)
  | OutputFile _ => (Z.of_nat (str_len out), None)
  | Dir _ _ _ => (4096%Z, None)
  end.

(** [file.Read(buffer)] on a freshly opened file with a buffer of [size]
    bytes: the bytes read into the buffer, their count and the error.  An
    [os.File] returns a count of 0 with every error, and [io.EOF] with a
    count of 0 at the end of the file. *)
Definition Read (rerr : option error) (bytes : string) (size : nat)
  : string * nat * option error :=
  match rerr with
  | Some e => ("", 0, Some e)
  | None =>
    if str_empty bytes then ("", 0, Some EOF)
    else
      let buffer := str_take size bytes in
      (buffer, str_len buffer, None)
  end.

(** [os.Open] followed by the first [Read] into a buffer of [size] bytes;
    [None] when the file cannot be opened. *)
Definition open_and_read (d : node) (out : string) (size : nat)
  : option (string * nat * option error) :=
  match d with
  | File _ data =>
    match fd_open data with
    | Some _ => None
    | None => Some (Read (fd_read data) (fd_bytes data) size)
    end
  | OutputFile _ => Some (Read None out size)
  | Dir _ _ _ => Some (Read (Some EISDIR) "" size)
  end.

(** [os.ReadFile]. *)
Definition ReadFile (d : node) (out : string) : string + error :=
  match d with
  | File _ data =>
    match fd_readfile data with
    | Some e => inr e
    | None => inl (fd_bytes data)
    end
  | OutputFile _ => inl out
  | Dir _ _ _ => inr EISDIR
  end.

(** ** The classifier *)

(** The loop over [buffer[0..n)] of [isTextFile]. *)
Fixpoint no_null_byte (buffer : string) (n : nat) : bool :=
  match n, buffer with
  | O, _ => true
  | S n', String c t =>
    if (byte_val c =? 0)%Z then false else no_null_byte t n'
  | S n', EmptyString => false   (* a byte of the zeroed buffer *)
  end.

Definition isTextFile (d : node) (out : string) : bool :=
  match open_and_read d out 512 with
  | None => false
  | Some (buffer, n, err) =>
    if bool_decide (err ≠ None) && (n =? 0)%nat then false
    else no_null_byte buffer n
  end.

(** [float64(size)] for a non-negative [int64]: the nearest value with a
    53-bit mantissa, ties to even.  The result is an integer. *)
Definition float64_of_int (size : Z) : Z :=
  let e := (Z.log2 size + 1 - 53)%Z in
  if (e <=? 0)%Z then size
  else
    let q := Z.shiftr size e in
    let r := Z.land size (Z.ones e) in
    let half := Z.shiftl 1 (e - 1) in
    let q' := if (half <? r)%Z || ((r =? half)%Z && Z.odd q) then (q + 1)%Z else q in
    Z.shiftl q' e.

(** [Sprintf("%.1f", num/den)] for [num >= 0] and [den] a power of two: the
    quotient of two floats is exact, and the decimal is rounded to the
    nearest tenth, ties to even. *)
Definition fmt_f1 (num den : Z) : string :=
  let t := (10 * num / den)%Z in
  let r := (10 * num mod den)%Z in
  let t' := if (den <? 2 * r)%Z || ((2 * r =? den)%Z && Z.odd t) then (t + 1)%Z else t in
  pretty (t' / 10)%Z +:+ "." +:+ pretty (t' mod 10)%Z.

(** The loop of [formatFileSize]: [for n := size / unit; n >= unit; n /= unit]. *)
Fixpoint size_loop (fuel : nat) (n div : Z) (exp : nat) : Z * nat :=
  match fuel with
  | O => (div, exp)
  | S fuel' =>
    if (n >=? 1024)%Z then size_loop fuel' (n / 1024)%Z (div * 1024)%Z (S exp)
    else (div, exp)
  end.

Definition formatFileSize (size : Z) : string :=
  if (size <? 1024)%Z then fmt_d size +:+ " B"
  else
    let '(div, exp) := size_loop 6 (size / 1024)%Z 1024%Z 0 in
    let c := match String.get exp "KMGTPE" with Some c => c | None => "?"%char end in
    fmt_f1 (float64_of_int size) div +:+ " " +:+ String c "B".

(** ** strings.ToLower

    The case table of package unicode is data of the Go runtime; the
    development is parametric in it. *)

Definition ascii_of_Z (z : Z) : ascii := ascii_of_N (Z.to_N z).

(** [utf8.AppendRune]. *)
Definition EncodeRune (r : Z) : string :=
  let b (z : Z) := ascii_of_Z z in
  let tail6 (z : Z) := b (Z.lor 128 (Z.land z 63)) in
  if ((0 <=? r) && (r <? 128))%Z then String (b r) ""
  else if ((0 <=? r) && (r <=? 2047))%Z then
    String (b (Z.lor 192 (Z.shiftr r 6))) (String (tail6 r) "")
  else
    let r := if ((r <? 0) || (1114111 <? r) || ((55296 <=? r) && (r <=? 57343)))%Z
             then utf8.RuneError else r in
    if (r <=? 65535)%Z then
      String (b (Z.lor 224 (Z.shiftr r 12)))
        (String (tail6 (Z.shiftr r 6)) (String (tail6 r) ""))
    else
      String (b (Z.lor 240 (Z.shiftr r 18)))
        (String (tail6 (Z.shiftr r 12))
           (String (tail6 (Z.shiftr r 6)) (String (tail6 r) ""))).

(** [strings.Map(mapping, s)]: every rune of [s] (an invalid byte is the
    rune [RuneError]) is replaced by the encoding of its image, or dropped
    when the image is negative. *)
Fixpoint Map_go (fuel : nat) (mapping : Z → Z) (s : string) : string :=
  match fuel with
  | O => ""
  | S fuel' =>
    match s with
    | EmptyString => ""
    | _ =>
      let '(c, width) := utf8.DecodeRuneInString s in
      let r := mapping c in
      (if (0 <=? r)%Z then EncodeRune r else "")
        +:+ Map_go fuel' mapping (str_drop width s)
    end
  end.

Definition Map (mapping : Z → Z) (s : string) : string :=
  Map_go (str_len s) mapping s.

Fixpoint isASCII (s : string) : bool :=
  match s with
  | EmptyString => true
  | String c t => (byte_val c <? utf8.RuneSelf)%Z && isASCII t
  end.

Definition lower_byte (c : ascii) : ascii :=
  let z := byte_val c in
  if ((65 <=? z) && (z <=? 90))%Z then ascii_of_Z (z + 32) else c.

Fixpoint lower_bytes (s : string) : string :=
  match s with
  | EmptyString => ""
  | String c t => String (lower_byte c) (lower_bytes t)
  end.

(** The table of [getLanguageFromExtension]. *)
Definition languages : gmap string string :=
  list_to_map
    [(".go", "go"); (".py", "python"); (".js", "javascript");
     (".ts", "typescript"); (".jsx", "jsx"); (".tsx", "tsx");
     (".java", "java"); (".c", "c"); (".cpp", "cpp"); (".cc", "cpp");
     (".cxx", "cpp"); (".h", "c"); (".hpp", "cpp"); (".hxx", "cpp");
     (".rs", "rust"); (".php", "php"); (".rb", "ruby"); (".sh", "bash");
     (".bash", "bash"); (".zsh", "zsh"); (".fish", "fish");
     (".ps1", "powershell"); (".html", "html"); (".htm", "html");
     (".css", "css"); (".scss", "scss"); (".sass", "sass"); (".less", "less");
     (".xml", "xml"); (".json", "json"); (".yaml", "yaml"); (".yml", "yaml");
     (".toml", "toml"); (".ini", "ini"); (".cfg", "ini"); (".conf", "ini");
     (".md", "markdown"); (".txt", "text"); (".sql", "sql"); (".r", "r");
     (".m", "matlab"); (".swift", "swift"); (".kt", "kotlin");
     (".kts", "kotlin"); (".scala", "scala"); (".clj", "clojure");
     (".cljs", "clojure"); (".hs", "haskell"); (".elm", "elm");
     (".ex", "elixir"); (".exs", "elixir"); (".erl", "erlang");
     (".dart", "dart"); (".lua", "lua"); (".pl", "perl"); (".vim", "vim");
     (".dockerfile", "dockerfile"); (".gitignore", "gitignore");
     (".env", "bash"); (".makefile", "makefile"); (".cmake", "cmake")].

Definition getLanguageFromExtension (ext : string) : string :=
  match languages !! ext with
  | Some lang => lang
  | None => "text"
  end.

(** ** sort.Slice

    The insertion sort Go runs on slices of at most twelve elements: each
    element moves left while it is less than its left neighbour.  The
    sorted prefix is kept with its last element first.  Longer slices go
    through pdqsort; [sort.Slice] promises a sorted permutation either way,
    and that is unique when [less] orders the elements strictly. *)

Fixpoint insert_back {A} (less : A → A → bool) (x : A) (rp : list A) : list A :=
  match rp with
  | [] => [x]
  | y :: rp' => if less x y then y :: insert_back less x rp' else x :: rp
  end.

Definition sortSlice {A} (less : A → A → bool) (l : list A) : list A :=
  rev (fold_left (fun rp x => insert_back less x rp) l []).

(** ** The tree renderer *)

Definition LF : string := String "010" "".

(** The filter of [writeTree]. *)
Definition keep_in_tree (config : Config) (entry : node) : bool :=
  if shouldIgnore (Name entry) config then false
  else if negb (showHidden config) && HasPrefix (Name entry) "." then false
  else if negb (includeFiles config) && negb (IsDir entry) then false
  else true.

(** The comparison handed to [sort.Slice]: directories first, then files;
    by name within each group. *)
Definition less (a b : node) : bool :=
  if negb (Bool.eqb (IsDir a) (IsDir b)) then IsDir a
  else String.ltb (Name a) (Name b).

Definition connector (isLast : bool) : string :=
  if isLast then "└── " else "├── ".

Definition nextPrefix (prefix : string) (isLast : bool) : string :=
  if isLast then prefix +:+ "    " else prefix +:+ "│   ".

Definition decorate (config : Config) (entry : node) : string :=
  let name := Name entry in
  if includeContent config then
    if IsDir entry then "📁 " +:+ name +:+ "/" else "📄 " +:+ name
  else if IsDir entry then name +:+ "/"
  else name.

(** One iteration of the printing loop of [writeTree]: the directory being
    listed (as the names from the root down to it), the depth, and the
    variables the line is printed from. *)
Record tree_line : Type := {
  tl_dir : list string;
  tl_depth : Z;
  tl_prefix : string;
  tl_last : bool;
  tl_entry : node;
}.

(** [fmt.Fprintf(file, "%s%s%s\n", prefix, connector, name)]. *)
Definition line_text (config : Config) (l : tree_line) : string :=
  tl_prefix l +:+ connector (tl_last l) +:+ decorate config (tl_entry l) +:+ LF.

(** What a call of [writeTree] prints, in order, and the error it returns. *)
Definition written : Type := list tree_line * option error.

(** An entry together with the recursive call on it. *)
Definition tree_entry : Type := node * (string → Z → written).

(** The loop over [filteredEntries]. *)
Fixpoint writeTree_loop (dir : list string) (prefix : string) (depth : Z)
         (entries : list tree_entry) : written :=
  match entries with
  | [] => ([], None)
  | (entry, recurse) :: rest =>
    let isLast := bool_decide (rest = []) in
    let line := {| tl_dir := dir; tl_depth := depth; tl_prefix := prefix;
                   tl_last := isLast; tl_entry := entry |} in
    let '(sub, err) :=
      if IsDir entry then recurse (nextPrefix prefix isLast) (depth + 1)%Z
      else ([], None) in
    match err with
    | Some e => (line :: sub, Some e)
    | None =>
      let '(more, err) := writeTree_loop dir prefix depth rest in
      (line :: sub ++ more, err)
    end
  end.

(** The string [dir] of the call of [writeTree] on what lies at [path]:
    [config.targetDir] for the root, [filepath.Join(dir, entry.Name())]
    from one level to the next. *)
Definition dir_at (config : Config) (path : list string) : string :=
  fold_left (fun dir name => filepath_Join [dir; name]) path (targetDir config).

(** [writeTree]; [dir] is the node at the path [path].  [os.ReadDir] opens
    its argument as a directory: on anything else the open fails with
    [ENOTDIR], reported as a path error that names the argument. *)
Fixpoint writeTree (dir : node) (path : list string) (prefix : string)
         (config : Config) (depth : Z) {struct dir} : written :=
  if (maxDepth config >=? 0)%Z && (depth >? maxDepth config)%Z then ([], None)
  else
    match dir with
    | File _ _ | OutputFile _ =>
      ([], Some (PathError "open" (dir_at config path) ENOTDIR))
    | Dir _ entries (Some e) => ([], Some e)
    | Dir _ entries None =>
      let calls : list tree_entry :=
        map (fun entry =>
               (entry, fun prefix depth =>
                         writeTree entry (path ++ [Name entry]) prefix config depth))
            entries in
      let filteredEntries :=
        List.filter (fun c => keep_in_tree config (fst c)) calls in
      let sorted := sortSlice (fun a b => less (fst a) (fst b)) filteredEntries in
      writeTree_loop path prefix depth sorted
    end.

(** The bytes the lines put into the output file. *)
Definition tree_text (config : Config) (lines : list tree_line) : string :=
  foldr (fun l rest => line_text config l +:+ rest) "" lines.

(** ** filepath.WalkDir *)

Inductive walk_error : Type :=
  | SkipDir
  | SkipAll
  | Failure (e : error).

(** A [fs.WalkDirFunc] acting on a state [S]: the path is kept as the list
    of names below the root of the walk. *)
Definition WalkDirFunc (S : Type) : Type :=
  list string → node → option error → S → S * option walk_error.

(** The loop over the entries of a directory in [walkDir]: [SkipDir] from
    an entry ends the loop, any other error is returned. *)
Fixpoint walk_entries {S} (calls : list (S → S * option walk_error)) (st : S)
  : S * option walk_error :=
  match calls with
  | [] => (st, None)
  | call :: rest =>
    let '(st, err) := call st in
    match err with
    | None => walk_entries rest st
    | Some SkipDir => (st, None)
    | Some e => (st, Some e)
    end
  end.

Fixpoint walkDir {S} (fn : WalkDirFunc S) (path : list string) (d : node)
         (st : S) {struct d} : S * option walk_error :=
  let '(st, err) := fn path d None st in
  match d with
  | Dir _ dirs readdir =>
    match err with
    | Some SkipDir => (st, None)
    | Some e => (st, Some e)
    | None =>
      let '(st, err) :=
        match readdir with
        | Some e => fn path d (Some e) st   (* second call, to report the error *)
        | None => (st, None)
        end in
      match err with
      | Some SkipDir => (st, None)
      | Some e => (st, Some e)
      | None =>
        walk_entries (map (fun d1 => walkDir fn (path ++ [Name d1]) d1) dirs) st
      end
    end
  | _ => (st, err)
  end.

Definition WalkDir {S} (fn : WalkDirFunc S) (root : node) (st : S)
  : S * option error :=
  let '(st, err) := walkDir fn [] root st in
  match err with
  | Some (Failure e) => (st, Some e)
  | _ => (st, None)
  end.

(** [filepath.Rel(dir, path)] for a path of the walk rooted at [dir]. *)
Definition Rel (path : list string) : string :=
  match path with
  | [] => "."
  | _ => Join path "/"
  end.

(** The path string the walk hands to its function; [filepath.Join] also
    cleans it, which leaves its last element as it is. *)
Definition walk_path (dir : string) (path : list string) : string :=
  match path with
  | [] => dir
  | _ => dir +:+ "/" +:+ Join path "/"
  end.

(** ** The statistics of [writeProjectInfo] *)

Definition countFunc : WalkDirFunc (Z * Z) :=
  fun _ d err '(fileCount, dirCount) =>
    match err with
    | Some _ => ((fileCount, dirCount), None)
    | None =>
      if IsDir d then ((fileCount, dirCount + 1)%Z, None)
      else ((fileCount + 1, dirCount)%Z, None)
    end.

(** The counters [fileCount] and [dirCount] after the walk. *)
Definition countEntries (root : node) : Z * Z :=
  fst (WalkDir countFunc root (0, 0)%Z).

Definition writeProjectInfo (root : node) (dir : string) : string :=
  let '(fileCount, dirCount) := countEntries root in
  "## 📊 Project Overview" +:+ LF +:+ LF
  +:+ "- **Total Files:** " +:+ fmt_d fileCount +:+ LF
  +:+ "- **Total Directories:** " +:+ fmt_d (dirCount - 1) +:+ LF
  +:+ "- **Project Root:** `" +:+ dir +:+ "`" +:+ LF +:+ LF.

Definition writeFooter (config : Config) : string :=
  "---" +:+ LF +:+ LF
  +:+ "## 🛠️ Generated with foldermd" +:+ LF +:+ LF
  +:+ "**Configuration used:**" +:+ LF
  +:+ "- Include files: `" +:+ fmt_t (includeFiles config) +:+ "`" +:+ LF
  +:+ "- Include content: `" +:+ fmt_t (includeContent config) +:+ "`" +:+ LF
  +:+ "- Max depth: `" +:+ fmt_d (maxDepth config) +:+ "`" +:+ LF
  +:+ "- Show hidden: `" +:+ fmt_t (showHidden config) +:+ "`" +:+ LF
  +:+ "- Ignore patterns: `" +:+ Join (ignorePatterns config) ", " +:+ "`" +:+ LF
  +:+ LF +:+ "*This README was automatically generated. Consider customizing it for your project!*" +:+ LF.

(** ** The ignore file: [readIgnoreFile] *)

(** The tokens of a [bufio.Scanner] with [ScanLines], before the carriage
    return at their end is dropped. *)
Fixpoint raw_lines (s : string) (cur : string) : list string :=
  match s with
  | EmptyString => if str_empty cur then [] else [String.rev cur]
  | String c t =>
    if Ascii.eqb c "010"%char then String.rev cur :: raw_lines t ""
    else raw_lines t (String c cur)
  end.

(** [dropCR]. *)
Definition dropCR (line : string) : string :=
  match str_last line with
  | Some "013"%char => str_take (str_len line - 1) line
  | _ => line
  end.

Definition MaxScanTokenSize : Z := 65536.
Definition ErrTooLong : error := ErrOther "bufio.Scanner: token too long".

(** The loop of [readIgnoreFile] over the scanned lines. *)
Definition ignore_lines (lines : list string) : list string :=
  List.filter (fun line => negb (str_empty line) && negb (HasPrefix line "#"))
              (map (fun raw => TrimSpace (dropCR raw)) lines).

(** The scanner stops with [ErrTooLong] at the first line that does not
    fit its buffer; the patterns before it have been collected. *)
Fixpoint scan_patterns (lines : list string) : list string * option error :=
  match lines with
  | [] => ([], None)
  | raw :: rest =>
    if (MaxScanTokenSize <=? Z.of_nat (str_len raw))%Z then ([], Some ErrTooLong)
    else
      let '(ps, err) := scan_patterns rest in
      (ignore_lines [raw] ++ ps, err)
  end.

Definition readIgnoreFile (d : node) (out : string) : list string * option error :=
  match d with
  | File _ data =>
    match fd_open data, fd_read data with
    | Some e, _ => ([], Some e)
    | None, Some e => ([], Some e)
    | None, None => scan_patterns (raw_lines (fd_bytes data) "")
    end
  | OutputFile _ => scan_patterns (raw_lines out "")
  | Dir _ _ _ => ([], Some EISDIR)
  end.

(** ** time.Now().Format("2006-01-02 15:04:05") *)

Record Time : Type := {
  year : nat; month : nat; day : nat;
  hour : nat; minute : nat; second : nat;
}.

Definition pad2 (n : nat) : string :=
  if (n <? 10)%nat then "0" +:+ pretty n else pretty n.

Definition pad4 (n : nat) : string :=
  if (n <? 10)%nat then "000" +:+ pretty n
  else if (n <? 100)%nat then "00" +:+ pretty n
  else if (n <? 1000)%nat then "0" +:+ pretty n
  else pretty n.

Definition Format (t : Time) : string :=
  pad4 (year t) +:+ "-" +:+ pad2 (month t) +:+ "-" +:+ pad2 (day t)
  +:+ " " +:+ pad2 (hour t) +:+ ":" +:+ pad2 (minute t) +:+ ":" +:+ pad2 (second t).

(** ** The init subcommand: [createIgnoreFile]

    The working directory is a finite map from file names to contents. *)

Definition ignoreFileName : string := ".foldermd.ignore".

Definition defaultIgnoreContent : string :=
"# foldermd ignore patterns
# Lines starting with # are comments
# Use glob patterns to match files and directories

# Version control
.git
.svn
.hg

# Dependencies
node_modules
vendor
__pycache__
.venv
venv

# Build outputs
build
dist
out
target
bin
obj

# IDE and editor files
.vscode
.idea
*.swp
*.swo
*~

# OS generated files
.DS_Store
Thumbs.db
Desktop.ini

# Logs
*.log
logs

# Temporary files
tmp
temp
*.tmp
*.temp

# Archives
*.zip
*.tar.gz
*.rar
*.7z".

(** The state the subcommand acts on: the files of the working directory
    and what it has printed. *)
Record InitState : Type := {
  files : gmap string string;
  stdout : list string;
}.

(** How a call of [os.WriteFile] ends.  The function opens the file with
    [O_WRONLY|O_CREATE|O_TRUNC], writes the data and closes the file; it
    returns the first error met.  When the file cannot be opened nothing is
    created; once it is open it exists and is empty, so a [Write] (or the
    [Close] after it) that fails leaves the file behind with the bytes
    that reached it. *)
Inductive write_outcome : Type :=
  | Written
  | OpenFails (e : error)
  | WriteFails (n : nat) (e : error).   (* [n] bytes reached the file *)

(** [os.WriteFile]; [werr] is how the call ends. *)
Definition WriteFile (filename content : string) (werr : write_outcome)
           (st : InitState) : InitState * option error :=
  match werr with
  | Written =>
    ({| files := <[filename := content]> (files st); stdout := stdout st |}, None)
  | OpenFails e => (st, Some e)
  | WriteFails n e =>
    ({| files := <[filename := str_take n content]> (files st);
        stdout := stdout st |}, Some e)
  end.

Definition Printf (text : string) (st : InitState) : InitState :=
  {| files := files st; stdout := stdout st ++ [text] |}.

Definition createIgnoreFile (werr : write_outcome) (st : InitState)
  : InitState * option error :=
  let filename := ignoreFileName in
  match files st !! filename with
  | Some _ =>   (* os.Stat returned no error *)
    (st, Some (ErrOther ("file " +:+ filename +:+ " already exists")))
  | None =>
    let '(st, err) := WriteFile filename defaultIgnoreContent werr st in
    match err with
    | Some e =>
      (st, Some (ErrOther ("failed to create " +:+ filename +:+ ": " +:+ Error e)))
    | None =>
      let st := Printf ("✅ Created " +:+ filename
                        +:+ " with common ignore patterns" +:+ LF) st in
      let st := Printf ("💡 Edit this file to customize ignore patterns for your project"
                        +:+ LF) st in
      (st, None)
    end
  end.

(** [main]: the exit status after [rootCmd.Execute()] returned [err]. *)
Definition exit_status (err : option error) : Z :=
  match err with
  | Some _ => 1%Z
  | None => 0%Z
  end.

(** [foldermd init]. *)
Definition run_init (werr : write_outcome) (st : InitState) : InitState * Z :=
  let '(st, err) := createIgnoreFile werr st in
  (st, exit_status err).

(** ** The content renderer and the report writer *)

Section Foldermd.

(** [unicode.ToLower], the case table of the Go runtime. *)
Variable unicode_ToLower : Z → Z.

(** [strings.ToLower]. *)
Definition ToLower (s : string) : string :=
  if isASCII s then lower_bytes s else Map unicode_ToLower s.

Definition header (relPath : string) : string :=
  "### 📄 " +:+ relPath +:+ LF +:+ LF.

(** The function [writeFileContents] hands to [filepath.WalkDir]; its
    state is what the output file holds. *)
Definition contentsFunc (config : Config) (dir : string) : WalkDirFunc string :=
  fun path d err out =>
    match err with
    | Some e => (out, Some (Failure e))
    | None =>
      let relPath := Rel path in
      let currentDepth := (Z.of_nat (length (Split relPath "/")) - 1)%Z in
      if (maxDepth config >=? 0)%Z && (currentDepth >? maxDepth config)%Z then
        if IsDir d then (out, Some SkipDir) else (out, None)
      else if IsDir d || shouldIgnore (Name d) config then (out, None)
      else if negb (showHidden config) && HasPrefix (Name d) "." then (out, None)
      else
        let relPath := if bool_decide (relPath = ".") then Name d else relPath in
        match Info d out with
        | (_, Some _) => (out, None)
        | (size, None) =>
          if (size >? 1024 * 1024)%Z then
            (out +:+ header relPath
                 +:+ "*File too large to display (" +:+ formatFileSize size +:+ ")*"
                 +:+ LF +:+ LF, None)
          else if negb (isTextFile d out) then
            (out +:+ header relPath
                 +:+ "*Binary file (" +:+ formatFileSize size +:+ ")*"
                 +:+ LF +:+ LF, None)
          else
            match ReadFile d out with
            | inr e =>
              (out +:+ header relPath
                   +:+ "*Error reading file: " +:+ Error e +:+ "*"
                   +:+ LF +:+ LF, None)
            | inl content =>
              let ext := ToLower (Ext (walk_path dir path)) in
              let lang := getLanguageFromExtension ext in
              (out +:+ header relPath
                   +:+ "*Size: " +:+ formatFileSize size
                   +:+ " | Language: " +:+ lang +:+ "*" +:+ LF +:+ LF
                   +:+ "```" +:+ lang +:+ LF +:+ content +:+ LF +:+ "```"
                   +:+ LF +:+ LF, None)
            end
        end
    end.

Definition writeFileContents (root : node) (config : Config) (depth : Z)
           (out : string) : string * option error :=
  if (maxDepth config >=? 0)%Z && (depth >? maxDepth config)%Z then (out, None)
  else WalkDir (contentsFunc config (targetDir config)) root out.

(** What the run finds outside its arguments. *)
Record Env : Type := {
  env_root : node;              (* what lies at [config.targetDir] *)
  env_create : option error;    (* the error of [os.Create(outputFile)] *)
  env_cwd : string;             (* [os.Getwd()] *)
  env_now : Time;               (* [time.Now()] *)
}.

(** [os.Stat] of a name directly under the root. *)
Definition stat_in (root : node) (name : string) : option node :=
  match root with
  | Dir _ entries _ => List.find (fun d => bool_decide (Name d = name)) entries
  | _ => None
  end.

(** The patterns in force after the merge with the ignore file. *)
Definition merge_ignore (config : Config) (root : node) : Config :=
  match stat_in root ignoreFileName with
  | Some d =>
    match readIgnoreFile d "" with
    | (additionalPatterns, None) =>
      with_ignorePatterns config (ignorePatterns config ++ additionalPatterns)
    | (_, Some _) => config
    end
  | None => config
  end.

Definition projectName (config : Config) (env : Env) : string :=
  let name := Base (targetDir config) in
  if bool_decide (name = ".") then Base (env_cwd env) else name.

(** What [generateReadme] writes before the tree. *)
Definition preamble (config : Config) (env : Env) : string :=
  "# " +:+ projectName config env +:+ LF +:+ LF
  +:+ "> Generated with [foldermd](https://github.com/yourusername/foldermd) on "
  +:+ Format (env_now env) +:+ LF +:+ LF
  +:+ writeProjectInfo (env_root env) (targetDir config)
  +:+ "## 📁 Project Structure" +:+ LF +:+ LF
  +:+ (if includeFiles config
       then "```" +:+ LF +:+ "Legend: 📁 Directory | 📄 File" +:+ LF +:+ "```" +:+ LF +:+ LF
       else "")
  +:+ "```" +:+ LF.

(** [generateReadme]: the contents of the output file, if it was
    created, and the error returned. *)
Definition generateReadme (config : Config) (env : Env)
  : option string * option error :=
  match env_create env with
  | Some e =>
    (None, Some (ErrOther ("failed to create output file '" +:+ outputFile config
                           +:+ "': " +:+ Error e)))
  | None =>
    let config := merge_ignore config (env_root env) in
    let out := preamble config env in
    let '(tree, err) := writeTree (env_root env) [] "" config 0 in
    let out := out +:+ tree_text config tree in
    match err with
    | Some e => (Some out, Some (ErrOther ("failed to generate tree: " +:+ Error e)))
    | None =>
      let out := out +:+ "```" +:+ LF +:+ LF in
      let '(out, err) :=
        if includeContent config then
          writeFileContents (env_root env) config 0
                            (out +:+ "## 📄 File Contents" +:+ LF +:+ LF)
        else (out, None) in
      match err with
      | Some e =>
        (Some out, Some (ErrOther ("failed to write file contents: " +:+ Error e)))
      | None => (Some (out +:+ writeFooter config), None)
      end
    end
  end.

(** ** The root command

    The values of the flags as cobra hands them to [RunE]. *)
Record Flags : Type := {
  flag_files : bool;
  flag_content : bool;
  flag_output : string;
  flag_ignore : string;
  flag_depth : Z;
  flag_hidden : bool;
}.

(** The configuration [RunE] has built when it calls [generateReadme]. *)
Definition runConfig (flags : Flags) (args : list string) : Config :=
  let targetDir := match args with arg :: _ => arg | [] => "." end in
  let ignoreList := flag_ignore flags in
  let ignorePatterns :=
    if negb (str_empty ignoreList)
    then map TrimSpace (Split ignoreList ",")
    else [] in
  let includeFiles := if flag_content flags then true else flag_files flags in
  {| includeFiles := includeFiles;
     includeContent := flag_content flags;
     outputFile := flag_output flags;
     ignorePatterns := ignorePatterns;
     maxDepth := flag_depth flags;
     showHidden := flag_hidden flags;
     targetDir := targetDir |}.

(** [RunE] of the root command.  [stat] is the error of
    [os.Stat(config.targetDir)]; only [ENOENT] stops the run here. *)
Definition RunE (flags : Flags) (args : list string) (stat : option error)
           (env : Env) : option string * option error :=
  let config := runConfig flags args in
  if IsNotExist stat then
    (None, Some (ErrOther ("directory '" +:+ targetDir config +:+ "' does not exist")))
  else generateReadme config env.

End Foldermd.

(** * Specification-side definitions *)

(** ** The matcher, in the words of the specification *)

(** One pattern ignores a name when it equals the name, or contains the
    wildcard and matches the name as a shell glob. *)
Definition claimed_hit (name pattern : string) : Prop :=
  pattern = name
  ∨ (Contains pattern "*" = true ∧ fst (filepath.Match pattern name) = true).

(** ** The order of the tree, in the words of the specification *)

(** Lexicographic comparison of two strings byte by byte, by the numeric
    value of the bytes. *)
Fixpoint bytes_lt (s t : string) : bool :=
  match s, t with
  | _, EmptyString => false
  | EmptyString, String _ _ => true
  | String a s', String b t' =>
    (byte_val a <? byte_val b)%Z || ((byte_val a =? byte_val b)%Z && bytes_lt s' t')
  end.

(** What the order compares of an entry. *)
Definition sort_key (d : node) : bool * string := (IsDir d, Name d).

(** [a] may stand before [b]: never a file before a directory, and within
    the directories and within the files never a greater name first. *)
Definition in_order (a b : node) : Prop :=
  (IsDir b = true → IsDir a = true)
  ∧ (IsDir a = IsDir b → bytes_lt (Name b) (Name a) = false).

(** With respect to a comparison [lt], [a] may stand before [b]. *)
Definition not_after {A} (lt : A → A → bool) (a b : A) : Prop := lt b a = false.

(** ** Positions in the tree *)

(** [visible config root path e]: the entry [e] lies at [path] below
    [root], every directory above it can be listed, and every entry along
    the path, [e] included, passes the filter of the tree renderer. *)
Inductive visible (config : Config) : node → list string → node → Prop :=
  | visible_child name entries e :
      e ∈ entries → keep_in_tree config e = true →
      visible config (Dir name entries None) [Name e] e
  | visible_below name entries c path e :
      c ∈ entries → keep_in_tree config c = true →
      visible config c path e →
      visible config (Dir name entries None) (Name c :: path) e.

(** The depth of the entry at [path]: the direct children of the root are
    at depth 0. *)
Definition depth_of (path : list string) : Z := (Z.of_nat (length path) - 1)%Z.

(** Where a printed line sits: the path of its entry, and the entry. *)
Definition tl_pos (l : tree_line) : list string * node :=
  (tl_dir l ++ [Name (tl_entry l)], tl_entry l).

(** An entry of the listing of the directory at [path], with the recursive
    call of [writeTree] on it. *)
Definition recursive_call (config : Config) (path : list string) (entry : node)
  : tree_entry :=
  (entry, λ prefix depth, writeTree entry (path ++ [Name entry]) prefix config depth).

(** The depth limit is exceeded: [maxDepth >= 0 && depth > maxDepth]. *)
Definition beyond_limit (config : Config) (depth : Z) : bool :=
  (maxDepth config >=? 0)%Z && (depth >? maxDepth config)%Z.

(** The number of bytes [c] in [s]. *)
Fixpoint count_byte (c : ascii) (s : string) : nat :=
  match s with
  | EmptyString => 0
  | String c' t => (if Ascii.eqb c' c then 1 else 0) + count_byte c t
  end.

(** The depth a line is printed at, less the length of the path of its
    directory, is what it was when [writeTree] was called with [depth] on
    the directory at [path]. *)
Definition depth_offset (path : list string) (depth : Z) (l : tree_line) : Prop :=
  (tl_depth l - Z.of_nat (length (tl_dir l)) = depth - Z.of_nat (length path))%Z.

(** The entries the tree renderer prints below [d], which lies at [path]
    and whose entries are at [depth], in the order of the listings. *)
Fixpoint shown (config : Config) (d : node) (path : list string) (depth : Z)
  : list (list string * node) :=
  if (maxDepth config >=? 0)%Z && (depth >? maxDepth config)%Z then []
  else
    match d with
    | Dir _ entries None =>
      flat_map (λ e, if keep_in_tree config e
                     then (path ++ [Name e], e)
                            :: shown config e (path ++ [Name e]) (depth + 1)%Z
                     else [])
               entries
    | _ => []
    end.

(** No directory holds two entries of the same name. *)
Fixpoint unique_names (d : node) : bool :=
  match d with
  | Dir _ entries _ =>
    bool_decide (NoDup (map Name entries)) && forallb unique_names entries
  | _ => true
  end.

(** A name a directory entry can have. *)
Definition valid_name (s : string) : bool :=
  negb (str_empty s) && negb (Contains s "/").

(** The same file with other bytes in it. *)
Definition with_bytes (data : FileData) (bytes : string) : FileData :=
  {| fd_size := fd_size data; fd_info := fd_info data; fd_open := fd_open data;
     fd_read := fd_read data; fd_bytes := bytes; fd_readfile := fd_readfile data |}.

(** ** Counting the whole tree *)

Definition sumZ (l : list Z) : Z := foldr Z.add 0%Z l.

(** All entries that are not directories, at any depth, the root included. *)
Fixpoint total_files (d : node) : Z :=
  match d with
  | Dir _ entries _ => sumZ (map total_files entries)
  | _ => 1%Z
  end.

(** All directories, at any depth, the root included. *)
Fixpoint total_dirs (d : node) : Z :=
  match d with
  | Dir _ entries _ => (1 + sumZ (map total_dirs entries))%Z
  | _ => 0%Z
  end.

(** ** The content renderer: which entries it renders *)

(** The function of the content walk gets as far as [d.Info()] on the
    entry [d] at [path]: the entry is within the depth limit, is not a
    directory, is not ignored and is not hidden. *)
Definition filtered_in (config : Config) (path : list string) (d : node) : bool :=
  negb ((maxDepth config >=? 0)%Z
        && (Z.of_nat (length (Split (Rel path) "/")) - 1 >? maxDepth config)%Z)
  && negb (IsDir d)
  && negb (shouldIgnore (Name d) config)
  && negb (negb (showHidden config) && HasPrefix (Name d) ".").

(** The path a section is headed with. *)
Definition display_path (path : list string) (d : node) : string :=
  if bool_decide (Rel path = ".") then Name d else Rel path.

(** A section that holds a note in place of the content. *)
Definition placeholder (relPath note : string) : string :=
  "### 📄 " +:+ relPath +:+ LF +:+ LF +:+ "*" +:+ note +:+ "*" +:+ LF +:+ LF.

(** ** Fenced code blocks of Markdown

    The block structure of a document as far as fences go (CommonMark):
    a line is an opening fence when, after at most three spaces, it starts
    with three or more backticks or tildes (a backtick fence has no backtick
    in the rest of the line); the block ends at the first line that, after
    at most three spaces, has at least as many of the same character and
    nothing else but blanks. *)

Module Markdown.

Definition CR : ascii := "013"%char.
Definition NL : ascii := "010"%char.

(** Put [c] in front of the first line. *)
Definition cons_head (c : ascii) (ls : list string) : list string :=
  match ls with
  | l :: ls' => String c l :: ls'
  | [] => [String c ""]
  end.

(** The lines of a text; they end at LF, CR or CR LF.  [after_cr]: the
    byte before was a CR, so that an LF now belongs to the same line
    end. *)
Fixpoint lines_from (after_cr : bool) (s : string) : list string :=
  match s with
  | EmptyString => [""]
  | String c t =>
    if Ascii.eqb c NL then
      if after_cr then lines_from false t else "" :: lines_from false t
    else if Ascii.eqb c CR then "" :: lines_from true t
    else cons_head c (lines_from false t)
  end.

Definition lines (s : string) : list string := lines_from false s.

(** Drop up to [n] leading spaces. *)
Fixpoint strip_indent (n : nat) (s : string) : string :=
  match n, s with
  | S n', String " " t => strip_indent n' t
  | _, _ => s
  end.

(** The length of the run of [c] at the head of [s], and what follows. *)
Fixpoint run (c : ascii) (s : string) : nat * string :=
  match s with
  | String c' t =>
    if Ascii.eqb c' c then let '(n, rest) := run c t in (S n, rest)
    else (0, s)
  | EmptyString => (0, s)
  end.

Fixpoint has_char (c : ascii) (s : string) : bool :=
  match s with
  | EmptyString => false
  | String c' t => Ascii.eqb c' c || has_char c t
  end.

Fixpoint all_blank (s : string) : bool :=
  match s with
  | EmptyString => true
  | String c t => (Ascii.eqb c " " || Ascii.eqb c "009") && all_blank t
  end.

Definition backtick : ascii := "`"%char.
Definition tilde : ascii := "~"%char.

(** The fence a line opens, if any: its character and its length. *)
Definition opening (line : string) : option (ascii * nat) :=
  let s := strip_indent 3 line in
  let '(n, rest) := run backtick s in
  if (3 <=? n)%nat then
    if has_char backtick rest then None else Some (backtick, n)
  else
    let '(n, _) := run tilde s in
    if (3 <=? n)%nat then Some (tilde, n) else None.

(** Does the line close a fence of [n] characters [c]?  It is itself a
    fence (three characters or more) of at least that length. *)
Definition closes (c : ascii) (n : nat) (line : string) : bool :=
  let '(m, rest) := run c (strip_indent 3 line) in
  (3 <=? m)%nat && (n <=? m)%nat && all_blank rest.

Inductive state : Type :=
  | Outside
  | Inside (c : ascii) (n : nat).

Definition step (st : state) (line : string) : state :=
  match st with
  | Outside =>
    match opening line with
    | Some (c, n) => Inside c n
    | None => Outside
    end
  | Inside c n => if closes c n line then Outside else st
  end.

Definition scan (st : state) (ls : list string) : state :=
  fold_left step ls st.

(** The state after the text [s], read from the state [st]. *)
Definition scan_text (st : state) (s : string) : state := scan st (lines s).

(** The text [t], wherever it stands in a document, takes the state [st]
    at its start to the state [st'] at its end. *)
Definition runs (st : state) (t : string) (st' : state) : Prop :=
  ∀ rest, scan_text st (t +:+ rest) = scan_text st' rest.

(** Every fenced block that is opened is closed: the document does not
    end inside one. *)
Definition well_formed (doc : string) : Prop :=
  scan Outside (lines doc) = Outside.

(** The string holds no line end. *)
Fixpoint single_line (s : string) : bool :=
  match s with
  | EmptyString => true
  | String c t => negb (Ascii.eqb c NL) && negb (Ascii.eqb c CR) && single_line t
  end.

(** The line starts with a byte that is neither a space nor a fence
    character, or is empty: it is no fence. *)
Definition plain_start (line : string) : bool :=
  match line with
  | EmptyString => true
  | String c _ =>
    negb (Ascii.eqb c " ") && negb (Ascii.eqb c backtick) && negb (Ascii.eqb c tilde)
  end.

(** A language tag that can follow the backticks of an opening fence. *)
Definition tag_ok (lang : string) : bool :=
  single_line lang && negb (has_char backtick lang).

(** No line of [content] would close a fence of three backticks. *)
Definition fence_free (content : string) : bool :=
  forallb (fun l => negb (closes backtick 3 l)) (lines content).

End Markdown.

(** ** Trees whose text cannot interfere with the fences *)

(** The indentation of a line of the tree: empty, or starting with four
    spaces or with a vertical bar. *)
Definition tree_prefix (p : string) : bool :=
  str_empty p || HasPrefix p "    " || HasPrefix p "│".

(** A line of the tree that stays inside the block it is printed in. *)
Definition line_ok (l : tree_line) : Prop :=
  tree_prefix (tl_prefix l) = true
  ∧ Markdown.single_line (tl_prefix l) = true
  ∧ Markdown.single_line (Name (tl_entry l)) = true.

(** The content walk renders the entry (at any depth): it is not a
    directory, not ignored and not hidden. *)
Definition candidate (config : Config) (d : node) : bool :=
  negb (IsDir d)
  && negb (shouldIgnore (Name d) config)
  && negb (negb (showHidden config) && HasPrefix (Name d) ".").

(** The text a file contributes to a section of the document is harmless:
    where its bytes are embedded they hold no line that closes the fence,
    and where an error is reported its message is one line. *)
Definition harmless_file (data : FileData) : bool :=
  match fd_info data with
  | Some _ => true
  | None =>
    if (fd_size data >? 1024 * 1024)%Z then true
    else if negb (isTextFile (File "" data) "") then true
    else match fd_readfile data with
         | Some e => Markdown.single_line (Error e)
         | None => Markdown.fence_free (fd_bytes data)
         end
  end.

(** What the function of the content walk writes for an entry of the walk,
    after [out]. *)
Definition render (unicode_ToLower : Z → Z) (config : Config) (out : string)
           (pd : list string * node) : string :=
  fst (contentsFunc unicode_ToLower config (targetDir config) pd.1 pd.2 None out).

(** The section of an entry of the content walk cannot interfere with the
    fences: the entry is not the output file, and if it is a file whose
    [Info] succeeds, so that a section is written, its path is one line and
    what it contributes is harmless. *)
Definition section_ok (pd : list string * node) : bool :=
  match pd.2 with
  | File _ data =>
    match fd_info data with
    | Some _ => true
    | None => Markdown.single_line (display_path pd.1 pd.2) && harmless_file data
    end
  | OutputFile _ => false
  | Dir _ _ _ => true
  end.

(** ** Globs without bracket expressions *)

(** A pattern text without the special characters of a glob. *)
Fixpoint literal (s : string) : bool :=
  match s with
  | EmptyString => true
  | String c t =>
    negb (Ascii.eqb c "*") && negb (Ascii.eqb c "?") && negb (Ascii.eqb c "[")
    && negb (Ascii.eqb c "\") && literal t
  end.

(** ** Parts of strings *)

(** [r] is a run of consecutive bytes of [s]. *)
Definition part_of (r s : string) : Prop := ∃ a b, s = a +:+ r +:+ b.

(** ** The filters and the positions, in the words of the specification *)

(** An entry passes the filter of the tree when it is not ignored, is not
    hidden unless hidden entries are asked for, and is a directory unless
    files are asked for. *)
Definition passes (config : Config) (e : node) : bool :=
  negb (shouldIgnore (Name e) config)
  && (showHidden config || negb (HasPrefix (Name e) "."))
  && (includeFiles config || IsDir e).

(** [at_path root path e]: the entry [e] lies at [path] below [root]. *)
Inductive at_path : node → list string → node → Prop :=
  | at_child name entries readdir e :
      e ∈ entries → at_path (Dir name entries readdir) [Name e] e
  | at_below name entries readdir c path e :
      c ∈ entries → at_path c path e →
      at_path (Dir name entries readdir) (Name c :: path) e.

(** [listed config root path e]: the entry [e] lies at [path] below [root],
    and every entry along the path, [e] included, passes the filter. *)
Inductive listed (config : Config) : node → list string → node → Prop :=
  | listed_child name entries readdir e :
      e ∈ entries → passes config e = true →
      listed config (Dir name entries readdir) [Name e] e
  | listed_below name entries readdir c path e :
      c ∈ entries → passes config c = true →
      listed config c path e →
      listed config (Dir name entries readdir) (Name c :: path) e.

(** The content mode is to render the entry [d] at [path]: it is not a
    directory, its own name is not ignored, it is not hidden unless hidden
    entries are asked for, and it lies within the depth limit; the names
    of the directories above it play no part. *)
Definition to_render (config : Config) (path : list string) (d : node) : Prop :=
  IsDir d = false
  ∧ shouldIgnore (Name d) config = false
  ∧ (showHidden config = true ∨ HasPrefix (Name d) "." = false)
  ∧ (maxDepth config < 0 ∨ depth_of path ≤ maxDepth config)%Z.

(** ** What a run needs to succeed *)

(** The tree renderer, called at [depth] on [d], meets nothing it cannot
    list: [d] is a directory that lists, and so is, one level down, every
    directory among its entries that passes the filter; beyond the depth
    limit nothing is asked. *)
Fixpoint tree_listable (config : Config) (d : node) (depth : Z) : bool :=
  if beyond_limit config depth then true
  else
    match d with
    | Dir _ entries None =>
      forallb (λ e, negb (keep_in_tree config e) || negb (IsDir e)
                    || tree_listable config e (depth + 1)%Z)
              entries
    | _ => false
    end.

(** ** The content walk as a whole *)

(** The depth the function of the content walk computes for [path]. *)
Definition currentDepth (path : list string) : Z :=
  (Z.of_nat (length (Split (Rel path) "/")) - 1)%Z.

(** The entries the content walk gets as far as [d.Info()] on, below [d]
    at [path], in the order it meets them: a directory beyond the depth
    limit is skipped, any other directory is gone through, whatever its
    name. *)
Fixpoint walked (config : Config) (d : node) (path : list string)
  : list (list string * node) :=
  match d with
  | Dir _ entries _ =>
    if beyond_limit config (currentDepth path) then []
    else flat_map (λ e, walked config e (path ++ [Name e])) entries
  | _ => if filtered_in config path d then [(path, d)] else []
  end.

(** The content walk meets no directory it cannot list: every directory
    within the depth limit lists, whatever its name. *)
Fixpoint walk_listable (config : Config) (d : node) (path : list string) : bool :=
  match d with
  | Dir _ entries readdir =>
    beyond_limit config (currentDepth path)
    || (bool_decide (readdir = None)
        && forallb (λ e, walk_listable config e (path ++ [Name e])) entries)
  | _ => true
  end.

(** The content walk over [root], started on the output [out], writes for
    the entry [d] at [path], which it meets between the entries [pre] and
    [post], the note [note] in place of the content, and goes on to the
    end without error. *)
Definition leaves_note (unicode_ToLower : Z → Z) (config : Config) (root : node)
           (out : string) (pre : list (list string * node)) (path : list string)
           (d : node) (post : list (list string * node)) (note : string) : Prop :=
  writeFileContents unicode_ToLower root config 0 out
  = (fold_left (render unicode_ToLower config) post
       (fold_left (render unicode_ToLower config) pre out
        +:+ placeholder (display_path path d) note),
     None).

(** The entries met in the listings [rs] of the entries of a directory,
    one after the other, up to the first listing that ends by a failure. *)
Fixpoint until_failure {A} (rs : list (list A * bool)) : list A * bool :=
  match rs with
  | [] => ([], false)
  | (l, true) :: _ => (l, true)
  | (l, false) :: rest =>
    let '(l', failed) := until_failure rest in (l ++ l', failed)
  end.

(** The entries the content walk gets as far as [d.Info()] on before it
    ends, and whether it ends by a failure: the walk ends at the first
    directory within the depth limit that does not list. *)
Fixpoint visited (config : Config) (d : node) (path : list string)
  : list (list string * node) * bool :=
  match d with
  | Dir _ entries readdir =>
    if beyond_limit config (currentDepth path) then ([], false)
    else
      match readdir with
      | Some _ => ([], true)
      | None =>
        until_failure (map (λ e, visited config e (path ++ [Name e])) entries)
      end
  | _ => (if filtered_in config path d then [(path, d)] else [], false)
  end.

(** Every entry below [d] has a name a directory entry can have. *)
Fixpoint valid_tree (d : node) : bool :=
  match d with
  | Dir _ entries _ => forallb (λ e, valid_name (Name e) && valid_tree e) entries
  | _ => true
  end.

(** ** The shape of the tree *)

(** [p] is [prefix] with [k] levels of indentation after it; a level is
    four columns wide: blanks below the last entry of a listing, a bar and
    blanks below any other. *)
Inductive indented (prefix : string) : nat → string → Prop :=
  | indented_O : indented prefix 0 prefix
  | indented_blank k p : indented prefix k p → indented prefix (S k) (p +:+ "    ")
  | indented_bar k p : indented prefix k p → indented prefix (S k) (p +:+ "│   ").

(** The lines of the tree that stand for files, and those for directories. *)
Definition file_lines (lines : list tree_line) : list tree_line :=
  List.filter (λ l, negb (IsDir (tl_entry l))) lines.

Definition dir_lines (lines : list tree_line) : list tree_line :=
  List.filter (λ l, IsDir (tl_entry l)) lines.

(** The line [l'], printed after [l], respects the connector of [l]: when
    [l] is marked as the last entry of its directory, [l'] is the line of an
    entry of another directory. *)
Definition closes_listing (l l' : tree_line) : Prop :=
  tl_last l = true → tl_dir l' ≠ tl_dir l.

(** Every line that is not marked as the last entry of its directory is
    followed, further down, by a line of the same directory. *)
Inductive continued : list tree_line → Prop :=
  | continued_nil : continued []
  | continued_cons l ls :
      (tl_last l = false → Exists (λ l', tl_dir l' = tl_dir l) ls) →
      continued ls → continued (l :: ls).

(** ** The default ignore file *)

(** The patterns the default ignore file holds. *)
Definition default_patterns : list string :=
  [".git"; ".svn"; ".hg"; "node_modules"; "vendor"; "__pycache__";
   ".venv"; "venv"; "build"; "dist"; "out"; "target"; "bin"; "obj";
   ".vscode"; ".idea"; "*.swp"; "*.swo"; "*~"; ".DS_Store";
   "Thumbs.db"; "Desktop.ini"; "*.log"; "logs"; "tmp"; "temp"; "*.tmp";
   "*.temp"; "*.zip"; "*.tar.gz"; "*.rar"; "*.7z"].

(** ** Trimmed ASCII text *)

(** The first byte of [s], if any, is no ASCII white space. *)
Definition head_ok (s : string) : bool :=
  match s with
  | EmptyString => true
  | String c _ => negb (asciiSpace (byte_val c))
  end.

(** The last byte of [s], if any, is no ASCII white space. *)
Definition last_ok (s : string) : bool :=
  match str_last s with
  | None => true
  | Some c => negb (asciiSpace (byte_val c))
  end.

(** ** Concrete inputs *)

(** A regular file that can be read, with the size of its bytes. *)
Definition plain_file (bytes : string) : FileData :=
  {| fd_size := Z.of_nat (str_len bytes); fd_info := None; fd_open := None;
     fd_read := None; fd_bytes := bytes; fd_readfile := None |}.

(** A case table that changes no rune. *)
Definition identity_case : Z → Z := λ r, r.

Definition sample_time : Time :=
  {| year := 2025; month := 1; day := 2; hour := 3; minute := 4; second := 59 |}.

Definition sample_config (content : bool) (depth : Z) : Config :=
  {| includeFiles := true; includeContent := content; outputFile := "README.md";
     ignorePatterns := [".git"; ".DS_Store"; "node_modules"; "*.log"];
     maxDepth := depth; showHidden := false; targetDir := "proj" |}.

Definition sample_env (root : node) : Env :=
  {| env_root := root; env_create := None; env_cwd := "/home/dev";
     env_now := sample_time |}.

(** A project with a Markdown file that holds a fenced block. *)
Definition fenced_notes : node :=
  Dir "proj"
      [File "notes.md" (plain_file ("Usage:" +:+ LF +:+ "```bash" +:+ LF
                                    +:+ "go build" +:+ LF +:+ "```" +:+ LF))]
      None.

(** The same project one level down, where a depth limit of 0 leaves it
    out. *)
Definition fenced_notes_below : node := Dir "top" [fenced_notes] None.

(** A project the output file is written into. *)
Definition holds_output : node :=
  Dir "proj" [File "a.go" (plain_file "package main"); OutputFile "README.md"] None.

(** A project with a file whose name holds a line feed and a fence. *)
Definition fence_in_name : node :=
  Dir "proj" [File ("a" +:+ LF +:+ "```") (plain_file "x"); File "b" (plain_file "y")]
      None.

(** A project three levels deep. *)
Definition sample_tree : node :=
  Dir "proj"
      [Dir ".git" [File "HEAD" (plain_file "ref")] None;
       File "a.go" (plain_file "package main");
       Dir "cmd"
           [File "main.go" (plain_file "package main");
            Dir "util" [File "deep.go" (plain_file "package util")] None]
           None;
       File "debug.log" (plain_file "x");
       File "logo.png" (plain_file (String "137" (String "000" "PNG")))]
      None.

Definition empty_file : FileData := plain_file "".

(** A working directory that holds an ignore file already. *)
Definition initialised : InitState :=
  {| files := {[ ignoreFileName := "build" ]}; stdout := [] |}.

(** A working directory without files, nothing printed yet. *)
Definition fresh : InitState := {| files := ∅; stdout := [] |}.

(** A project in which [init] has been run. *)
Definition with_ignore_file : node :=
  Dir "proj"
      [File ".foldermd.ignore" (plain_file defaultIgnoreContent);
       File "a.go" (plain_file "package main")]
      None.

(** A project whose only entry is the directory of its version control. *)
Definition only_git : node :=
  Dir "proj" [Dir ".git" [File "HEAD" (plain_file "ref: refs/heads/main")] None] None.

(** A project directory that cannot be listed. *)
Definition unreadable_root : node :=
  Dir "proj" [] (Some (ErrOther "open proj: permission denied")).

(** A project with files that are not rendered as text: one above the
    size limit, a picture, one that cannot be opened, one that opens and
    then cannot be read to its end. *)
Definition EACCES : error := ErrOther "permission denied".
Definition EIO : error := ErrOther "input/output error".

Definition huge_file : FileData :=
  {| fd_size := 2 * 1024 * 1024; fd_info := None; fd_open := None; fd_read := None;
     fd_bytes := "ISO"; fd_readfile := None |}.

Definition locked_file : FileData :=
  {| fd_size := 6; fd_info := None;
     fd_open := Some (PathError "open" "proj/secret.txt" EACCES);
     fd_read := None; fd_bytes := "secret";
     fd_readfile := Some (PathError "open" "proj/secret.txt" EACCES) |}.

Definition torn_file : FileData :=
  {| fd_size := 5; fd_info := None; fd_open := None; fd_read := None;
     fd_bytes := "hello";
     fd_readfile := Some (PathError "read" "proj/torn.txt" EIO) |}.

Definition noted_files : node :=
  Dir "proj"
      [File "a.go" (plain_file "package main");
       File "big.iso" huge_file;
       File "logo.png" (plain_file (String "137" (String "000" "PNG")));
       File "secret.txt" locked_file;
       File "torn.txt" torn_file;
       File "z.txt" (plain_file "end")]
      None.

(** A project whose only file cannot be opened. *)
Definition locked_project : node := Dir "proj" [File "secret.txt" locked_file] None.

(** A project with a file of no bytes between two others. *)
Definition with_empty_file : node :=
  Dir "proj"
      [File "a.go" (plain_file "package main");
       File "empty.txt" empty_file;
       File "z.txt" (plain_file "end")]
      None.

(** The values the flags have when none is given. *)
Definition default_flags : Flags :=
  {| flag_files := false; flag_content := false; flag_output := "README.md";
     flag_ignore := ".git,.DS_Store,node_modules,*.log";
     flag_depth := -1; flag_hidden := false |}.

(** A project as the default flags meet it: a file, a hidden directory, a
    directory of build products, and the modules of a package manager. *)
Definition default_project : node :=
  Dir "proj"
      [File "a.go" (plain_file "package main");
       Dir ".github" [File "ci.yml" (plain_file "on: push")] None;
       Dir "build" [] None;
       Dir "node_modules" [File "x.js" (plain_file "exports = 1")] None]
      None.

(** * Properties *)

(** ** Induction on the filesystem tree *)

Lemma node_ind (P : node → Prop) :
  (∀ name data, P (File name data)) →
  (∀ name, P (OutputFile name)) →
  (∀ name entries readdir, Forall P entries → P (Dir name entries readdir)) →
  ∀ d, P d.
Proof.
  intros HF HO HD.
  fix IH 1. intros [name data|name|name entries readdir].
  - apply HF.
  - apply HO.
  - apply HD. induction entries as [|e es IHes]; constructor; [apply IH | exact IHes].
Qed.

(** ** The matcher *)

Lemma hits_claimed name pattern :
  hits name pattern = true ↔ claimed_hit name pattern.
Proof.
  unfold hits, claimed_hit.
  case_bool_decide as Heq; [tauto|].
  destruct (Contains pattern "*") eqn:Hstar.
  - destruct (filepath.Match pattern name) as [matched err]; simpl.
    split; [intros ->; auto | intros [?|[_ ?]]; congruence].
  - split; [discriminate | intros [?|[? _]]; congruence].
Qed.

Lemma shouldIgnore_loop_true name patterns :
  shouldIgnore_loop name patterns = true
  ↔ ∃ pattern, pattern ∈ patterns ∧ pattern_hits name pattern = true.
Proof.
  induction patterns as [|p ps IH]; simpl.
  - split; [discriminate | intros (p & Hp & _); by apply elem_of_nil in Hp].
  - destruct (pattern_hits name p) eqn:Hp.
    + split; [intros _; exists p; split; [left | done] | done].
    + rewrite IH. split.
      * intros (q & Hq & Hhit). exists q. split; [by right | done].
      * intros (q & Hq & Hhit). apply elem_of_cons in Hq as [-> | Hq]; [congruence|].
        by exists q.
Qed.

Lemma shouldIgnore_true name config :
  shouldIgnore name config = true
  ↔ ∃ pattern, pattern ∈ ignorePatterns config
               ∧ claimed_hit name (TrimSpace pattern).
Proof.
  unfold shouldIgnore. rewrite shouldIgnore_loop_true.
  split; intros (p & Hp & Hhit); exists p; (split; [done|]);
    by apply hits_claimed.
Qed.

(** C2, as the code has it: [shouldIgnore] returns true exactly when some
    pattern, once the white space around it is trimmed, equals the name or
    contains the wildcard and matches the name as a glob; the result does
    not depend on the order of the patterns; the empty list ignores
    nothing; and on patterns without surrounding white space the trimming
    changes nothing. *)
Theorem shouldIgnore_union name config :
  (shouldIgnore name config = true
   ↔ ∃ pattern, pattern ∈ ignorePatterns config
                ∧ claimed_hit name (TrimSpace pattern))
  ∧ (∀ config', ignorePatterns config ≡ₚ ignorePatterns config' →
                shouldIgnore name config = shouldIgnore name config')
  ∧ (ignorePatterns config = [] → shouldIgnore name config = false)
  ∧ (Forall (λ pattern, TrimSpace pattern = pattern) (ignorePatterns config) →
     (shouldIgnore name config = true
      ↔ ∃ pattern, pattern ∈ ignorePatterns config ∧ claimed_hit name pattern)).
Proof.
  split; [apply shouldIgnore_true|]. split; [|split].
  - intros config' Hperm.
    apply eq_true_iff_eq. rewrite !shouldIgnore_true.
    split; intros (p & Hp & Hhit); exists p; (split; [|done]).
    + by rewrite <- Hperm.
    + by rewrite Hperm.
  - unfold shouldIgnore. by intros ->.
  - intros Htrim. rewrite shouldIgnore_true.
    rewrite Forall_forall in Htrim.
    split; intros (p & Hp & Hhit); exists p; (split; [done|]).
    + by rewrite <- (Htrim p Hp).
    + by rewrite (Htrim p Hp).
Qed.

Lemma checkRest_false fuel pattern : fst (filepath.checkRest fuel pattern) = false.
Proof.
  revert pattern. induction fuel as [|fuel IH]; intros pattern; simpl; [done|].
  destruct (str_empty pattern); [done|].
  destruct (filepath.scanChunk pattern) as [[star chunk] rest].
  destruct (filepath.matchChunk chunk "") as [[t ok] [e|]]; [done|apply IH].
Qed.

Lemma Match_go_error fuel pattern name e :
  snd (filepath.Match_go fuel pattern name) = Some e →
  fst (filepath.Match_go fuel pattern name) = false.
Proof.
  revert pattern name. induction fuel as [|fuel IH]; intros pattern name; [done|].
  cbn -[filepath.checkRest filepath.matchChunk filepath.scanChunk filepath.starLoop].
  destruct (str_empty pattern); [done|].
  destruct (filepath.scanChunk pattern) as [[star chunk] rest].
  destruct (star && str_empty chunk); [done|].
  destruct (filepath.matchChunk chunk name) as [[t ok] err].
  destruct (ok && (str_empty t || negb (str_empty rest))); [apply IH|].
  destruct err as [e'|]; [done|].
  destruct star; [|intros _; apply checkRest_false].
  destruct (filepath.starLoop chunk (str_empty rest) name) as [t'|e'|];
    [apply IH | done | intros _; apply checkRest_false].
Qed.

(** [filepath.Match] never reports a match together with an error. *)
Lemma Match_error pattern name e :
  snd (filepath.Match pattern name) = Some e →
  fst (filepath.Match pattern name) = false.
Proof. apply Match_go_error. Qed.

(** C10: when [filepath.Match] reports an error for the pattern of an
    iteration (the pattern as the loop holds it, trimmed) against a name,
    the glob branch does not match, no error leaves [shouldIgnore], and the
    pattern ignores the name exactly when it equals it. *)
Theorem malformed_glob_only_equality name pattern e :
  Contains pattern "*" = true →
  snd (filepath.Match pattern name) = Some e →
  fst (filepath.Match pattern name) = false
  ∧ (hits name pattern = true ↔ pattern = name)
  ∧ (∀ config, ignorePatterns config = [pattern] → TrimSpace pattern = pattern →
               (shouldIgnore name config = true ↔ pattern = name)).
Proof.
  intros Hstar Herr.
  pose proof (Match_error _ _ _ Herr) as Hno.
  assert (Hhits : hits name pattern = true ↔ pattern = name).
  { rewrite hits_claimed. unfold claimed_hit.
    split; [intros [?|[_ ?]]; [done|congruence] | auto]. }
  split; [done|]. split; [done|].
  intros config Hps Htrim. unfold shouldIgnore. rewrite Hps. simpl.
  unfold pattern_hits. rewrite Htrim.
  destruct (hits name pattern) eqn:Hh; [tauto|].
  split; [discriminate | intros ?; by apply Hhits].
Qed.

(** ** Strings *)

Lemma app_cons_s (x : ascii) (a b : string) : String x a +:+ b = String x (a +:+ b).
Proof. done. Qed.

Lemma app_nil_l_s (a : string) : "" +:+ a = a.
Proof. done. Qed.

Lemma app_assoc_s (a b c : string) : (a +:+ b) +:+ c = a +:+ (b +:+ c).
Proof. induction a as [|x a IH]; [done|]. by rewrite !app_cons_s, IH. Qed.

Lemma app_nil_r_s (a : string) : a +:+ "" = a.
Proof. induction a as [|x a IH]; [done|]. by rewrite app_cons_s, IH. Qed.

Lemma str_take_get n s i : i < n → String.get i (str_take n s) = String.get i s.
Proof.
  revert s i. induction n as [|n IH]; intros [|c s] i Hi; simpl; try done; [lia|].
  destruct i as [|i]; [done|]. apply IH. lia.
Qed.

(** ** The classifier *)

Lemma no_null_byte_false buffer i :
  String.get i buffer = Some "000"%char →
  no_null_byte buffer (str_len buffer) = false.
Proof.
  revert i. induction buffer as [|c t IH]; intros i; simpl; [done|].
  destruct i as [|i].
  - intros [= ->]. done.
  - intros Hi. destruct (byte_val c =? 0)%Z; [done|]. by eapply IH.
Qed.

Lemma isTextFile_null name data out i :
  i < 512 → String.get i (fd_bytes data) = Some "000"%char →
  isTextFile (File name data) out = false.
Proof.
  intros Hi Hget. unfold isTextFile, open_and_read, Read.
  destruct (fd_open data); [done|].
  destruct (fd_read data); [done|].
  destruct (str_empty (fd_bytes data)) eqn:He; [done|].
  cbn [bool_decide]. rewrite bool_decide_eq_false_2 by naive_solver.
  cbn [andb]. eapply no_null_byte_false. by rewrite str_take_get.
Qed.

(** C5: [isTextFile] looks at no byte beyond the first 512; a zero byte
    among those makes the file binary, whatever its name; a file that
    cannot be opened or read is not text. *)
Theorem isTextFile_sniffs_512 name data out :
  (∀ bytes, str_take 512 bytes = str_take 512 (fd_bytes data) →
            isTextFile (File name (with_bytes data bytes)) out
            = isTextFile (File name data) out)
  ∧ (∀ i, i < 512 → String.get i (fd_bytes data) = Some "000"%char →
          isTextFile (File name data) out = false)
  ∧ (∀ name', isTextFile (File name' data) out = isTextFile (File name data) out)
  ∧ (fd_open data ≠ None → isTextFile (File name data) out = false)
  ∧ (fd_read data ≠ None → isTextFile (File name data) out = false).
Proof.
  split; [|split; [|split; [|split]]].
  - intros bytes Htake. unfold isTextFile, open_and_read, Read, with_bytes.
    cbn [fd_open fd_read fd_bytes].
    destruct (fd_open data); [done|]. destruct (fd_read data); [done|].
    assert (str_empty bytes = str_empty (fd_bytes data)) as ->.
    { destruct bytes, (fd_bytes data); done. }
    rewrite Htake. reflexivity.
  - intros i. apply isTextFile_null.
  - intros name'. reflexivity.
  - intros Ho. unfold isTextFile, open_and_read. by destruct (fd_open data).
  - intros Hr. unfold isTextFile, open_and_read, Read.
    destruct (fd_open data); [done|]. by destruct (fd_read data).
Qed.

Lemma isTextFile_empty name data out :
  fd_bytes data = "" → isTextFile (File name data) out = false.
Proof.
  intros Hb. unfold isTextFile, open_and_read, Read. rewrite Hb.
  destruct (fd_open data); [done|]. by destruct (fd_read data).
Qed.

(** ** The init subcommand *)

(** C8: when [.foldermd.ignore] exists, [createIgnoreFile] returns an
    error, the process exits with status 1, and nothing is written: the
    files of the directory, the existing ignore file among them, and the
    standard output are as before. *)
Theorem init_keeps_existing_file werr st content :
  files st !! ignoreFileName = Some content →
  createIgnoreFile werr st
    = (st, Some (ErrOther "file .foldermd.ignore already exists"))
  ∧ run_init werr st = (st, 1%Z)
  ∧ files (fst (run_init werr st)) !! ignoreFileName = Some content.
Proof.
  intros Hex.
  assert (createIgnoreFile werr st
          = (st, Some (ErrOther "file .foldermd.ignore already exists"))) as Hc.
  { unfold createIgnoreFile. by rewrite Hex. }
  split; [done|]. unfold run_init. rewrite Hc. done.
Qed.

(** ** The content renderer *)

Section ContentRenderer.

Variable unicode_ToLower : Z → Z.

Local Abbreviation cfun := (contentsFunc unicode_ToLower).

(** Past the filters, the function of the walk is a case analysis on the
    size, the classification and the result of reading the file. *)
Lemma contentsFunc_filtered_in config dir path d out :
  filtered_in config path d = true →
  cfun config dir path d None out =
  let relPath := display_path path d in
  match Info d out with
  | (_, Some _) => (out, None)
  | (size, None) =>
    if (size >? 1024 * 1024)%Z then
      (out +:+ placeholder relPath
           ("File too large to display (" +:+ formatFileSize size +:+ ")"), None)
    else if negb (isTextFile d out) then
      (out +:+ placeholder relPath ("Binary file (" +:+ formatFileSize size +:+ ")"),
       None)
    else
      match ReadFile d out with
      | inr e =>
        (out +:+ placeholder relPath ("Error reading file: " +:+ Error e), None)
      | inl content =>
        let lang := getLanguageFromExtension (ToLower unicode_ToLower (Ext (walk_path dir path))) in
        (out +:+ header relPath
             +:+ "*Size: " +:+ formatFileSize size
             +:+ " | Language: " +:+ lang +:+ "*" +:+ LF +:+ LF
             +:+ "```" +:+ lang +:+ LF +:+ content +:+ LF +:+ "```"
             +:+ LF +:+ LF, None)
      end
  end.
Proof.
  unfold filtered_in, contentsFunc, display_path.
  intros Hf. repeat (apply andb_prop in Hf as [Hf ?]).
  apply negb_true_iff in Hf as ->.
  repeat match goal with H : negb _ = true |- _ => apply negb_true_iff in H end.
  match goal with H : IsDir d = false |- _ => rewrite H end.
  match goal with H : shouldIgnore _ _ = false |- _ => rewrite H end.
  match goal with H : negb (showHidden _) && _ = false |- _ => rewrite H end.
  cbn [orb]. cbv zeta.
  destruct (Info d out) as [size [e|]]; [done|].
  destruct (size >? 1024 * 1024)%Z.
  { unfold placeholder, header. by rewrite !app_assoc_s. }
  destruct (negb (isTextFile d out)).
  { unfold placeholder, header. by rewrite !app_assoc_s. }
  destruct (ReadFile d out) as [content|e]; [done|].
  unfold placeholder, header. by rewrite !app_assoc_s.
Qed.

End ContentRenderer.

(** ** The statistics *)

Lemma walk_entries_count (calls : list (Z * Z → Z * Z * option walk_error))
      (fs ds : list Z) fileCount dirCount :
  Forall2 (λ call '(f, k), ∀ a b, call (a, b) = ((a + f, b + k)%Z, None))
          calls (zip fs ds) →
  length fs = length ds →
  walk_entries calls (fileCount, dirCount)
  = ((fileCount + sumZ fs, dirCount + sumZ ds)%Z, None).
Proof.
  revert fs ds fileCount dirCount.
  induction calls as [|call calls IH]; intros fs ds a b Hall Hlen.
  - destruct fs, ds; simplify_eq/=; [|by apply Forall2_nil_cons_inv in Hall].
    by rewrite !Z.add_0_r.
  - destruct fs as [|f fs], ds as [|k ds]; simplify_eq/=;
      try by apply Forall2_cons_nil_inv in Hall.
    apply Forall2_cons_1 in Hall as [Hcall Hall].
    rewrite Hcall. rewrite (IH fs ds) by done.
    do 2 f_equal; lia.
Qed.

Lemma walkDir_count d :
  ∀ path fileCount dirCount,
    walkDir countFunc path d (fileCount, dirCount)
    = ((fileCount + total_files d, dirCount + total_dirs d)%Z, None).
Proof.
  induction d as [name data|name|name entries readdir IH] using node_ind;
    intros path a b.
  - cbn. by rewrite Z.add_0_r.
  - cbn. by rewrite Z.add_0_r.
  - assert (Forall2 (λ call '(f, k), ∀ a b, call (a, b) = ((a + f, b + k)%Z, None))
                    (map (λ d1, walkDir countFunc (path ++ [Name d1]) d1) entries)
                    (zip (map total_files entries) (map total_dirs entries))) as Hcalls.
    { induction IH as [|e es He _ IHes]; [constructor|].
      cbn. constructor; [|exact IHes]. intros x y. apply He. }
    destruct readdir as [e|];
      cbn [walkDir countFunc IsDir total_files total_dirs];
      rewrite (walk_entries_count _ (map total_files entries) (map total_dirs entries))
        by (done || by rewrite !length_map);
      do 2 f_equal; lia.
Qed.

Lemma countEntries_total root :
  countEntries root = (total_files root, total_dirs root).
Proof.
  unfold countEntries, WalkDir. by rewrite walkDir_count.
Qed.

(** C7: the statistics come from one walk of the whole tree on which no
    configuration bears: the files reported are all the entries that are
    not directories, at any depth, and the directories reported are all
    the directories below the root, the root itself left out. *)
Theorem statistics_count_whole_tree name entries readdir dir :
  countEntries (Dir name entries readdir)
  = (sumZ (map total_files entries), (1 + sumZ (map total_dirs entries))%Z)
  ∧ writeProjectInfo (Dir name entries readdir) dir
    = "## 📊 Project Overview" +:+ LF +:+ LF
      +:+ "- **Total Files:** " +:+ fmt_d (sumZ (map total_files entries)) +:+ LF
      +:+ "- **Total Directories:** " +:+ fmt_d (sumZ (map total_dirs entries)) +:+ LF
      +:+ "- **Project Root:** `" +:+ dir +:+ "`" +:+ LF +:+ LF.
Proof.
  assert (countEntries (Dir name entries readdir)
          = (sumZ (map total_files entries), (1 + sumZ (map total_dirs entries))%Z))
    as Hc by apply countEntries_total.
  split; [done|]. unfold writeProjectInfo. rewrite Hc.
  by replace (1 + sumZ (map total_dirs entries) - 1)%Z
    with (sumZ (map total_dirs entries)) by lia.
Qed.

(** ** sort.Slice *)

Section SortSlice.

Context {A : Type} (lt : A → A → bool).

(** [lt] is a strict weak order. *)
Hypothesis lt_asym : ∀ a b, lt a b = true → lt b a = false.
Hypothesis lt_negtrans : ∀ a b c, lt a b = false → lt b c = false → lt a c = false.

Local Abbreviation not_after := (not_after lt).

Lemma insert_back_perm x rp : insert_back lt x rp ≡ₚ x :: rp.
Proof.
  induction rp as [|y rp IH]; simpl; [done|].
  destruct (lt x y); [|done]. rewrite IH. apply Permutation_swap.
Qed.

Lemma fold_insert_perm l rp :
  fold_left (λ rp x, insert_back lt x rp) l rp ≡ₚ l ++ rp.
Proof.
  revert rp. induction l as [|x l IH]; intros rp; simpl; [done|].
  rewrite IH, insert_back_perm. by rewrite Permutation_middle.
Qed.

Lemma sortSlice_perm l : sortSlice lt l ≡ₚ l.
Proof.
  unfold sortSlice. rewrite <- Permutation_rev, fold_insert_perm.
  by rewrite app_nil_r.
Qed.

(** The sorted prefix, last element first, descends. *)
Lemma insert_back_sorted x rp :
  StronglySorted (flip not_after) rp →
  StronglySorted (flip not_after) (insert_back lt x rp).
Proof.
  induction rp as [|y rp IH]; intros Hs; simpl.
  - repeat constructor.
  - apply StronglySorted_inv in Hs as [Hs Hy].
    destruct (lt x y) eqn:Hxy.
    + constructor; [by apply IH|].
      rewrite insert_back_perm. constructor; [|done].
      unfold flip, not_after. by apply lt_asym.
    + constructor; [by constructor|].
      constructor; [done|].
      eapply Forall_impl; [exact Hy|]. intros z Hz.
      unfold flip, not_after in *. by eapply lt_negtrans.
Qed.

Lemma fold_insert_sorted l rp :
  StronglySorted (flip not_after) rp →
  StronglySorted (flip not_after) (fold_left (λ rp x, insert_back lt x rp) l rp).
Proof.
  revert rp. induction l as [|x l IH]; intros rp Hs; simpl; [done|].
  by apply IH, insert_back_sorted.
Qed.

Lemma StronglySorted_rev (R : relation A) l :
  StronglySorted (flip R) l → StronglySorted R (rev l).
Proof.
  induction 1 as [|x l Hs IH Hx]; simpl; [constructor|].
  apply StronglySorted_app. split; [|split; [done|repeat constructor]].
  intros a b Ha Hb. apply list_elem_of_singleton in Hb as ->.
  rewrite Forall_forall in Hx. apply Hx.
  apply list_elem_of_In. apply in_rev. by apply list_elem_of_In.
Qed.

Lemma sortSlice_sorted l : StronglySorted not_after (sortSlice lt l).
Proof.
  unfold sortSlice. apply StronglySorted_rev, fold_insert_sorted. constructor.
Qed.

Lemma Sorted_app_suffix (R : relation A) l1 l2 : Sorted R (l1 ++ l2) → Sorted R l2.
Proof.
  induction l1 as [|x l1 IH]; simpl; [done|].
  intros Hs. apply Sorted_inv in Hs as [Hs _]. by apply IH.
Qed.

(** A sorted slice is left as it is. *)
Lemma fold_insert_sorted_id l rp :
  Sorted not_after (rev rp ++ l) →
  fold_left (λ rp x, insert_back lt x rp) l rp = rev l ++ rp.
Proof.
  revert rp. induction l as [|x l IH]; intros rp Hs; simpl; [done|].
  assert (insert_back lt x rp = x :: rp) as ->.
  { destruct rp as [|y rp]; [done|]. simpl.
    assert (lt x y = false) as ->; [|done].
    simpl in Hs. rewrite <- app_assoc in Hs. simpl in Hs.
    apply Sorted_app_suffix in Hs. apply Sorted_inv in Hs as [_ Hh].
    by apply HdRel_inv in Hh. }
  rewrite IH; [by rewrite <- app_assoc|].
  simpl. by rewrite <- app_assoc.
Qed.

Lemma sortSlice_id l : Sorted not_after l → sortSlice lt l = l.
Proof.
  intros Hs. unfold sortSlice. rewrite fold_insert_sorted_id by done.
  by rewrite app_nil_r, rev_involutive.
Qed.

Lemma sortSlice_idemp l : sortSlice lt (sortSlice lt l) = sortSlice lt l.
Proof. apply sortSlice_id, StronglySorted_Sorted, sortSlice_sorted. Qed.

(** Any sorted permutation is the result of the sort, when no two
    elements tie. *)
Lemma sortSlice_unique l l' :
  (∀ a b, a ∈ l → b ∈ l → lt a b = false → lt b a = false → a = b) →
  l' ≡ₚ l → StronglySorted not_after l' → l' = sortSlice lt l.
Proof.
  intros Htie Hperm Hs.
  apply (StronglySorted_unique_strong not_after); [|done|apply sortSlice_sorted|].
  - intros a b Ha Hb Hab Hba. apply Htie; [by rewrite <- Hperm| |done..].
    by rewrite <- (sortSlice_perm l).
  - by rewrite sortSlice_perm.
Qed.

Lemma sortSlice_perm_invariant l l' :
  (∀ a b, a ∈ l → b ∈ l → lt a b = false → lt b a = false → a = b) →
  l' ≡ₚ l → sortSlice lt l' = sortSlice lt l.
Proof.
  intros Htie Hperm. apply sortSlice_unique; [done| |apply sortSlice_sorted].
  by rewrite sortSlice_perm.
Qed.

End SortSlice.

(** Sorting pairs by their first component sorts the first components. *)
Lemma insert_back_fst {A B} (lt : A → A → bool) (x : A * B) rp :
  map fst (insert_back (λ a b, lt (fst a) (fst b)) x rp)
  = insert_back lt (fst x) (map fst rp).
Proof.
  induction rp as [|y rp IH]; simpl; [done|].
  destruct (lt x.1 y.1); simpl; [by rewrite IH|done].
Qed.

(** ** The order of the tree renderer *)

Lemma ltb_bytes s t : String.ltb s t = bytes_lt s t.
Proof.
  unfold String.ltb. revert t.
  induction s as [|a s IH]; intros [|b t]; simpl; try done.
  unfold Ascii.compare, byte_val.
  rewrite <- (N2Z.inj_compare (N_of_ascii a) (N_of_ascii b)).
  destruct (Z.compare_spec (Z.of_N (N_of_ascii a)) (Z.of_N (N_of_ascii b)))
    as [Heq|Hlt|Hgt].
  - rewrite Heq, Z.ltb_irrefl, Z.eqb_refl. apply IH.
  - by rewrite (proj2 (Z.ltb_lt _ _) Hlt).
  - rewrite (proj2 (Z.ltb_ge _ _)) by lia.
    by rewrite (proj2 (Z.eqb_neq _ _)) by lia.
Qed.

Lemma ltb_leb s t : String.ltb s t = negb (String.leb t s).
Proof.
  unfold String.ltb, String.leb. rewrite (String.compare_antisym t s).
  by destruct (String.compare s t).
Qed.

Lemma ltb_irrefl s : String.ltb s s = false.
Proof.
  rewrite ltb_leb. apply negb_false_iff, Is_true_true.
  apply (reflexivity (R := String.le)).
Qed.

Lemma ltb_asym s t : String.ltb s t = true → String.ltb t s = false.
Proof.
  rewrite !ltb_leb, negb_true_iff, negb_false_iff. intros Hts.
  destruct (String.leb_total s t) as [H|H]; [done|congruence].
Qed.

Lemma ltb_negtrans s t u :
  String.ltb s t = false → String.ltb t u = false → String.ltb s u = false.
Proof.
  rewrite !ltb_leb, !negb_false_iff. intros H1%Is_true_true H2%Is_true_true.
  apply Is_true_true. by apply (transitivity (R := String.le) H2 H1).
Qed.

Lemma ltb_trans s t u :
  String.ltb s t = true → String.ltb t u = true → String.ltb s u = true.
Proof.
  intros Hst Htu. destruct (String.ltb s u) eqn:Hsu; [done|].
  pose proof (ltb_asym _ _ Htu) as Hut.
  pose proof (ltb_negtrans _ _ _ Hsu Hut). congruence.
Qed.

Lemma ltb_total s t : String.ltb s t = false → String.ltb t s = false → s = t.
Proof.
  rewrite !ltb_leb, !negb_false_iff. intros. by apply String.leb_antisym.
Qed.

Lemma less_irrefl a : less a a = false.
Proof. unfold less. rewrite eqb_reflx. simpl. apply ltb_irrefl. Qed.

Lemma less_asym a b : less a b = true → less b a = false.
Proof.
  unfold less. destruct (IsDir a), (IsDir b); simpl; try done; apply ltb_asym.
Qed.

Lemma less_negtrans a b c : less a b = false → less b c = false → less a c = false.
Proof.
  unfold less. destruct (IsDir a), (IsDir b), (IsDir c); simpl; try done;
    apply ltb_negtrans.
Qed.

Lemma less_trans a b c : less a b = true → less b c = true → less a c = true.
Proof.
  unfold less. destruct (IsDir a), (IsDir b), (IsDir c); simpl; try done;
    apply ltb_trans.
Qed.

Lemma less_total a b :
  less a b = false → less b a = false → sort_key a = sort_key b.
Proof.
  unfold less, sort_key. destruct (IsDir a), (IsDir b); simpl; try done;
    intros; f_equal; by apply ltb_total.
Qed.

Lemma not_after_in_order a b : not_after less a b ↔ in_order a b.
Proof.
  unfold not_after, in_order, less. rewrite <- ltb_bytes.
  destruct (IsDir a), (IsDir b); simpl; intuition congruence.
Qed.

Lemma StronglySorted_lookup {A} (R : relation A) l i j a b :
  StronglySorted R l → l !! i = Some a → l !! j = Some b → i < j → R a b.
Proof.
  intros Hs. revert i j. induction Hs as [|x l Hs IH Hx]; intros i j Hi Hj Hij; [done|].
  destruct i as [|i], j as [|j]; simplify_eq/=; try lia.
  - rewrite Forall_forall in Hx. apply Hx. by eapply list_elem_of_lookup_2.
  - eapply IH; [done..|lia].
Qed.


(** ** The tree renderer *)

Lemma insert_back_map {A B} (g : A → B) (lt : A → A → bool) (lt' : B → B → bool) x rp :
  (∀ a b, lt' (g a) (g b) = lt a b) →
  insert_back lt' (g x) (map g rp) = map g (insert_back lt x rp).
Proof.
  intros Hg. induction rp as [|y rp IH]; simpl; [done|].
  rewrite Hg. destruct (lt x y); simpl; [by rewrite IH|done].
Qed.

Lemma sortSlice_map {A B} (g : A → B) (lt : A → A → bool) (lt' : B → B → bool) l :
  (∀ a b, lt' (g a) (g b) = lt a b) →
  sortSlice lt' (map g l) = map g (sortSlice lt l).
Proof.
  intros Hg. unfold sortSlice. rewrite map_rev. f_equal.
  change (@nil B) with (map g []).
  generalize (@nil A). induction l as [|x l IH]; intros rp; simpl; [done|].
  by rewrite (insert_back_map g lt lt'), IH.
Qed.

Lemma filter_map_comm {A B} (g : A → B) (P : B → bool) l :
  List.filter P (map g l) = map g (List.filter (λ x, P (g x)) l).
Proof.
  induction l as [|x l IH]; simpl; [done|].
  destruct (P (g x)); simpl; by rewrite IH.
Qed.

(** [writeTree] on a directory that can be listed: the loop runs over the
    filtered entries in sorted order. *)
Lemma writeTree_Dir config name entries path prefix depth :
  writeTree (Dir name entries None) path prefix config depth
  = if beyond_limit config depth then ([], None)
    else writeTree_loop path prefix depth
           (map (recursive_call config path)
                (sortSlice less (List.filter (keep_in_tree config) entries))).
Proof.
  cbn [writeTree]. unfold beyond_limit.
  destruct ((maxDepth config >=? 0)%Z && (depth >? maxDepth config)%Z); [done|].
  f_equal.
  rewrite <- (sortSlice_map (recursive_call config path) less
                            (λ a b, less (fst a) (fst b))) by done.
  f_equal.
  by rewrite <- (filter_map_comm (recursive_call config path)
                                 (λ c, keep_in_tree config (fst c))).
Qed.

Lemma writeTree_not_dir config d path prefix depth lines :
  IsDir d = false →
  writeTree d path prefix config depth = (lines, None) → lines = [].
Proof.
  destruct d; try done; intros _; cbn [writeTree];
    destruct ((maxDepth config >=? 0)%Z && (depth >? maxDepth config)%Z);
    congruence.
Qed.

Lemma shown_not_dir config d path depth : IsDir d = false → shown config d path depth = [].
Proof.
  destruct d; try done; intros _; cbn [shown];
    by destruct ((maxDepth config >=? 0)%Z && (depth >? maxDepth config)%Z).
Qed.

Section TreeLoop.

Variables (config : Config) (path : list string) (depth : Z).

(** What the tree renderer is to print for the entries [ents] of the
    directory at [path]. *)
Local Abbreviation below :=
  (λ e, (path ++ [Name e], e) :: shown config e (path ++ [Name e]) (depth + 1)%Z).

Lemma writeTree_loop_shown ents :
  Forall (λ e, ∀ path prefix depth lines,
              writeTree e path prefix config depth = (lines, None) →
              map tl_pos lines ≡ₚ shown config e path depth) ents →
  ∀ prefix lines,
    writeTree_loop path prefix depth (map (recursive_call config path) ents)
    = (lines, None) →
    map tl_pos lines ≡ₚ flat_map below ents.
Proof.
  induction 1 as [|e ents He _ IH]; intros prefix lines Hloop.
  - by simplify_eq/=.
  - cbn [map writeTree_loop recursive_call] in Hloop.
    set (isLast := bool_decide (map (recursive_call config path) ents = [])) in *.
    destruct (IsDir e) eqn:Hdir.
    + destruct (writeTree e (path ++ [Name e]) (nextPrefix prefix isLast) config
                          (depth + 1)) as [sub [err|]] eqn:Hsub; [done|].
      destruct (writeTree_loop path prefix depth _) as [more err] eqn:Hmore.
      simplify_eq. cbn [map flat_map]. unfold tl_pos at 1. cbn [tl_dir tl_entry].
      rewrite map_app. rewrite (He _ _ _ _ Hsub), (IH _ _ Hmore). done.
    + destruct (writeTree_loop path prefix depth _) as [more err] eqn:Hmore.
      simplify_eq. cbn [map flat_map app]. unfold tl_pos at 1. cbn [tl_dir tl_entry].
      rewrite (shown_not_dir config e) by done.
      rewrite (IH _ _ Hmore). done.
Qed.

End TreeLoop.

Lemma flat_map_filter {A B} (P : A → bool) (f : A → list B) l :
  flat_map f (List.filter P l) = flat_map (λ x, if P x then f x else []) l.
Proof.
  induction l as [|x l IH]; simpl; [done|].
  destruct (P x); simpl; by rewrite IH.
Qed.

Lemma flat_map_perm {A B} (f : A → list B) l l' :
  l ≡ₚ l' → flat_map f l ≡ₚ flat_map f l'.
Proof.
  induction 1 as [|x l l' _ IH|x y l|l1 l2 l3 _ IH1 _ IH2]; simpl.
  - done.
  - by rewrite IH.
  - rewrite !app_assoc. f_equiv. apply Permutation_app_comm.
  - by rewrite IH1.
Qed.

(** On success the lines printed are those of [shown], rearranged. *)
Lemma writeTree_shown config d :
  ∀ path prefix depth lines,
    writeTree d path prefix config depth = (lines, None) →
    map tl_pos lines ≡ₚ shown config d path depth.
Proof.
  induction d as [name data|name|name entries readdir IH] using node_ind;
    intros path prefix depth lines Hw.
  - rewrite shown_not_dir by done.
    by rewrite (writeTree_not_dir config (File name data) _ _ _ _ eq_refl Hw).
  - rewrite shown_not_dir by done.
    by rewrite (writeTree_not_dir config (OutputFile name) _ _ _ _ eq_refl Hw).
  - destruct readdir as [e|].
    { cbn [writeTree shown] in *.
      destruct ((maxDepth config >=? 0)%Z && (depth >? maxDepth config)%Z);
        by simplify_eq. }
    rewrite writeTree_Dir in Hw. cbn [shown]. unfold beyond_limit in Hw.
    destruct ((maxDepth config >=? 0)%Z && (depth >? maxDepth config)%Z);
      [by simplify_eq|].
    assert (Forall (λ e, ∀ path prefix depth lines,
                       writeTree e path prefix config depth = (lines, None) →
                       map tl_pos lines ≡ₚ shown config e path depth)
                   (sortSlice less (List.filter (keep_in_tree config) entries))) as HF.
    { apply Forall_forall. intros e He. rewrite Forall_forall in IH. apply IH.
      rewrite (sortSlice_perm less) in He.
      apply list_elem_of_In, filter_In in He as [He _]. by apply list_elem_of_In. }
    rewrite (writeTree_loop_shown config path depth _ HF _ _ Hw).
    rewrite (flat_map_perm _ _ _ (sortSlice_perm less _)).
    by rewrite flat_map_filter.
Qed.

Lemma visible_nonempty config d q e : visible config d q e → q ≠ [].
Proof. by destruct 1. Qed.

Lemma beyond_limit_spec config depth :
  beyond_limit config depth = true ↔ (0 ≤ maxDepth config < depth)%Z.
Proof.
  unfold beyond_limit. rewrite andb_true_iff, Z.geb_le, Z.gtb_lt. lia.
Qed.

Lemma elem_of_flat_map {A B} (f : A → list B) l y :
  y ∈ flat_map f l ↔ ∃ x, x ∈ l ∧ y ∈ f x.
Proof.
  rewrite list_elem_of_In, in_flat_map.
  split; intros (x & Hx & Hy); exists x; by rewrite ?list_elem_of_In in *.
Qed.

(** The entries of [shown] are the visible entries within the depth limit. *)
Lemma shown_visible config d :
  ∀ path depth p e,
    (p, e) ∈ shown config d path depth
    ↔ ∃ q, p = path ++ q ∧ visible config d q e
           ∧ (maxDepth config < 0
              ∨ depth + Z.of_nat (length q) - 1 ≤ maxDepth config)%Z.
Proof.
  induction d as [name data|name|name entries readdir IH] using node_ind;
    intros path depth p e.
  - rewrite shown_not_dir by done. split; [by intros ?%elem_of_nil|].
    intros (q & _ & Hv & _). inversion Hv.
  - rewrite shown_not_dir by done. split; [by intros ?%elem_of_nil|].
    intros (q & _ & Hv & _). inversion Hv.
  - cbn [shown]. fold (beyond_limit config depth).
    destruct (beyond_limit config depth) eqn:Hlim.
    { apply beyond_limit_spec in Hlim. split; [by intros ?%elem_of_nil|].
      intros (q & _ & Hv & Hd). apply visible_nonempty in Hv.
      destruct q; [done|]. simpl in Hd. lia. }
    assert (¬ (0 ≤ maxDepth config < depth)%Z) as Hok.
    { intros H%beyond_limit_spec. congruence. }
    destruct readdir as [err|].
    { split; [by intros ?%elem_of_nil|]. intros (q & _ & Hv & _). inversion Hv. }
    rewrite elem_of_flat_map. rewrite Forall_forall in IH. split.
    + intros (c & Hc & Hin). destruct (keep_in_tree config c) eqn:Hkeep;
        [|by apply elem_of_nil in Hin].
      apply elem_of_cons in Hin as [[= -> ->]|Hin].
      * exists [Name c]. split; [done|]. split; [by constructor|]. simpl. lia.
      * apply (IH c Hc) in Hin as (q & -> & Hv & Hd).
        exists (Name c :: q). split; [by rewrite <- app_assoc|].
        split; [by econstructor|]. simpl length. lia.
    + intros (q & -> & Hv & Hd). inversion Hv as [? ? ? Hc Hkeep|? ? c q' ? Hc Hkeep Hv'];
        simplify_eq.
      * exists e. split; [done|]. rewrite Hkeep. by left.
      * exists c. split; [done|]. rewrite Hkeep. right.
        apply (IH c Hc). exists q'. split; [by rewrite <- app_assoc|].
        split; [done|]. simpl length in Hd. lia.
Qed.

Lemma unique_names_Dir name entries readdir :
  unique_names (Dir name entries readdir) = true →
  NoDup (map Name entries) ∧ Forall (λ e, unique_names e = true) entries.
Proof.
  cbn [unique_names]. intros [Hnd Hall]%andb_prop.
  split; [by apply bool_decide_eq_true in Hnd|].
  apply Forall_forall. intros e He. rewrite forallb_forall in Hall.
  apply Hall. by apply list_elem_of_In.
Qed.

(** With unique names no entry is shown twice. *)
Lemma shown_NoDup config d :
  unique_names d = true → ∀ path depth, NoDup (shown config d path depth).
Proof.
  induction d as [name data|name|name entries readdir IH] using node_ind;
    intros Hu path depth.
  - rewrite shown_not_dir by done. constructor.
  - rewrite shown_not_dir by done. constructor.
  - apply unique_names_Dir in Hu as [Hnd Hall].
    cbn [shown]. destruct ((maxDepth config >=? 0)%Z && (depth >? maxDepth config)%Z);
      [constructor|].
    destruct readdir; [constructor|].
    induction entries as [|c entries IHes]; [constructor|].
    apply Forall_cons in IH as [IHc IH]. apply Forall_cons in Hall as [Hc Hall].
    apply NoDup_cons in Hnd as [Hfresh Hnd].
    cbn [flat_map]. apply NoDup_app. split; [|split; [|by apply IHes]].
    + destruct (keep_in_tree config c); [|constructor].
      apply NoDup_cons. split; [|by apply IHc].
      intros (q & Hq & Hv & _)%shown_visible.
      apply visible_nonempty in Hv.
      rewrite <- app_assoc in Hq. apply app_inv_head in Hq. by destruct q.
    + intros [p e] Hin1 (c' & Hc' & Hin2)%elem_of_flat_map.
      assert (∀ c0 p0 e0,
                (p0, e0) ∈ (if keep_in_tree config c0
                            then (path ++ [Name c0], c0)
                                   :: shown config c0 (path ++ [Name c0]) (depth + 1)
                            else []) →
                ∃ q, p0 = path ++ Name c0 :: q) as Hpre.
      { intros c0 p0 e0 Hin. destruct (keep_in_tree config c0); [|by apply elem_of_nil in Hin].
        apply elem_of_cons in Hin as [[= -> ->]|Hin]; [by exists []|].
        apply shown_visible in Hin as (q & -> & _). exists q. by rewrite <- app_assoc. }
      apply Hpre in Hin1 as (q1 & ->). apply Hpre in Hin2 as (q2 & Heq).
      apply app_inv_head in Heq. simplify_eq.
      apply Hfresh. apply list_elem_of_fmap. exists c'. done.
Qed.

(** At the limit the renderer does not descend: the lines are those of
    the filtered entries in sorted order. *)
Lemma writeTree_loop_flat config path depth ents :
  beyond_limit config (depth + 1) = true →
  ∀ prefix, ∃ lines,
    writeTree_loop path prefix depth (map (recursive_call config path) ents)
    = (lines, None)
    ∧ map tl_entry lines = ents.
Proof.
  intros Hlim. induction ents as [|e ents IH]; intros prefix.
  - by exists [].
  - destruct (IH prefix) as (more & Hmore & Hents).
    cbn [map writeTree_loop recursive_call].
    assert (∀ pre, writeTree e (path ++ [Name e]) pre config (depth + 1) = ([], None)) as Hsub.
    { intros pre. unfold beyond_limit in Hlim. destruct e; cbn [writeTree]; by rewrite Hlim. }
    rewrite Hsub, Hmore. destruct (IsDir e); eexists; (split; [done|]); cbn; by rewrite Hents.
Qed.

Lemma writeTree_loop_depth config path depth ents :
  Forall (λ e, ∀ path prefix depth lines err,
              writeTree e path prefix config depth = (lines, err) →
              Forall (depth_offset path depth) lines) ents →
  ∀ prefix lines err,
    writeTree_loop path prefix depth (map (recursive_call config path) ents)
    = (lines, err) →
    Forall (depth_offset path depth) lines.
Proof.
  induction 1 as [|e ents He _ IH]; intros prefix lines err Hloop.
  - simplify_eq/=. constructor.
  - cbn [map writeTree_loop recursive_call] in Hloop.
    set (isLast := bool_decide (map (recursive_call config path) ents = [])) in *.
    assert (Forall (depth_offset path depth)
                   (if IsDir e
                    then (writeTree e (path ++ [Name e]) (nextPrefix prefix isLast)
                                    config (depth + 1)).1
                    else [])) as Hsub.
    { destruct (IsDir e); [|constructor].
      destruct (writeTree e _ _ _ _) as [sub err'] eqn:Hs.
      eapply Forall_impl; [by eapply He|].
      intros l. unfold depth_offset. rewrite length_app. simpl. lia. }
    destruct (IsDir e);
      [destruct (writeTree e _ _ _ _) as [sub [err'|]]|];
      [|destruct (writeTree_loop path prefix depth _) as [more err''] eqn:Hmore..];
      simplify_eq; (constructor; [done|]); simpl in Hsub;
      rewrite ?Forall_app; eauto.
Qed.

Lemma writeTree_depth config d :
  ∀ path prefix depth lines err,
    writeTree d path prefix config depth = (lines, err) →
    Forall (depth_offset path depth) lines.
Proof.
  induction d as [name data|name|name entries readdir IH] using node_ind;
    intros path prefix depth lines err Hw.
  - cbn [writeTree] in Hw.
    destruct ((maxDepth config >=? 0)%Z && (depth >? maxDepth config)%Z);
      simplify_eq; constructor.
  - cbn [writeTree] in Hw.
    destruct ((maxDepth config >=? 0)%Z && (depth >? maxDepth config)%Z);
      simplify_eq; constructor.
  - destruct readdir as [e|].
    { cbn [writeTree] in Hw.
      destruct ((maxDepth config >=? 0)%Z && (depth >? maxDepth config)%Z);
        simplify_eq; constructor. }
    rewrite writeTree_Dir in Hw.
    destruct (beyond_limit config depth); [simplify_eq; constructor|].
    eapply writeTree_loop_depth; [|done].
    apply Forall_forall. intros e He. rewrite Forall_forall in IH. apply IH.
    rewrite (sortSlice_perm less) in He.
    apply list_elem_of_In, filter_In in He as [He _]. by apply list_elem_of_In.
Qed.

(** *** The depth the content walk computes *)

Lemma Split_go_length s sep cur : length (Split_go s sep cur) = S (count_byte sep s).
Proof.
  revert cur. induction s as [|c s IH]; intros cur; simpl; [done|].
  destruct (Ascii.eqb c sep); simpl; by rewrite IH.
Qed.

Lemma count_byte_app c s t : count_byte c (s +:+ t) = count_byte c s + count_byte c t.
Proof.
  induction s as [|x s IH]; [done|]. rewrite app_cons_s. simpl. rewrite IH. lia.
Qed.

Lemma Contains_byte_false c s : Contains s (String c "") = false → count_byte c s = 0.
Proof.
  induction s as [|x s IH]; [done|]. cbn [Contains String.prefix count_byte].
  destruct (ascii_dec c x) as [->|Hne].
  - by destruct s.
  - intros Hc. rewrite IH by done.
    destruct (Ascii.eqb_spec x c); [congruence|done].
Qed.

Lemma Join_count path :
  Forall (λ n, valid_name n = true) path →
  count_byte "/" (Join path "/") = length path - 1.
Proof.
  induction 1 as [|n path Hn Hpath IH]; [done|].
  apply andb_prop in Hn as [_ Hn%negb_true_iff]. apply Contains_byte_false in Hn.
  destruct path as [|m path]; [simpl; lia|].
  change (Join (n :: m :: path) "/") with (n +:+ "/" +:+ Join (m :: path) "/").
  rewrite !count_byte_app, Hn, IH. simpl. lia.
Qed.

(** The depth the content walk computes from the relative path is the
    depth of the entry; the root itself counts as depth 0. *)
Lemma walk_depth path :
  Forall (λ n, valid_name n = true) path →
  (Z.of_nat (length (Split (Rel path) "/")) - 1)%Z
  = match path with [] => 0%Z | _ => depth_of path end.
Proof.
  intros Hv. unfold Split. rewrite Split_go_length.
  destruct path as [|n path]; [done|].
  unfold Rel, depth_of. rewrite Join_count by done. simpl length. lia.
Qed.

(** ** Text of one line *)

Import Markdown.

Lemma single_line_app a b : single_line (a +:+ b) = single_line a && single_line b.
Proof.
  induction a as [|c a IH]; [done|]. rewrite app_cons_s. simpl. rewrite IH.
  by rewrite !andb_assoc.
Qed.

Lemma single_line_pretty_N_char x : single_line (String (pretty_N_char x) "") = true.
Proof. unfold pretty_N_char. by repeat case_match. Qed.

Lemma single_line_pretty_N_go x s :
  single_line s = true → single_line (pretty_N_go x s) = true.
Proof.
  revert s. induction (N.lt_wf_0 x) as [x _ IH]; intros s Hs.
  assert (x = 0 ∨ 0 < x)%N as [->|Hpos] by lia; [by rewrite pretty_N_go_0|].
  rewrite pretty_N_go_step by done. apply IH; [by apply N.div_lt|].
  change (String ?c s) with (String c "" +:+ s).
  by rewrite single_line_app, single_line_pretty_N_char.
Qed.

Lemma single_line_pretty_N (x : N) : single_line (pretty x) = true.
Proof.
  unfold pretty, pretty_N. case_decide; [done|]. by apply single_line_pretty_N_go.
Qed.

Lemma single_line_pretty_nat (x : nat) : single_line (pretty x) = true.
Proof. apply single_line_pretty_N. Qed.

Lemma single_line_pretty_Z (x : Z) : single_line (pretty x) = true.
Proof.
  destruct x as [|p|p]; [done|apply single_line_pretty_N|].
  unfold pretty, pretty_Z. rewrite single_line_app.
  change (pretty p) with (pretty (Npos p)). by rewrite single_line_pretty_N.
Qed.

Lemma single_line_fmt_d z : single_line (fmt_d z) = true.
Proof. apply single_line_pretty_Z. Qed.

Lemma single_line_fmt_t b : single_line (fmt_t b) = true.
Proof. by destruct b. Qed.

Lemma single_line_Join elems sep :
  Forall (λ e, single_line e = true) elems → single_line sep = true →
  single_line (Join elems sep) = true.
Proof.
  intros Hall Hsep. induction Hall as [|e elems He _ IH]; [done|].
  destruct elems as [|e' elems]; [done|].
  change (Join (e :: e' :: elems) sep) with (e +:+ sep +:+ Join (e' :: elems) sep).
  by rewrite !single_line_app, He, Hsep, IH.
Qed.

Lemma single_line_strip p : single_line p = true → single_line (strip_trailing_slashes p) = true.
Proof.
  induction p as [|c p IH]; [done|]. simpl.
  intros [Hc Hp]%andb_prop.
  destruct (str_empty (strip_trailing_slashes p) && Ascii.eqb c "/"); [done|].
  simpl. by rewrite Hc, IH.
Qed.

Lemma single_line_last_element p : single_line p = true → single_line (last_element p) = true.
Proof.
  induction p as [|c p IH]; [done|]. intros Hcp.
  cbn [last_element]. destruct (Contains (String c p) "/"); [|done].
  apply IH. simpl in Hcp. by apply andb_prop in Hcp as [_ ?].
Qed.

Lemma single_line_Base p : single_line p = true → single_line (Base p) = true.
Proof.
  intros Hp. unfold Base. destruct (str_empty p); [done|].
  destruct (str_empty _) eqn:He; [done|].
  by apply single_line_last_element, single_line_strip.
Qed.

Lemma single_line_fmt_f1 num den : single_line (fmt_f1 num den) = true.
Proof.
  unfold fmt_f1. by rewrite !single_line_app, !single_line_pretty_Z.
Qed.

Lemma single_line_formatFileSize size : single_line (formatFileSize size) = true.
Proof.
  unfold formatFileSize. destruct (size <? 1024)%Z.
  - by rewrite single_line_app, single_line_fmt_d.
  - destruct (size_loop 6 (size / 1024) 1024 0) as [div exp].
    rewrite !single_line_app, single_line_fmt_f1.
    do 7 (destruct exp as [|exp]; [done|]). done.
Qed.

Lemma single_line_pad2 n : single_line (pad2 n) = true.
Proof.
  unfold pad2. destruct (n <? 10); rewrite ?single_line_app;
    by rewrite single_line_pretty_nat.
Qed.

Lemma single_line_pad4 n : single_line (pad4 n) = true.
Proof.
  unfold pad4. repeat case_match; rewrite ?single_line_app;
    by rewrite single_line_pretty_nat.
Qed.

Lemma single_line_Format t : single_line (Format t) = true.
Proof.
  unfold Format.
  by rewrite !single_line_app, single_line_pad4, !single_line_pad2.
Qed.

Lemma tag_ok_language ext : tag_ok (getLanguageFromExtension ext) = true.
Proof.
  unfold getLanguageFromExtension.
  destruct (languages !! ext) as [lang|] eqn:Hl; [|done].
  unfold languages in Hl. apply elem_of_list_to_map_2 in Hl.
  revert Hl. generalize ext lang.
  match goal with
  | |- ∀ e l, (e, l) ∈ ?L → _ =>
    assert (Forall (λ p, tag_ok (snd p) = true) L) as Hall
  end.
  { repeat (constructor; [reflexivity|]). constructor. }
  intros e l Hin. rewrite Forall_forall in Hall. apply (Hall _ Hin).
Qed.

(** ** Scanning for fences *)

Lemma step_empty st : step st "" = st.
Proof. by destruct st. Qed.

(** Put [pre] in front of the first line. *)
Lemma lines_from_nonempty flag s : lines_from flag s ≠ [].
Proof.
  revert flag. induction s as [|c s IH]; intros flag; [done|]. simpl.
  destruct (Ascii.eqb c NL); [destruct flag; [apply IH|done]|].
  destruct (Ascii.eqb c CR); [done|].
  unfold cons_head. by destruct (lines_from false s).
Qed.

Lemma scan_cons st l ls : scan st (l :: ls) = scan (step st l) ls.
Proof. done. Qed.

(** The lines of [a], a line feed and [b] are scanned as the lines of [a]
    and then the lines of [b]; [pre] is the part of the current line that
    has been read. *)
Lemma scan_lines_from_LF flag a b pre st :
  (flag = true → pre = "") →
  scan st (match lines_from flag (a +:+ LF +:+ b) with
           | l :: ls => (pre +:+ l) :: ls
           | [] => []
           end)
  = scan (scan st (match lines_from flag a with
                   | l :: ls => (pre +:+ l) :: ls
                   | [] => []
                   end)) (lines b).
Proof.
  revert flag pre st. induction a as [|c a IH]; intros flag pre st Hflag.
  - change ("" +:+ LF +:+ b) with (String NL b).
    assert (lines_from flag (String NL b)
            = if flag then lines_from false b else "" :: lines_from false b) as ->
        by reflexivity.
    assert (lines_from flag "" = [""]) as -> by reflexivity.
    destruct flag.
    + rewrite Hflag by done. rewrite app_nil_l_s, scan_cons, step_empty. unfold lines.
      destruct (lines_from false b) eqn:Hb; [by apply lines_from_nonempty in Hb|done].
    + rewrite app_nil_r_s. done.
  - rewrite app_cons_s. cbn [lines_from].
    destruct (Ascii.eqb c NL).
    { destruct flag.
      - apply IH. done.
      - rewrite !app_nil_r_s, !scan_cons.
        specialize (IH false "" (step st pre)).
        destruct (lines_from false (a +:+ LF +:+ b)) eqn:H1;
          [by apply lines_from_nonempty in H1|].
        destruct (lines_from false a) eqn:H2; [by apply lines_from_nonempty in H2|].
        rewrite !app_nil_l_s in IH. by apply IH. }
    destruct (Ascii.eqb c CR).
    { rewrite !app_nil_r_s, !scan_cons.
      specialize (IH true "" (step st pre)).
      destruct (lines_from true (a +:+ LF +:+ b)) eqn:H1;
        [by apply lines_from_nonempty in H1|].
      destruct (lines_from true a) eqn:H2; [by apply lines_from_nonempty in H2|].
      rewrite !app_nil_l_s in IH. by apply IH. }
    specialize (IH false (pre +:+ String c "") st).
    unfold cons_head.
    destruct (lines_from false (a +:+ LF +:+ b)) eqn:H1;
      [by apply lines_from_nonempty in H1|].
    destruct (lines_from false a) eqn:H2; [by apply lines_from_nonempty in H2|].
    rewrite !app_assoc_s in IH. by apply IH.
Qed.

Lemma scan_text_LF st a b :
  scan_text st (a +:+ LF +:+ b) = scan_text (scan_text st a) b.
Proof.
  unfold scan_text, lines.
  pose proof (scan_lines_from_LF false a b "" st) as H.
  destruct (lines_from false (a +:+ LF +:+ b)) eqn:H1;
    [by apply lines_from_nonempty in H1|].
  destruct (lines_from false a) eqn:H2; [by apply lines_from_nonempty in H2|].
  rewrite !app_nil_l_s in H. by apply H.
Qed.

Lemma lines_single a : single_line a = true → lines a = [a].
Proof.
  unfold lines. induction a as [|c a IH]; [done|]. simpl.
  intros [[Hn Hc]%andb_prop Ha]%andb_prop.
  apply negb_true_iff in Hn as ->. apply negb_true_iff in Hc as ->.
  by rewrite IH.
Qed.

Lemma scan_text_single st a : single_line a = true → scan_text st a = step st a.
Proof. intros Ha. unfold scan_text. by rewrite lines_single. Qed.

(** *** Texts that take one state to another *)

Lemma runs_nil st : runs st "" st.
Proof. by intros rest. Qed.

Lemma runs_app st1 st2 st3 t1 t2 :
  runs st1 t1 st2 → runs st2 t2 st3 → runs st1 (t1 +:+ t2) st3.
Proof. intros H1 H2 rest. by rewrite app_assoc_s, H1, H2. Qed.

(** A text followed by a line feed. *)
Lemma runs_text st t : runs st (t +:+ LF) (scan_text st t).
Proof. intros rest. by rewrite app_assoc_s, scan_text_LF. Qed.

(** One line. *)
Lemma runs_line st a : single_line a = true → runs st (a +:+ LF) (step st a).
Proof. intros Ha. rewrite <- (scan_text_single st a Ha). apply runs_text. Qed.

Lemma runs_line_then st a t st' :
  single_line a = true → runs (step st a) t st' → runs st (a +:+ LF +:+ t) st'.
Proof.
  intros Ha Ht. rewrite <- app_assoc_s. eapply runs_app; [by apply runs_line|done].
Qed.

Lemma runs_well_formed doc : runs Outside doc Outside → well_formed doc.
Proof.
  intros H. unfold well_formed. specialize (H ""). by rewrite app_nil_r_s in H.
Qed.

(** A line that starts plainly changes nothing, outside a block or inside
    a block fenced by backticks. *)
Lemma step_plain_outside line : plain_start line = true → step Outside line = Outside.
Proof.
  destruct line as [|c line]; [done|]. cbn [plain_start].
  intros [[Hs Hb]%andb_prop Ht]%andb_prop.
  apply negb_true_iff in Hs, Hb, Ht.
  unfold step, opening.
  assert (strip_indent 3 (String c line) = String c line) as ->.
  { cbn. destruct c as [[] [] [] [] [] [] [] []]; done. }
  cbn [run]. by rewrite Hb, Ht.
Qed.

Lemma closes_plain n line : plain_start line = true → closes backtick n line = false.
Proof.
  destruct line as [|c line]; [done|]. cbn [plain_start].
  intros [[Hs Hb]%andb_prop Ht]%andb_prop.
  apply negb_true_iff in Hs, Hb, Ht.
  unfold closes.
  assert (strip_indent 3 (String c line) = String c line) as ->.
  { cbn. destruct c as [[] [] [] [] [] [] [] []]; done. }
  cbn [run]. by rewrite Hb.
Qed.

Lemma step_plain_inside n line :
  plain_start line = true → step (Inside backtick n) line = Inside backtick n.
Proof. intros H. unfold step. by rewrite closes_plain. Qed.

(** A run of plain lines. *)
Lemma runs_plain_outside a t st' :
  single_line a = true → plain_start a = true →
  runs Outside t st' → runs Outside (a +:+ LF +:+ t) st'.
Proof.
  intros Ha Hp Ht. apply runs_line_then; [done|]. by rewrite step_plain_outside.
Qed.

Lemma runs_plain_inside n a t st' :
  single_line a = true → plain_start a = true →
  runs (Inside backtick n) t st' → runs (Inside backtick n) (a +:+ LF +:+ t) st'.
Proof.
  intros Ha Hp Ht. apply runs_line_then; [done|]. by rewrite step_plain_inside.
Qed.

Lemma run_no_char c s : has_char c s = false → run c s = (0, s).
Proof.
  destruct s as [|c' s]; [done|]. simpl. intros [Hc _]%orb_false_iff. by rewrite Hc.
Qed.

(** The fences the program writes. *)
Lemma opening_tag lang :
  tag_ok lang = true → opening ("```" +:+ lang) = Some (backtick, 3).
Proof.
  unfold tag_ok. intros [_ Hb%negb_true_iff]%andb_prop.
  unfold opening.
  change ("```" +:+ lang) with (String backtick (String backtick (String backtick lang))).
  assert (strip_indent 3 (String backtick (String backtick (String backtick lang)))
          = String backtick (String backtick (String backtick lang))) as -> by reflexivity.
  cbn [run]. rewrite !Ascii.eqb_refl, (run_no_char _ _ Hb). cbn [Nat.leb].
  by rewrite Hb.
Qed.

Lemma runs_open_fence lang t st' :
  tag_ok lang = true →
  runs (Inside backtick 3) t st' → runs Outside ("```" +:+ lang +:+ LF +:+ t) st'.
Proof.
  intros Hl Ht. rewrite <- app_assoc_s. apply runs_line_then.
  - rewrite single_line_app. apply andb_prop in Hl as [-> _]. done.
  - unfold step. by rewrite opening_tag.
Qed.

Lemma runs_close_fence t st' :
  runs Outside t st' → runs (Inside backtick 3) ("```" +:+ LF +:+ t) st'.
Proof. intros Ht. by apply runs_line_then. Qed.

(** Content that holds no closing fence stays inside the block. *)
Lemma scan_fence_free ls :
  forallb (λ l, negb (closes backtick 3 l)) ls = true →
  scan (Inside backtick 3) ls = Inside backtick 3.
Proof.
  induction ls as [|l ls IH]; [done|]. simpl.
  intros [Hl%negb_true_iff Hls]%andb_prop. rewrite Hl. by apply IH.
Qed.

Lemma runs_content content t st' :
  fence_free content = true →
  runs (Inside backtick 3) t st' →
  runs (Inside backtick 3) (content +:+ LF +:+ t) st'.
Proof.
  intros Hc Ht. rewrite <- app_assoc_s. eapply runs_app; [apply runs_text|].
  unfold scan_text. by rewrite scan_fence_free.
Qed.

(** ** The document *)

Create HintDb single discriminated.
#[local] Hint Resolve single_line_fmt_d single_line_fmt_t single_line_formatFileSize
  single_line_Format single_line_Base single_line_Join : single.

(** Solve a goal [single_line (a1 +:+ ... +:+ an) = true]. *)
Ltac single :=
  rewrite ?single_line_app;
  repeat (apply andb_true_intro; split);
  first [ reflexivity | assumption | solve [auto with single] ].

Lemma runs_blank st t st' : runs st t st' → runs st (LF +:+ t) st'.
Proof.
  intros Ht. change (LF +:+ t) with ("" +:+ LF +:+ t).
  apply runs_line_then; [done|]. by rewrite step_empty.
Qed.

Lemma runs_blank_end st : runs st LF st.
Proof.
  change LF with ("" +:+ LF). rewrite <- (step_empty st) at 2. by apply runs_line.
Qed.

Lemma runs_plain_end a : single_line a = true → plain_start a = true →
                         runs Outside (a +:+ LF) Outside.
Proof. intros Ha Hp. rewrite <- (step_plain_outside a Hp) at 2. by apply runs_line. Qed.

Lemma runs_plain2 a1 a2 t st' :
  single_line (a1 +:+ a2) = true → plain_start (a1 +:+ a2) = true →
  runs Outside t st' → runs Outside (a1 +:+ a2 +:+ LF +:+ t) st'.
Proof. rewrite <- app_assoc_s. apply runs_plain_outside. Qed.

Lemma runs_plain3 a1 a2 a3 t st' :
  single_line (a1 +:+ a2 +:+ a3) = true → plain_start (a1 +:+ a2 +:+ a3) = true →
  runs Outside t st' → runs Outside (a1 +:+ a2 +:+ a3 +:+ LF +:+ t) st'.
Proof.
  intros. rewrite <- (app_assoc_s a2), <- (app_assoc_s a1). by apply runs_plain_outside.
Qed.

Lemma runs_plain5 a1 a2 a3 a4 a5 t st' :
  single_line (a1 +:+ a2 +:+ a3 +:+ a4 +:+ a5) = true →
  plain_start (a1 +:+ a2 +:+ a3 +:+ a4 +:+ a5) = true →
  runs Outside t st' →
  runs Outside (a1 +:+ a2 +:+ a3 +:+ a4 +:+ a5 +:+ LF +:+ t) st'.
Proof.
  intros.
  rewrite <- (app_assoc_s a4), <- (app_assoc_s a3), <- (app_assoc_s a2), <- (app_assoc_s a1).
  by apply runs_plain_outside.
Qed.

(** One step through a text written line by line outside any block. *)
Ltac md_line :=
  lazymatch goal with
  | |- runs ?st LF ?st => exact (runs_blank_end st)
  | |- runs ?st (LF +:+ ?t) ?st' => apply (runs_blank st t st')
  | |- runs Outside (?a +:+ LF) Outside =>
    apply (runs_plain_end a); [single | reflexivity]
  | |- runs Outside (?a +:+ LF +:+ ?t) ?st' =>
    apply (runs_plain_outside a t st'); [single | reflexivity | ]
  | |- runs Outside (?a1 +:+ ?a2 +:+ LF +:+ ?t) ?st' =>
    apply (runs_plain2 a1 a2 t st'); [single | reflexivity | ]
  | |- runs Outside (?a1 +:+ ?a2 +:+ ?a3 +:+ LF +:+ ?t) ?st' =>
    apply (runs_plain3 a1 a2 a3 t st'); [single | reflexivity | ]
  | |- runs Outside (?a1 +:+ ?a2 +:+ ?a3 +:+ ?a4 +:+ ?a5 +:+ LF +:+ ?t) ?st' =>
    apply (runs_plain5 a1 a2 a3 a4 a5 t st'); [single | reflexivity | ]
  end.

Lemma runs_header rel : single_line rel = true → runs Outside (header rel) Outside.
Proof. intros Hrel. unfold header. do 2 md_line. Qed.

Lemma runs_placeholder rel note :
  single_line rel = true → single_line note = true →
  runs Outside (placeholder rel note) Outside.
Proof. intros Hrel Hnote. unfold placeholder. do 4 md_line. Qed.

Lemma runs_writeProjectInfo root dir :
  single_line dir = true → runs Outside (writeProjectInfo root dir) Outside.
Proof.
  intros Hdir. unfold writeProjectInfo. destruct (countEntries root) as [f d].
  do 6 md_line.
Qed.

Lemma runs_writeFooter config :
  Forall (λ p, single_line p = true) (ignorePatterns config) →
  runs Outside (writeFooter config) Outside.
Proof.
  intros Hps. unfold writeFooter.
  assert (single_line (Join (ignorePatterns config) ", ") = true) by auto with single.
  do 12 md_line.
Qed.

Lemma runs_preamble config env :
  single_line (targetDir config) = true →
  single_line (projectName config env) = true →
  runs Outside (preamble config env) (Inside backtick 3).
Proof.
  intros Hdir Hname. unfold preamble.
  do 4 md_line.
  eapply runs_app; [by apply runs_writeProjectInfo|].
  do 2 md_line.
  apply (runs_app Outside Outside).
  - destruct (includeFiles config); [|apply runs_nil].
    apply (runs_open_fence ""); [done|].
    apply runs_plain_inside; [done..|].
    apply runs_close_fence. md_line.
  - rewrite <- (app_nil_r_s LF).
    apply (runs_open_fence ""); [done|]. apply runs_nil.
Qed.

(** *** The block of the tree *)

Lemma prefix_app_inv a p : String.prefix a p = true → ∃ r, p = a +:+ r.
Proof.
  revert p. induction a as [|c a IH]; intros p Hp; [by exists p|].
  destruct p as [|c' p]; [done|]. simpl in Hp.
  destruct (ascii_dec c c') as [->|]; [|done].
  destruct (IH p Hp) as [r ->]. by exists r.
Qed.

Lemma prefix_app a r : String.prefix a (a +:+ r) = true.
Proof.
  induction a as [|c a IH]; [by destruct r|].
  rewrite app_cons_s. simpl. by destruct (ascii_dec c c).
Qed.

Lemma tree_prefix_spaces r : tree_prefix ("    " +:+ r) = true.
Proof.
  unfold tree_prefix, HasPrefix. by rewrite (prefix_app "    " r), orb_true_r.
Qed.

Lemma tree_prefix_bar r : tree_prefix ("│" +:+ r) = true.
Proof.
  unfold tree_prefix, HasPrefix. by rewrite (prefix_app "│" r), orb_true_r.
Qed.

Lemma tree_prefix_cases p :
  tree_prefix p = true → p = "" ∨ (∃ r, p = "    " +:+ r) ∨ (∃ r, p = "│" +:+ r).
Proof.
  unfold tree_prefix, HasPrefix.
  intros [[Hp|Hp]%orb_prop|Hp]%orb_prop.
  - left. by destruct p.
  - right; left. by apply prefix_app_inv.
  - right; right. by apply prefix_app_inv.
Qed.

Lemma closes_tree_line p b x :
  tree_prefix p = true → closes backtick 3 (p +:+ connector b +:+ x) = false.
Proof.
  intros [->|[[r ->]|[r ->]]]%tree_prefix_cases.
  - apply closes_plain. by destruct b.
  - by rewrite app_assoc_s.
  - apply closes_plain. by rewrite app_assoc_s.
Qed.

Lemma nextPrefix_ok p b :
  tree_prefix p = true → single_line p = true →
  tree_prefix (nextPrefix p b) = true ∧ single_line (nextPrefix p b) = true.
Proof.
  intros Hp Hs. split.
  - apply tree_prefix_cases in Hp as [->|[[r ->]|[r ->]]];
      destruct b; unfold nextPrefix; rewrite ?app_assoc_s;
      first [apply tree_prefix_spaces | apply tree_prefix_bar | reflexivity].
  - unfold nextPrefix. destruct b; by rewrite single_line_app, Hs.
Qed.

Lemma single_line_decorate config e :
  single_line (Name e) = true → single_line (decorate config e) = true.
Proof.
  intros He. unfold decorate.
  destruct (includeContent config), (IsDir e); rewrite ?single_line_app, ?He; done.
Qed.

Lemma runs_tree_text config lines :
  Forall line_ok lines →
  runs (Inside backtick 3) (tree_text config lines) (Inside backtick 3).
Proof.
  induction 1 as [|l lines (Hp & Hs & Hn) _ IH]; [apply runs_nil|].
  cbn [tree_text foldr]. eapply runs_app; [|exact IH].
  unfold line_text.
  rewrite <- (app_assoc_s (connector _)), <- (app_assoc_s (tl_prefix l)).
  assert (step (Inside backtick 3)
               (tl_prefix l +:+ connector (tl_last l) +:+ decorate config (tl_entry l))
          = Inside backtick 3) as Hstep.
  { unfold step. by rewrite closes_tree_line. }
  rewrite <- Hstep at 2. apply runs_line.
  rewrite !single_line_app, Hs, single_line_decorate by done.
  by destruct (tl_last l).
Qed.

(** *** The whole document *)

Lemma merge_ignore_fields config root :
  targetDir (merge_ignore config root) = targetDir config
  ∧ includeFiles (merge_ignore config root) = includeFiles config
  ∧ includeContent (merge_ignore config root) = includeContent config.
Proof.
  unfold merge_ignore. destruct (stat_in root ignoreFileName) as [d|]; [|done].
  by destruct (readIgnoreFile d "") as [ps [e|]].
Qed.

(** ** The loops of the library models run to their end

    The loops that are not structural take the number of iterations they
    may run as an argument; the number each definition passes is enough:
    with more the result is the same. *)

Lemma str_drop_len n s : str_len (str_drop n s) = str_len s - n.
Proof.
  revert s. induction n as [|n IH]; intros [|c s]; simpl; rewrite ?IH; lia.
Qed.

Lemma str_empty_len s : str_empty s = false → 0 < str_len s.
Proof. destruct s; simpl; [done|lia]. Qed.

Lemma DecodeRune_width s r n :
  str_empty s = false → utf8.DecodeRuneInString s = (r, n) → 1 ≤ n.
Proof.
  destruct s as [|c0 s]; [done|]. intros _. unfold utf8.DecodeRuneInString.
  repeat match goal with
         | |- context [if ?b then _ else _] => destruct b
         | |- context [match ?x with EmptyString => _ | String _ _ => _ end] => destruct x
         end; intros [= <- <-]; lia.
Qed.

Lemma getEsc_shorter chunk r rest :
  filepath.getEsc chunk = Some (r, rest) → str_len rest < str_len chunk.
Proof.
  unfold filepath.getEsc. destruct chunk as [|c t]; [done|].
  destruct (Ascii.eqb c "-" || Ascii.eqb c "]"); [done|].
  set (chunk := if Ascii.eqb c "\" then t else String c t).
  destruct (str_empty chunk) eqn:He; [done|].
  destruct (utf8.DecodeRuneInString chunk) as [r' n] eqn:Hd.
  destruct (_ || _); [done|]. intros [= <- <-].
  pose proof (DecodeRune_width _ _ _ He Hd).
  pose proof (str_empty_len _ He).
  rewrite str_drop_len.
  assert (str_len chunk ≤ str_len (String c t)); [|lia].
  unfold chunk. destruct (Ascii.eqb c "\"); simpl; lia.
Qed.

Lemma parseRanges_fuel fuel fuel' r chunk nrange mtch :
  str_len chunk < fuel → str_len chunk < fuel' →
  filepath.parseRanges fuel r chunk nrange mtch
  = filepath.parseRanges fuel' r chunk nrange mtch.
Proof.
  revert fuel' chunk nrange mtch.
  induction fuel as [|fuel IH]; intros [|fuel'] chunk nrange mtch Hf Hf'; try lia.
  cbn [filepath.parseRanges].
  destruct (match chunk with
            | EmptyString => false
            | String c _ => Ascii.eqb c "]" && (0 <? nrange)
            end); [done|].
  destruct (filepath.getEsc chunk) as [[lo chunk1]|] eqn:H1; [|done].
  apply getEsc_shorter in H1.
  destruct (match chunk1 with
            | EmptyString => false
            | String c _ => Ascii.eqb c "-"
            end).
  - destruct (filepath.getEsc (str_drop 1 chunk1)) as [[hi chunk2]|] eqn:H2; [|done].
    apply getEsc_shorter in H2. rewrite str_drop_len in H2.
    apply IH; lia.
  - apply IH; lia.
Qed.

Lemma parseRanges_shorter fuel r chunk nrange mtch b rest :
  filepath.parseRanges fuel r chunk nrange mtch = Some (b, rest) →
  str_len rest < str_len chunk.
Proof.
  revert chunk nrange mtch. induction fuel as [|fuel IH]; intros chunk nrange mtch; [done|].
  cbn [filepath.parseRanges].
  destruct (match chunk with
            | EmptyString => false
            | String c _ => Ascii.eqb c "]" && (0 <? nrange)
            end) eqn:Hclose.
  { intros [= <- <-]. destruct chunk; [done|]. simpl. lia. }
  destruct (filepath.getEsc chunk) as [[lo chunk1]|] eqn:H1; [|done].
  apply getEsc_shorter in H1.
  destruct (match chunk1 with
            | EmptyString => false
            | String c _ => Ascii.eqb c "-"
            end).
  - destruct (filepath.getEsc (str_drop 1 chunk1)) as [[hi chunk2]|] eqn:H2; [|done].
    apply getEsc_shorter in H2. rewrite str_drop_len in H2.
    intros H%IH. lia.
  - intros H%IH. lia.
Qed.

Lemma matchChunk_go_fuel fuel fuel' failed chunk s :
  str_len chunk < fuel → str_len chunk < fuel' →
  filepath.matchChunk_go fuel failed chunk s
  = filepath.matchChunk_go fuel' failed chunk s.
Proof.
  revert fuel' failed chunk s.
  induction fuel as [|fuel IH]; intros [|fuel'] failed chunk s Hf Hf'; try lia.
  cbn [filepath.matchChunk_go].
  destruct chunk as [|c chunk1]; [done|]. simpl in Hf, Hf'.
  destruct (Ascii.eqb c "[").
  { destruct (if failed || str_empty s then _ else _) as [r s'].
    set (negated := match chunk1 with
                    | EmptyString => false
                    | String c' _ => Ascii.eqb c' "^"
                    end).
    set (chunk2 := if negated then str_drop 1 chunk1 else chunk1).
    assert (str_len chunk2 ≤ str_len chunk1) as Hle.
    { unfold chunk2. destruct negated; [rewrite str_drop_len|]; lia. }
    destruct (filepath.parseRanges _ r chunk2 0 false) as [[mtch chunk3]|] eqn:Hp; [|done].
    apply parseRanges_shorter in Hp. apply IH; lia. }
  destruct (Ascii.eqb c "?").
  { destruct s as [|c0 s1]; [apply IH; lia|].
    destruct (failed || str_empty (String c0 s1)); [apply IH; lia|].
    destruct (utf8.DecodeRuneInString (String c0 s1)). apply IH; lia. }
  destruct (Ascii.eqb c "\").
  { destruct chunk1 as [|c' chunk2]; [done|]. simpl in Hf, Hf'.
    destruct s as [|c0 s1]; [apply IH; lia|].
    destruct (failed || str_empty (String c0 s1)); apply IH; lia. }
  destruct s as [|c0 s1]; [apply IH; lia|].
  destruct (failed || str_empty (String c0 s1)); apply IH; lia.
Qed.

Lemma skip_stars_len pattern : str_len (snd (filepath.skip_stars pattern)) ≤ str_len pattern.
Proof.
  induction pattern as [|c p IH]; simpl; [done|].
  destruct (Ascii.eqb c "*"); simpl; lia.
Qed.

Lemma skip_stars_star pattern :
  fst (filepath.skip_stars pattern) = true →
  str_len (snd (filepath.skip_stars pattern)) < str_len pattern.
Proof.
  destruct pattern as [|c p]; simpl; [done|].
  destruct (Ascii.eqb c "*"); simpl; [|done].
  pose proof (skip_stars_len p). lia.
Qed.

Lemma skip_stars_head pattern c rest :
  snd (filepath.skip_stars pattern) = String c rest → Ascii.eqb c "*" = false.
Proof.
  induction pattern as [|c' p IH]; simpl; [done|].
  destruct (Ascii.eqb c' "*") eqn:Hc; simpl; [done|]. by intros [= <- <-].
Qed.

Lemma scan_end_pos c rest : Ascii.eqb c "*" = false → 0 < filepath.scan_end (String c rest) false.
Proof.
  intros Hc. cbn [filepath.scan_end]. rewrite Hc.
  destruct (Ascii.eqb c "\"); [destruct rest; lia|].
  destruct (Ascii.eqb c "["); [lia|]. destruct (Ascii.eqb c "]"); lia.
Qed.

Lemma scan_end_le_aux n :
  ∀ pattern inrange, str_len pattern ≤ n →
                     filepath.scan_end pattern inrange ≤ str_len pattern.
Proof.
  induction n as [|n IH]; intros [|c t] inrange Hn; simpl in Hn; try done; [lia|].
  cbn [filepath.scan_end].
  assert (∀ b, filepath.scan_end t b ≤ str_len t) as Ht by (intros b; apply IH; lia).
  destruct (Ascii.eqb c "\").
  { destruct t as [|c' t']; [simpl; lia|].
    assert (filepath.scan_end t' inrange ≤ str_len t') by (apply IH; simpl in Hn; lia).
    simpl. lia. }
  pose proof (Ht true). pose proof (Ht false). pose proof (Ht inrange).
  repeat case_match; simpl; lia.
Qed.

Lemma scan_end_le pattern inrange : filepath.scan_end pattern inrange ≤ str_len pattern.
Proof. by apply (scan_end_le_aux (str_len pattern)). Qed.

(** Every chunk takes something off the pattern. *)
Lemma scanChunk_shorter pattern star chunk rest :
  str_empty pattern = false →
  filepath.scanChunk pattern = (star, chunk, rest) →
  str_len rest < str_len pattern.
Proof.
  intros Hne. unfold filepath.scanChunk.
  destruct (filepath.skip_stars pattern) as [st p] eqn:Hs.
  intros [= <- <- <-]. rewrite str_drop_len.
  pose proof (skip_stars_len pattern) as Hle. rewrite Hs in Hle. simpl in Hle.
  pose proof (scan_end_le p false).
  destruct st.
  - pose proof (skip_stars_star pattern) as Hlt. rewrite Hs in Hlt.
    specialize (Hlt eq_refl). simpl in Hlt. lia.
  - destruct p as [|c p'].
    + destruct pattern as [|c' p'']; [done|]. simpl in Hs.
      destruct (Ascii.eqb c' "*"); simplify_eq.
    + pose proof (skip_stars_head pattern c p') as Hc. rewrite Hs in Hc.
      pose proof (scan_end_pos c p' (Hc eq_refl)). simpl in *. lia.
Qed.

Lemma checkRest_fuel fuel fuel' pattern :
  str_len pattern < fuel → str_len pattern < fuel' →
  filepath.checkRest fuel pattern = filepath.checkRest fuel' pattern.
Proof.
  revert fuel' pattern.
  induction fuel as [|fuel IH]; intros [|fuel'] pattern Hf Hf'; try lia.
  cbn [filepath.checkRest].
  destruct (str_empty pattern) eqn:He; [done|].
  destruct (filepath.scanChunk pattern) as [[star chunk] rest] eqn:Hs.
  apply scanChunk_shorter in Hs; [|done].
  destruct (filepath.matchChunk chunk "") as [[t ok] [e|]]; [done|].
  apply IH; lia.
Qed.

Lemma Match_go_fuel fuel fuel' pattern name :
  str_len pattern < fuel → str_len pattern < fuel' →
  filepath.Match_go fuel pattern name = filepath.Match_go fuel' pattern name.
Proof.
  revert fuel' pattern name.
  induction fuel as [|fuel IH]; intros [|fuel'] pattern name Hf Hf'; try lia.
  cbn -[filepath.checkRest filepath.matchChunk filepath.scanChunk filepath.starLoop].
  destruct (str_empty pattern) eqn:He; [done|].
  destruct (filepath.scanChunk pattern) as [[star chunk] rest] eqn:Hs.
  apply scanChunk_shorter in Hs; [|done].
  destruct (star && str_empty chunk); [done|].
  destruct (filepath.matchChunk chunk name) as [[t ok] err].
  destruct (ok && (str_empty t || negb (str_empty rest))); [apply IH; lia|].
  destruct err as [e|]; [done|].
  destruct star; [|done].
  destruct (filepath.starLoop chunk (str_empty rest) name); [apply IH; lia|done..].
Qed.

(** [filepath.Match] is [Match_go] with any number of iterations beyond
    the length of the pattern. *)
Lemma Match_enough_fuel fuel pattern name :
  str_len pattern < fuel →
  filepath.Match_go fuel pattern name = filepath.Match pattern name.
Proof. intros Hf. apply Match_go_fuel; [done|]. unfold str_len. lia. Qed.

(** The loop of [formatFileSize] ends within six iterations on every
    [int64]. *)
Lemma size_loop_fuel fuel n div exp k :
  (0 ≤ n < 1024 ^ Z.of_nat (S fuel))%Z →
  size_loop (fuel + k) n div exp = size_loop fuel n div exp.
Proof.
  revert n div exp. induction fuel as [|fuel IH]; intros n div exp Hn.
  - destruct k; [done|]. simpl. destruct (n >=? 1024)%Z eqn:Hge; [|done].
    apply Z.geb_le in Hge. change (1024 ^ Z.of_nat 1)%Z with 1024%Z in Hn. lia.
  - cbn [Nat.add size_loop]. destruct (n >=? 1024)%Z eqn:Hge; [|done].
    apply IH. apply Z.geb_le in Hge.
    rewrite Nat2Z.inj_succ, Z.pow_succ_r in Hn by lia.
    split; [apply Z.div_pos; lia|]. apply Z.div_lt_upper_bound; lia.
Qed.

Lemma formatFileSize_enough_fuel size k :
  (0 ≤ size < 2 ^ 63)%Z →
  size_loop (6 + k) (size / 1024) 1024 0 = size_loop 6 (size / 1024) 1024 0.
Proof.
  intros Hs. apply size_loop_fuel.
  split; [apply Z.div_pos; lia|].
  apply Z.div_lt_upper_bound; [lia|].
  change (1024 ^ Z.of_nat 7)%Z with (2 ^ 70)%Z.
  assert (2 ^ 63 < 1024 * 2 ^ 70)%Z by (vm_compute; reflexivity). lia.
Qed.

Lemma TrimLeftSpace_go_fuel fuel fuel' s :
  str_len s ≤ fuel → str_len s ≤ fuel' →
  TrimLeftSpace_go fuel s = TrimLeftSpace_go fuel' s.
Proof.
  revert fuel' s. induction fuel as [|fuel IH]; intros fuel' s Hf Hf'.
  - destruct s; [|simpl in Hf; lia]. by destruct fuel'.
  - destruct fuel' as [|fuel'].
    { destruct s; [done|simpl in Hf'; lia]. }
    cbn [TrimLeftSpace_go]. destruct s as [|c s]; [done|].
    destruct (utf8.DecodeRuneInString (String c s)) as [r n] eqn:Hd.
    destruct (IsSpace r); [|done].
    pose proof (DecodeRune_width (String c s) _ _ eq_refl Hd).
    apply IH; rewrite str_drop_len; simpl in *; lia.
Qed.

Lemma scan_start_le s start steps : (utf8.scan_start s start steps ≤ Z.of_nat start)%Z.
Proof.
  revert steps. induction start as [|start' IH]; intros [|steps]; simpl; try lia.
  - destruct (utf8.RuneStart _); lia.
  - destruct (utf8.RuneStart _); [lia|]. specialize (IH steps). lia.
Qed.

Lemma DecodeLastRune_width s r n :
  str_empty s = false → utf8.DecodeLastRuneInString s = (r, n) → 1 ≤ n.
Proof.
  intros He. unfold utf8.DecodeLastRuneInString.
  destruct (str_len s) as [|start] eqn:Hlen.
  { destruct s; simplify_eq/=. }
  destruct (_ <? _)%Z; [by intros [= <- <-]|].
  set (x := match start with
            | 0 => (-1)%Z
            | S start' => utf8.scan_start s start' (S start' - (S start - 4))
            end).
  assert (x < Z.of_nat (S start))%Z as Hx.
  { unfold x. destruct start as [|start']; [lia|].
    pose proof (scan_start_le s start' (S start' - (S (S start') - 4))). lia. }
  set (st := if (x <? 0)%Z then 0 else Z.to_nat x).
  assert (st < S start) as Hst.
  { unfold st. destruct (x <? 0)%Z eqn:Hneg; [lia|]. apply Z.ltb_ge in Hneg. lia. }
  destruct (utf8.DecodeRuneInString (str_drop st s)) as [r' size] eqn:Hd.
  destruct (negb (st + size =? S start)); intros [= <- <-]; [lia|].
  eapply DecodeRune_width; [|exact Hd].
  pose proof (str_drop_len st s) as Hdl. rewrite Hlen in Hdl.
  destruct (str_drop st s); [simpl in Hdl; lia|done].
Qed.

Lemma str_take_len n s : str_len (str_take n s) = n `min` str_len s.
Proof.
  revert s. induction n as [|n IH]; intros [|c s]; simpl; rewrite ?IH; lia.
Qed.

Lemma lastIndexNotSpace_fuel fuel fuel' s i :
  i ≤ fuel → i ≤ fuel' → i ≤ str_len s →
  lastIndexNotSpace fuel s i = lastIndexNotSpace fuel' s i.
Proof.
  revert fuel' i. induction fuel as [|fuel IH]; intros fuel' i Hf Hf' Hi.
  - assert (i = 0) as -> by lia. by destruct fuel'.
  - destruct fuel' as [|fuel']; [assert (i = 0) as -> by lia; done|].
    cbn [lastIndexNotSpace]. destruct i as [|i]; [done|].
    destruct (utf8.DecodeLastRuneInString (str_take (S i) s)) as [r size] eqn:Hd.
    destruct (negb (IsSpace r)); [done|].
    assert (str_empty (str_take (S i) s) = false) as Hne.
    { destruct s; [simpl in Hi; lia|done]. }
    pose proof (DecodeLastRune_width _ _ _ Hne Hd).
    apply IH; lia.
Qed.

Lemma TrimSpace_right_fuel fuel fuel' s :
  str_len s ≤ fuel → str_len s ≤ fuel' →
  TrimSpace_right fuel s = TrimSpace_right fuel' s.
Proof.
  revert fuel' s. induction fuel as [|fuel IH]; intros fuel' s Hf Hf'.
  - destruct s; [|simpl in Hf; lia]. by destruct fuel'.
  - destruct fuel' as [|fuel'].
    { destruct s; [done|simpl in Hf'; lia]. }
    cbn [TrimSpace_right]. destruct (str_last s) as [c|] eqn:Hl; [|done].
    destruct (_ <=? _)%Z; [done|]. destruct (asciiSpace (byte_val c)); [|done].
    assert (0 < str_len s) by (destruct s; [done|simpl; lia]).
    apply IH; rewrite str_take_len; lia.
Qed.

Lemma Map_go_fuel mapping fuel fuel' s :
  str_len s ≤ fuel → str_len s ≤ fuel' →
  Map_go fuel mapping s = Map_go fuel' mapping s.
Proof.
  revert fuel' s. induction fuel as [|fuel IH]; intros fuel' s Hf Hf'.
  - destruct s; [|simpl in Hf; lia]. by destruct fuel'.
  - destruct fuel' as [|fuel'].
    { destruct s; [done|simpl in Hf'; lia]. }
    cbn [Map_go]. destruct s as [|c s]; [done|].
    destruct (utf8.DecodeRuneInString (String c s)) as [r n] eqn:Hd.
    pose proof (DecodeRune_width (String c s) _ _ eq_refl Hd).
    f_equal. apply IH; rewrite str_drop_len; simpl in *; lia.
Qed.

(** * Further properties of the code

    ** The classifier and the size formatter *)

Lemma get_in_range s i c : String.get i s = Some c → i < str_len s.
Proof.
  revert i. induction s as [|a s IH]; intros [|i]; simpl; try done; [lia|].
  intros H. apply IH in H. lia.
Qed.

Lemma no_null_byte_true buffer :
  no_null_byte buffer (str_len buffer) = true
  ↔ ∀ i, String.get i buffer ≠ Some "000"%char.
Proof.
  induction buffer as [|c t IH]; simpl.
  - split; [by intros _ []|done].
  - destruct (byte_val c =? 0)%Z eqn:Hc.
    + split; [done|]. intros H. exfalso. apply (H 0). simpl. f_equal.
      apply Z.eqb_eq in Hc. unfold byte_val in Hc.
      rewrite <- (ascii_N_embedding c).
      by replace (N_of_ascii c) with 0%N by lia.
    + rewrite IH. split.
      * intros H [|i]; [|apply H]. simpl. intros [= ->]. done.
      * intros H i. apply (H (S i)).
Qed.

(** X1: [isTextFile] answers true exactly for a file that opens, whose first
    read succeeds and returns at least one byte, and that has no zero byte
    among its first 512 bytes; what lies beyond them is never looked at. *)
Theorem isTextFile_true_iff name data out :
  isTextFile (File name data) out = true
  ↔ fd_open data = None ∧ fd_read data = None ∧ fd_bytes data ≠ ""
    ∧ ∀ i, i < 512 → String.get i (fd_bytes data) ≠ Some "000"%char.
Proof.
  unfold isTextFile, open_and_read, Read.
  destruct (fd_open data) as [e|]; [by split; [|intros (? & _)]|].
  destruct (fd_read data) as [e|]; [by split; [|intros (_ & ? & _)]|].
  destruct (fd_bytes data) as [|c bytes] eqn:Hb; [by split; [|intros (_ & _ & ? & _)]|].
  cbn [str_empty]. rewrite bool_decide_eq_false_2 by (by intros ?).
  cbn [andb]. rewrite no_null_byte_true. split.
  - intros H. do 3 (split; [done|]). intros i Hi. rewrite <- (str_take_get 512) by done.
    apply H.
  - intros (_ & _ & _ & H) i.
    destruct (decide (i < 512)) as [Hi|Hi].
    + rewrite str_take_get by done. by apply H.
    + intros Hget. apply get_in_range in Hget. rewrite str_take_len in Hget. lia.
Qed.

Lemma size_loop_power fuel : ∀ (j : nat) n div exp,
  j ≤ fuel → (1024 ^ Z.of_nat j ≤ n < 1024 ^ (Z.of_nat j + 1))%Z →
  size_loop fuel n div exp = ((div * 1024 ^ Z.of_nat j)%Z, exp + j).
Proof.
  induction fuel as [|fuel IH]; intros j n div exp Hj Hn.
  - assert (j = 0) as -> by lia. simpl. f_equal; [lia|lia].
  - cbn [size_loop]. destruct j as [|j].
    + change (1024 ^ (Z.of_nat 0 + 1))%Z with 1024%Z in Hn.
      destruct (n >=? 1024)%Z eqn:Hge; [rewrite Z.geb_leb in Hge; apply Z.leb_le in Hge; lia|].
      f_equal; [simpl; lia|lia].
    + replace (Z.of_nat (S j)) with (Z.of_nat j + 1)%Z in * by lia.
      rewrite !Z.pow_add_r in Hn by lia. rewrite Z.pow_add_r by lia.
      change (1024 ^ 1)%Z with 1024%Z in *.
      assert (0 < 1024 ^ Z.of_nat j)%Z as Hpos by (apply Z.pow_pos_nonneg; lia).
      destruct (n >=? 1024)%Z eqn:Hge; [|rewrite Z.geb_leb in Hge; apply Z.leb_gt in Hge; nia].
      rewrite (IH j); [f_equal; lia|lia|].
      rewrite Z.pow_add_r by lia. change (1024 ^ 1)%Z with 1024%Z.
      split.
      * apply Z.div_le_lower_bound; lia.
      * apply Z.div_lt_upper_bound; lia.
Qed.

(** X2: [formatFileSize] prints sizes below 1024 as a count of bytes, and
    every other size in the largest unit (a power of 1024) that is not
    above it: K for [1024^1 <= size < 1024^2], M for the next range, up to
    E. *)
Theorem formatFileSize_unit size :
  ((size < 1024)%Z → formatFileSize size = fmt_d size +:+ " B")
  ∧ (∀ k c, String.get k "KMGTPE" = Some c →
            (1024 ^ (Z.of_nat k + 1) ≤ size < 1024 ^ (Z.of_nat k + 2))%Z →
            formatFileSize size
            = fmt_f1 (float64_of_int size) (1024 ^ (Z.of_nat k + 1))
                +:+ " " +:+ String c "B").
Proof.
  unfold formatFileSize. split.
  - intros Hs. by rewrite (proj2 (Z.ltb_lt _ _)) by done.
  - intros k c Hk Hs.
    assert (k ≤ 5) as Hk5.
    { do 6 (destruct k as [|k]; [lia|]). done. }
    assert (0 < 1024 ^ Z.of_nat k)%Z as Hpos by (apply Z.pow_pos_nonneg; lia).
    rewrite !Z.pow_add_r in Hs by lia.
    change (1024 ^ 1)%Z with 1024%Z in Hs. change (1024 ^ 2)%Z with (1024 * 1024)%Z in Hs.
    destruct (size <? 1024)%Z eqn:Hlt; [apply Z.ltb_lt in Hlt; nia|].
    rewrite (size_loop_power 6 k); [|lia|].
    + rewrite Nat.add_0_l, Hk. rewrite Z.pow_add_r by lia. change (1024 ^ 1)%Z with 1024%Z.
      by rewrite Z.mul_comm.
    + rewrite Z.pow_add_r by lia. change (1024 ^ 1)%Z with 1024%Z. split.
      * apply Z.div_le_lower_bound; lia.
      * apply Z.div_lt_upper_bound; lia.
Qed.

(** ** Globs of literal text and stars *)

Section Globs.

Import filepath.

Lemma literal_cons c t :
  literal (String c t) = true →
  Ascii.eqb c "*" = false ∧ Ascii.eqb c "?" = false ∧ Ascii.eqb c "[" = false
  ∧ Ascii.eqb c "\" = false ∧ literal t = true.
Proof.
  simpl. intros H. repeat (apply andb_prop in H as [H ?]).
  repeat match goal with H : negb _ = true |- _ => apply negb_true_iff in H end.
  done.
Qed.

Lemma matchChunk_go_failed fuel chunk s :
  literal chunk = true → str_len chunk < fuel →
  matchChunk_go fuel true chunk s = ("", false, None).
Proof.
  revert fuel s. induction chunk as [|c chunk IH]; intros [|fuel] s Hl Hf;
    simpl in Hf; try lia; [done|].
  apply literal_cons in Hl as (H1 & H2 & H3 & H4 & Hl).
  cbn [matchChunk_go orb]. rewrite H3, H2, H4.
  destruct s; apply IH; (done || lia).
Qed.

Lemma matchChunk_go_literal fuel chunk s :
  literal chunk = true → str_len chunk < fuel →
  matchChunk_go fuel false chunk s
  = if String.prefix chunk s then (str_drop (str_len chunk) s, true, None)
    else ("", false, None).
Proof.
  revert fuel s. induction chunk as [|c chunk IH]; intros [|fuel] s Hl Hf;
    simpl in Hf; try lia.
  { simpl. by destruct s. }
  pose proof Hl as Hl'.
  apply literal_cons in Hl as (H1 & H2 & H3 & H4 & Hl).
  cbn [matchChunk_go orb]. rewrite H3, H2, H4.
  destruct s as [|c0 s]; cbn [str_empty String.prefix str_len str_drop].
  { apply matchChunk_go_failed; [done|lia]. }
  destruct (ascii_dec c c0) as [->|Hne].
  - rewrite Ascii.eqb_refl. cbn [negb]. apply IH; [done|lia].
  - destruct (Ascii.eqb_spec c c0) as [|_]; [done|]. cbn [negb].
    apply matchChunk_go_failed; [done|lia].
Qed.

Lemma matchChunk_literal chunk s :
  literal chunk = true →
  matchChunk chunk s
  = if String.prefix chunk s then (str_drop (str_len chunk) s, true, None)
    else ("", false, None).
Proof. intros Hl. apply matchChunk_go_literal; [done|lia]. Qed.
Lemma scan_end_literal lit rest :
  literal lit = true →
  scan_end (lit +:+ rest) false = str_len lit + scan_end rest false.
Proof.
  induction lit as [|c lit IH]; intros Hl; [done|].
  apply literal_cons in Hl as (H1 & H2 & H3 & H4 & Hl).
  rewrite app_cons_s. cbn [scan_end str_len String.length]. rewrite H4, H3, H1.
  destruct (Ascii.eqb c "]"); by rewrite IH.
Qed.

Lemma skip_stars_literal lit :
  literal lit = true → skip_stars lit = (false, lit).
Proof.
  destruct lit as [|c lit]; [done|]. intros Hl.
  apply literal_cons in Hl as (H1 & _). simpl. by rewrite H1.
Qed.

Lemma str_take_app a b : str_take (str_len a) (a +:+ b) = a.
Proof. induction a as [|c a IH]; [by destruct b|]. rewrite app_cons_s. simpl. by rewrite IH. Qed.

Lemma str_drop_app a b : str_drop (str_len a) (a +:+ b) = b.
Proof. induction a as [|c a IH]; [done|]. rewrite app_cons_s. simpl. by rewrite IH. Qed.

Lemma scanChunk_star_literal lit :
  literal lit = true → scanChunk ("*" +:+ lit) = (true, lit, "").
Proof.
  intros Hl. unfold scanChunk. change ("*" +:+ lit) with (String "*" lit).
  cbn [skip_stars]. rewrite Ascii.eqb_refl, skip_stars_literal by done. cbn [snd].
  pose proof (scan_end_literal lit "" Hl) as He. rewrite app_nil_r_s in He.
  rewrite He. simpl scan_end. rewrite Nat.add_0_r.
  pose proof (str_take_app lit "") as Ht. pose proof (str_drop_app lit "") as Hd.
  rewrite app_nil_r_s in Ht, Hd. by rewrite Ht, Hd.
Qed.

Lemma scanChunk_literal_star lit :
  literal lit = true → lit ≠ "" → scanChunk (lit +:+ "*") = (false, lit, "*").
Proof.
  intros Hl Hne. unfold scanChunk.
  destruct lit as [|c lit]; [done|]. pose proof Hl as Hl'.
  apply literal_cons in Hl as (H1 & _).
  rewrite app_cons_s. cbn [skip_stars]. rewrite H1. rewrite <- app_cons_s.
  rewrite scan_end_literal by done. simpl scan_end. rewrite Nat.add_0_r.
  by rewrite str_take_app, str_drop_app.
Qed.

Lemma prefix_drop_empty lit s :
  String.prefix lit s = true → str_empty (str_drop (str_len lit) s) = true → s = lit.
Proof.
  revert s. induction lit as [|c lit IH]; intros [|c0 s]; simpl; try done.
  destruct (ascii_dec c c0) as [->|]; [|done]. intros Hp Hd. f_equal. by apply IH.
Qed.

Lemma prefix_refl_s (s : string) : String.prefix s s = true.
Proof. induction s as [|c s IH]; [done|]. simpl. by destruct (ascii_dec c c). Qed.

Lemma prefix_split a s : String.prefix a s = true → s = a +:+ str_drop (str_len a) s.
Proof.
  revert s. induction a as [|c a IH]; intros [|c0 s]; simpl; try done.
  destruct (ascii_dec c c0) as [->|]; [|done]. intros Hp. rewrite app_cons_s. f_equal.
  by apply IH.
Qed.

Lemma Contains_slash_cons c s :
  Contains (String c s) "/" = false ↔ c ≠ "/"%char ∧ Contains s "/" = false.
Proof.
  cbn [Contains String.prefix].
  destruct (ascii_dec "/" c) as [<-|Hne].
  - assert (String.prefix "" s = true) as -> by by destruct s.
    split; [done|]. by intros [? _].
  - split; [intros H; split; [congruence|done]|by intros [_ ?]].
Qed.

Lemma Match_go_S fuel pattern name :
  Match_go (S fuel) pattern name =
    if str_empty pattern then (str_empty name, None)
    else
      let '(star, chunk, pattern) := scanChunk pattern in
      if star && str_empty chunk then
        (negb (Contains name (String Separator "")), None)
      else
        let '(t, ok, err) := matchChunk chunk name in
        if ok && (str_empty t || negb (str_empty pattern)) then
          Match_go fuel pattern t
        else
          match err with
          | Some e => (false, Some e)
          | None =>
            let rest := checkRest (S (str_len pattern)) pattern in
            if star then
              match starLoop chunk (str_empty pattern) name with
              | StarFound t => Match_go fuel pattern t
              | StarError e => (false, Some e)
              | StarNone => rest
              end
            else rest
          end.
Proof. reflexivity. Qed.

(** The loop over the bytes the star may swallow, for a literal chunk that
    ends the pattern: it finds its match where the chunk is all that is
    left of the name. *)
Lemma starLoop_last lit name :
  literal lit = true →
  (starLoop lit true name = StarFound ""
   ∧ ∃ c pre, name = String c pre +:+ lit ∧ Contains (String c pre) "/" = false)
  ∨ (starLoop lit true name = StarNone
     ∧ ¬ ∃ c pre, name = String c pre +:+ lit ∧ Contains (String c pre) "/" = false).
Proof.
  intros Hl. induction name as [|c rest IH].
  { right. split; [done|]. by intros (c & pre & ? & _). }
  cbn [starLoop]. destruct (Ascii.eqb_spec c Separator) as [->|Hsep].
  { right. split; [done|]. intros (c & pre & Hn & Hc). rewrite app_cons_s in Hn.
    injection Hn as <- _. apply Contains_slash_cons in Hc as [Hc _]. done. }
  assert (∀ c' pre', Contains (String c' pre') "/" = false →
                     Contains (String c (String c' pre')) "/" = false) as Hext.
  { intros c' pre' H. by apply Contains_slash_cons. }
  assert (recurse :
    (starLoop lit true rest = StarFound ""
     ∧ ∃ c0 pre, String c rest = String c0 pre +:+ lit
                 ∧ Contains (String c0 pre) "/" = false)
    ∨ (starLoop lit true rest = StarNone
       ∧ (rest ≠ lit →
          ¬ ∃ c0 pre, String c rest = String c0 pre +:+ lit
                      ∧ Contains (String c0 pre) "/" = false))).
  { destruct IH as [[Hs (c' & pre' & -> & Hc)]|[Hs Hno]].
    - left. split; [done|]. exists c, (String c' pre'). split; [done|by apply Hext].
    - right. split; [done|]. intros Hne (c0 & pre & Hn & Hc).
      rewrite app_cons_s in Hn. injection Hn as <- ->.
      destruct pre as [|c' pre']; [done|]. apply Hno. exists c', pre'.
      split; [done|]. by apply Contains_slash_cons in Hc as [_ Hc]. }
  rewrite matchChunk_literal by done.
  destruct (String.prefix lit rest) eqn:Hp.
  - cbn [andb]. destruct (str_empty (str_drop (str_len lit) rest)) eqn:Hd; cbn [negb].
    + pose proof (prefix_drop_empty _ _ Hp Hd) as ->. left.
      pose proof (str_drop_app lit "") as Hdd. rewrite app_nil_r_s in Hdd.
      rewrite Hdd. split; [done|].
      exists c, "". split; [done|]. by apply Contains_slash_cons.
    + destruct recurse as [?|[Hs Hno]]; [by left|]. right. split; [done|].
      apply Hno. intros ->.
      pose proof (str_drop_app lit "") as Hdd. rewrite app_nil_r_s in Hdd.
      by rewrite Hdd in Hd.
  - destruct recurse as [?|[Hs Hno]]; [by left|]. right. split; [done|].
    apply Hno. intros ->. by rewrite prefix_refl_s in Hp.
Qed.
Lemma str_len_app a b : str_len (a +:+ b) = str_len a + str_len b.
Proof. induction a as [|c a IH]; [done|]. rewrite app_cons_s. simpl. by rewrite <- IH. Qed.

Lemma Contains_byte_app a c b : Contains (a +:+ String c b) (String c "") = true.
Proof.
  induction a as [|x a IH].
  - change ("" +:+ String c b) with (String c b). cbn [Contains String.prefix].
    destruct (ascii_dec c c); [|done]. by destruct b.
  - rewrite app_cons_s. cbn [Contains]. rewrite IH. by destruct (String.prefix _ _).
Qed.

(** [filepath.Match] on a star followed by literal text. *)
Lemma Match_star_literal lit name :
  literal lit = true →
  snd (Match ("*" +:+ lit) name) = None
  ∧ (fst (Match ("*" +:+ lit) name) = true
     ↔ ∃ pre, name = pre +:+ lit ∧ Contains pre "/" = false).
Proof.
  intros Hl. unfold Match. change ("*" +:+ lit) with (String "*" lit).
  cbn [str_len String.length]. rewrite Match_go_S. cbn [str_empty].
  change (String "*" lit) with ("*" +:+ lit). rewrite scanChunk_star_literal by done.
  cbn [andb]. destruct lit as [|c lit].
  { cbn [str_empty fst snd]. split; [done|]. rewrite negb_true_iff. split.
    - intros Hc. exists name. by rewrite app_nil_r_s.
    - intros (pre & -> & Hc). by rewrite app_nil_r_s. }
  cbn [str_empty negb orb]. rewrite matchChunk_literal by done.
  set (l := String c lit) in *.
  assert (Hstar :
    ¬ (String.prefix l name = true ∧ str_empty (str_drop (str_len l) name) = true) →
    snd (match starLoop l true name with
         | StarFound t => Match_go (S (String.length lit)) "" t
         | StarError e => (false, Some e)
         | StarNone => checkRest 1 ""
         end) = None
    ∧ (fst (match starLoop l true name with
            | StarFound t => Match_go (S (String.length lit)) "" t
            | StarError e => (false, Some e)
            | StarNone => checkRest 1 ""
            end) = true
       ↔ ∃ pre, name = pre +:+ l ∧ Contains pre "/" = false)).
  { intros Hnot.
    destruct (starLoop_last l name Hl) as [[-> (c0 & pre & Hn & Hc)]|[-> Hno]].
    - split; [done|]. split; [intros _; by exists (String c0 pre)|done].
    - split; [done|]. split; [done|]. intros (pre & Hn & Hc). exfalso.
      destruct pre as [|c0 pre].
      + apply Hnot. rewrite app_nil_l_s in Hn. subst name.
        rewrite prefix_refl_s. split; [done|].
        pose proof (str_drop_app l "") as Hdd. rewrite app_nil_r_s in Hdd.
        by rewrite Hdd.
      + apply Hno. by exists c0, pre. }
  destruct (String.prefix l name) eqn:Hp.
  - cbn [andb]. rewrite orb_false_r.
    destruct (str_empty (str_drop (str_len l) name)) eqn:Hd.
    + pose proof (prefix_drop_empty _ _ Hp Hd) as ->.
      destruct (str_drop (str_len l) l); [|done]. split; [done|].
      split; [intros _|done]. exists "". done.
    + apply Hstar. by intros [_ ?].
  - cbn [andb]. apply Hstar. by intros [? _].
Qed.

(** [filepath.Match] on literal text followed by a star. *)
Lemma Match_literal_star lit name :
  literal lit = true → lit ≠ "" →
  snd (Match (lit +:+ "*") name) = None
  ∧ (fst (Match (lit +:+ "*") name) = true
     ↔ ∃ post, name = lit +:+ post ∧ Contains post "/" = false).
Proof.
  intros Hl Hne. unfold Match. rewrite Match_go_S.
  assert (str_empty (lit +:+ "*") = false) as -> by by destruct lit.
  rewrite scanChunk_literal_star by done. cbn [andb].
  rewrite matchChunk_literal by done.
  destruct (String.prefix lit name) eqn:Hp.
  - cbn [andb str_empty negb]. rewrite orb_true_r.
    rewrite str_len_app. simpl (str_len "*"). rewrite Nat.add_1_r.
    rewrite Match_go_S. cbn [str_empty].
    change (scanChunk "*") with (true, "", ""). cbn [andb str_empty fst snd].
    split; [done|]. rewrite negb_true_iff. split.
    + intros Hc. exists (str_drop (str_len lit) name). split; [|done].
      by apply prefix_split.
    + intros (post & -> & Hc). by rewrite str_drop_app.
  - cbn [andb]. change (checkRest (S (str_len "*")) "*") with (false, @None error).
    split; [done|]. split; [done|]. intros (post & -> & _).
    by rewrite prefix_app in Hp.
Qed.
Lemma Contains_slash_drop n s :
  Contains s "/" = false → Contains (str_drop n s) "/" = false.
Proof.
  revert s. induction n as [|n IH]; intros [|c s]; try done.
  intros [_ H]%Contains_slash_cons. by apply IH.
Qed.

Lemma scanChunk_star_literal_star lit :
  literal lit = true → lit ≠ "" → scanChunk ("*" +:+ lit +:+ "*") = (true, lit, "*").
Proof.
  intros Hl Hne. unfold scanChunk.
  change ("*" +:+ lit +:+ "*") with (String "*" (lit +:+ "*")).
  cbn [skip_stars]. rewrite Ascii.eqb_refl.
  destruct lit as [|c lit]; [done|]. pose proof Hl as Hl'.
  apply literal_cons in Hl as (H1 & _).
  rewrite app_cons_s. cbn [skip_stars]. rewrite H1. cbn [snd]. rewrite <- app_cons_s.
  rewrite scan_end_literal by done. simpl scan_end. rewrite Nat.add_0_r.
  by rewrite str_take_app, str_drop_app.
Qed.

(** The loop over the bytes the star may swallow, for a literal chunk that
    is followed by more of the pattern, on a name without separator: it
    stops at the first place where the chunk occurs. *)
Lemma starLoop_first lit name :
  literal lit = true → Contains name "/" = false →
  (∃ t, starLoop lit false name = StarFound t ∧ Contains t "/" = false
        ∧ ∃ c rest, name = String c rest ∧ Contains rest lit = true)
  ∨ (starLoop lit false name = StarNone
     ∧ ∀ c rest, name = String c rest → Contains rest lit = false).
Proof.
  intros Hl. induction name as [|c rest IH]; intros Hs.
  { right. done. }
  apply Contains_slash_cons in Hs as [Hc Hs]. specialize (IH Hs).
  cbn [starLoop]. destruct (Ascii.eqb_spec c Separator) as [|_]; [done|].
  rewrite matchChunk_literal by done.
  destruct (String.prefix lit rest) eqn:Hp.
  - cbn [andb]. left. eexists. split; [done|]. split; [by apply Contains_slash_drop|].
    exists c, rest. split; [done|]. destruct rest; cbn [Contains]; by rewrite Hp.
  - destruct IH as [(t & -> & Ht & c' & rest' & -> & Hin)|[-> Hno]].
    + left. exists t. split; [done|]. split; [done|]. eexists _, _. split; [done|].
      cbn [Contains]. by rewrite Hp.
    + right. split; [done|]. intros ? ? [= <- <-].
      destruct rest as [|c' rest']; cbn [Contains]; rewrite Hp; [done|]. by eapply Hno.
Qed.

(** [filepath.Match] on literal text between two stars, for a name that
    holds no separator. *)
Lemma Match_star_literal_star lit name :
  literal lit = true → lit ≠ "" → Contains name "/" = false →
  Match ("*" +:+ lit +:+ "*") name = (Contains name lit, None).
Proof.
  intros Hl Hne Hs. unfold Match.
  change ("*" +:+ lit +:+ "*") with (String "*" (lit +:+ "*")).
  cbn [str_len String.length]. rewrite Match_go_S. cbn [str_empty].
  change (String "*" (lit +:+ "*")) with ("*" +:+ lit +:+ "*").
  rewrite scanChunk_star_literal_star by done.
  assert (str_empty lit = false) as -> by by destruct lit.
  cbn [andb]. rewrite matchChunk_literal by done.
  assert (∀ k t, Contains t "/" = false → Match_go (S k) "*" t = (true, None)) as Hlast.
  { intros k t Ht. rewrite Match_go_S. cbn [str_empty].
    change (scanChunk "*") with (true, "", ""). cbn [andb str_empty].
    unfold Separator. by rewrite Ht. }
  destruct (String.prefix lit name) eqn:Hp.
  - cbn [andb str_empty negb]. rewrite orb_true_r.
    rewrite Hlast by by apply Contains_slash_drop.
    destruct name; cbn [Contains]; by rewrite Hp.
  - cbn [andb str_empty]. change (checkRest (S (str_len "*")) "*") with (false, @None error).
    destruct (starLoop_first lit name Hl Hs)
      as [(t & -> & Ht & c & rest & -> & Hin)|[-> Hno]].
    + rewrite Hlast by done. cbn [Contains]. by rewrite Hp, Hin.
    + destruct name as [|c rest]; cbn [Contains]; rewrite Hp; [done|].
      by rewrite (Hno c rest).
Qed.
Lemma Contains_prefix a s : String.prefix a s = true → Contains s a = true.
Proof. intros Hp. destruct s; cbn [Contains]; by rewrite Hp. Qed.

Lemma Contains_star_head s : Contains ("*" +:+ s) "*" = true.
Proof. apply (Contains_byte_app "" "*" s). Qed.

(** X3: A pattern made of a star and literal text after it (such as [*.log])
    ignores exactly the names that end with that text, the part before it
    holding no separator. *)
Theorem star_suffix_pattern name lit :
  literal lit = true →
  hits name ("*" +:+ lit) = true
  ↔ ∃ pre, name = pre +:+ lit ∧ Contains pre "/" = false.
Proof.
  intros Hl. unfold hits. rewrite Contains_star_head.
  destruct (Match_star_literal lit name Hl) as [_ Hm].
  case_bool_decide as Heq.
  - split; [intros _|done]. exists "*". by rewrite <- Heq.
  - by destruct (Match ("*" +:+ lit) name) as [matched err].
Qed.

(** X4: A pattern made of literal text and a star after it (such as [temp*])
    ignores exactly the names that start with that text, the part after it
    holding no separator. *)
Theorem star_prefix_pattern name lit :
  literal lit = true →
  hits name (lit +:+ "*") = true
  ↔ ∃ post, name = lit +:+ post ∧ Contains post "/" = false.
Proof.
  intros Hl. unfold hits. rewrite Contains_byte_app.
  case_bool_decide as Heq.
  { split; [intros _|done]. exists "*". by rewrite <- Heq. }
  destruct lit as [|c lit].
  - destruct (Match_star_literal "" name eq_refl) as [_ Hm].
    change ("" +:+ "*") with ("*" +:+ ""). 
    destruct (Match ("*" +:+ "") name) as [matched err]. simpl in Hm. rewrite Hm.
    split; intros (s & Hs & Hc); exists s; (split; [|done]).
    + by rewrite app_nil_r_s in Hs.
    + by rewrite app_nil_r_s.
  - destruct (Match_literal_star (String c lit) name Hl) as [_ Hm]; [done|].
    by destruct (Match (String c lit +:+ "*") name) as [matched err].
Qed.

(** X5: A pattern made of literal text between two stars (such as [*cache*])
    ignores exactly the names of directory entries that hold the text. *)
Theorem star_infix_pattern name lit :
  literal lit = true → Contains name "/" = false →
  hits name ("*" +:+ lit +:+ "*") = Contains name lit.
Proof.
  intros Hl Hs. unfold hits. rewrite Contains_star_head.
  case_bool_decide as Heq.
  { rewrite <- Heq. change ("*" +:+ lit +:+ "*") with (String "*" (lit +:+ "*")).
    cbn [Contains]. rewrite (Contains_prefix lit) by apply prefix_app.
    by destruct (String.prefix _ _). }
  destruct lit as [|c lit].
  - change (Match ("*" +:+ "" +:+ "*") name) with (negb (Contains name "/"), @None error).
    rewrite Hs. by destruct name.
  - by rewrite Match_star_literal_star.
Qed.

End Globs.

(** ** The patterns of the command line and of the ignore file *)

Lemma str_take_drop n s : s = str_take n s +:+ str_drop n s.
Proof.
  revert s. induction n as [|n IH]; intros [|c s]; try done.
  cbn [str_take str_drop]. rewrite app_cons_s. f_equal. apply IH.
Qed.

Lemma part_of_refl s : part_of s s.
Proof. exists "", "". by rewrite app_nil_r_s. Qed.

Lemma part_of_nil s : part_of "" s.
Proof. by exists "", s. Qed.

Lemma part_of_trans r s t : part_of r s → part_of s t → part_of r t.
Proof.
  intros (a & b & ->) (a' & b' & ->). exists (a' +:+ a), (b +:+ b').
  by rewrite !app_assoc_s.
Qed.

Lemma part_of_take n s : part_of (str_take n s) s.
Proof. exists "", (str_drop n s). apply str_take_drop. Qed.

Lemma part_of_drop n s : part_of (str_drop n s) s.
Proof. exists (str_take n s), "". rewrite app_nil_r_s. apply str_take_drop. Qed.

Lemma part_of_count c r s : part_of r s → count_byte c r ≤ count_byte c s.
Proof. intros (a & b & ->). rewrite !count_byte_app. lia. Qed.

Lemma TrimLeftSpace_go_part fuel s : part_of (TrimLeftSpace_go fuel s) s.
Proof.
  revert s. induction fuel as [|fuel IH]; intros s; [apply part_of_refl|].
  cbn [TrimLeftSpace_go]. destruct s as [|c s]; [apply part_of_refl|].
  destruct (utf8.DecodeRuneInString (String c s)) as [r n].
  destruct (IsSpace r); [|apply part_of_refl].
  eapply part_of_trans; [apply IH|apply part_of_drop].
Qed.

Lemma TrimRightSpace_part s : part_of (TrimRightSpace s) s.
Proof.
  unfold TrimRightSpace.
  destruct (_ && _); [|apply part_of_take].
  destruct (utf8.DecodeRuneInString _) as [r wid]. apply part_of_take.
Qed.

Lemma TrimSpace_right_part fuel s : part_of (TrimSpace_right fuel s) s.
Proof.
  revert s. induction fuel as [|fuel IH]; intros s; [apply part_of_refl|].
  cbn [TrimSpace_right]. destruct (str_last s) as [c|]; [|apply part_of_refl].
  destruct (_ <=? _)%Z; [apply TrimRightSpace_part|].
  destruct (asciiSpace _); [|apply part_of_refl].
  eapply part_of_trans; [apply IH|apply part_of_take].
Qed.

Lemma part_of_cons r c s : part_of r s → part_of r (String c s).
Proof. intros (a & b & ->). by exists (String c a), b. Qed.

Lemma TrimSpace_left_part s :
  match TrimSpace_left s with inl r | inr r => part_of r s end.
Proof.
  induction s as [|c s IH]; [apply part_of_refl|].
  cbn [TrimSpace_left]. destruct (_ <=? _)%Z.
  { eapply part_of_trans; [apply TrimRightSpace_part|apply TrimLeftSpace_go_part]. }
  destruct (asciiSpace _); [|apply part_of_refl].
  destruct (TrimSpace_left s); by apply part_of_cons.
Qed.

(** What [strings.TrimSpace] returns is a part of its argument. *)
Lemma TrimSpace_part s : part_of (TrimSpace s) s.
Proof.
  unfold TrimSpace. pose proof (TrimSpace_left_part s) as H.
  destruct (TrimSpace_left s) as [r|s']; [done|].
  eapply part_of_trans; [apply TrimSpace_right_part|done].
Qed.

Lemma count_byte_rev_app c a b :
  count_byte c (String.rev_app a b) = count_byte c a + count_byte c b.
Proof.
  revert b. induction a as [|x a IH]; intros b; [done|].
  cbn [String.rev_app]. rewrite IH. simpl. lia.
Qed.

Lemma count_byte_rev c s : count_byte c (String.rev s) = count_byte c s.
Proof. unfold String.rev. rewrite count_byte_rev_app. simpl. lia. Qed.

Lemma Split_go_free s sep cur :
  count_byte sep cur = 0 →
  Forall (λ p, count_byte sep p = 0) (Split_go s sep cur).
Proof.
  revert cur. induction s as [|c s IH]; intros cur Hcur; cbn [Split_go].
  - constructor; [by rewrite count_byte_rev|done].
  - destruct (Ascii.eqb c sep) eqn:Hc.
    + constructor; [by rewrite count_byte_rev|by apply IH].
    + apply IH. simpl. by rewrite Hc.
Qed.

(** ** The patterns in force *)

Lemma part_of_free c r s : part_of r s → count_byte c s = 0 → count_byte c r = 0.
Proof. intros Hp Hs. pose proof (part_of_count c r s Hp). lia. Qed.

(** X6: The root command splits the value of [--ignore] at the commas and
    trims the pieces: no pattern holds a comma, there is one pattern more
    than there are commas, and an empty value gives no pattern at all;
    [--content] puts the files into the tree; a target directory that does
    not exist ends the run before the output file is created, and after
    any other answer of [os.Stat] the run goes on. *)
Theorem command_line_configuration (unicode_ToLower : Z → Z) flags args env :
  Forall (λ p, count_byte "," p = 0) (ignorePatterns (runConfig flags args))
  ∧ (flag_ignore flags ≠ "" →
     length (ignorePatterns (runConfig flags args))
     = S (count_byte "," (flag_ignore flags)))
  ∧ (flag_ignore flags = "" → ignorePatterns (runConfig flags args) = [])
  ∧ (includeContent (runConfig flags args) = true →
     includeFiles (runConfig flags args) = true)
  ∧ RunE unicode_ToLower flags args (Some ENOENT) env
    = (None, Some (ErrOther ("directory '" +:+ targetDir (runConfig flags args)
                             +:+ "' does not exist")))
  ∧ (∀ stat, stat ≠ Some ENOENT →
             RunE unicode_ToLower flags args stat env
             = generateReadme unicode_ToLower (runConfig flags args) env).
Proof.
  split; [|split; [|split; [|split; [|split]]]].
  - unfold runConfig. cbn [ignorePatterns].
    destruct (str_empty (flag_ignore flags)); cbn [negb]; [done|].
    apply Forall_map. eapply Forall_impl; [by apply Split_go_free|].
    intros p Hp. cbn beta. eapply part_of_free; [apply TrimSpace_part|done].
  - intros Hne. unfold runConfig. cbn [ignorePatterns].
    destruct (flag_ignore flags) as [|c s] eqn:Hi; [done|]. cbn [str_empty negb].
    rewrite length_map. apply Split_go_length.
  - intros Hi. unfold runConfig. cbn [ignorePatterns]. by rewrite Hi.
  - unfold runConfig. cbn [includeContent includeFiles]. by intros ->.
  - done.
  - intros stat Hs. unfold RunE, IsNotExist. by rewrite bool_decide_eq_false_2.
Qed.

Lemma raw_lines_free s cur :
  count_byte "010" cur = 0 →
  Forall (λ l, count_byte "010" l = 0) (raw_lines s cur).
Proof.
  revert cur. induction s as [|c s IH]; intros cur Hcur; cbn [raw_lines].
  - destruct (str_empty cur); constructor; [by rewrite count_byte_rev|done].
  - destruct (Ascii.eqb c "010") eqn:Hc.
    + constructor; [by rewrite count_byte_rev|by apply IH].
    + apply IH. simpl. by rewrite Hc.
Qed.

Lemma dropCR_part line : part_of (dropCR line) line.
Proof.
  unfold dropCR. destruct (str_last line) as [c|]; [|apply part_of_refl].
  destruct (Ascii.eqb_spec c "013") as [->|Hne].
  - apply part_of_take.
  - assert (match c with "013"%char => str_take (str_len line - 1) line | _ => line end
            = line) as ->; [|apply part_of_refl].
    destruct c as [[] [] [] [] [] [] [] []]; done.
Qed.

(** What a pattern of the ignore file looks like. *)
Lemma ignore_lines_ok lines :
  Forall (λ l, count_byte "010" l = 0) lines →
  Forall (λ p, p ≠ "" ∧ HasPrefix p "#" = false ∧ count_byte "010" p = 0)
         (ignore_lines lines).
Proof.
  intros Hl. unfold ignore_lines. apply Forall_forall. intros p Hp.
  apply list_elem_of_In, filter_In in Hp as [Hin Hp].
  apply andb_prop in Hp as [Hne Hc]. apply negb_true_iff in Hne, Hc.
  split; [by intros ->|]. split; [done|].
  apply in_map_iff in Hin as (raw & <- & Hraw).
  rewrite Forall_forall in Hl. apply list_elem_of_In in Hraw.
  eapply part_of_free; [|by apply Hl].
  eapply part_of_trans; [apply TrimSpace_part|apply dropCR_part].
Qed.

Lemma scan_patterns_ok lines :
  Forall (λ l, count_byte "010" l = 0) lines →
  Forall (λ p, p ≠ "" ∧ HasPrefix p "#" = false ∧ count_byte "010" p = 0)
         (fst (scan_patterns lines)).
Proof.
  induction 1 as [|raw lines Hraw Hlines IH]; [done|].
  cbn [scan_patterns]. destruct (_ <=? _)%Z; [done|].
  destruct (scan_patterns lines) as [ps err]. cbn [fst] in *.
  apply Forall_app. split; [|done]. apply ignore_lines_ok. by constructor.
Qed.

Lemma readIgnoreFile_ok d out :
  Forall (λ p, p ≠ "" ∧ HasPrefix p "#" = false ∧ count_byte "010" p = 0)
         (fst (readIgnoreFile d out)).
Proof.
  destruct d as [name data|name|name entries readdir]; cbn [readIgnoreFile]; [| |done].
  - destruct (fd_open data); [done|]. destruct (fd_read data); [done|].
    by apply scan_patterns_ok, raw_lines_free.
  - by apply scan_patterns_ok, raw_lines_free.
Qed.

(** X7: The lines of the ignore file that hold nothing but white space and
    the lines that start, after white space, with [#] give no pattern:
    every pattern read is non-empty, is no comment and is one line; and as
    long as no line is too long for the scanner, there is no error and the
    patterns are the trimmed lines that remain, in the order of the
    file. *)
Theorem ignore_file_patterns name data out :
  Forall (λ p, p ≠ "" ∧ HasPrefix p "#" = false ∧ count_byte "010" p = 0)
         (fst (readIgnoreFile (File name data) out))
  ∧ (fd_open data = None → fd_read data = None →
     Forall (λ raw, (Z.of_nat (str_len raw) < MaxScanTokenSize)%Z)
            (raw_lines (fd_bytes data) "") →
     readIgnoreFile (File name data) out
     = (ignore_lines (raw_lines (fd_bytes data) ""), None)).
Proof.
  split; [apply readIgnoreFile_ok|].
  intros Ho Hr Hshort. cbn [readIgnoreFile]. rewrite Ho, Hr.
  induction Hshort as [|raw lines Hraw Hlines IH]; [done|].
  cbn [scan_patterns]. rewrite (proj2 (Z.leb_gt _ _)) by done. rewrite IH.
  unfold ignore_lines. cbn [map List.filter].
  by destruct (_ && _).
Qed.

(** X8: The ignore file can only add patterns: the patterns of the command
    line stay, in their order, in front of those read from the file; the
    other settings are untouched; a name that was ignored stays ignored;
    and a file that cannot be read to its end adds nothing. *)
Theorem ignore_file_only_adds config root :
  ∃ added,
    ignorePatterns (merge_ignore config root) = ignorePatterns config ++ added
    ∧ merge_ignore config root
      = with_ignorePatterns config (ignorePatterns config ++ added)
    ∧ Forall (λ p, p ≠ "" ∧ HasPrefix p "#" = false ∧ count_byte "010" p = 0) added
    ∧ (∀ name, shouldIgnore name config = true →
               shouldIgnore name (merge_ignore config root) = true)
    ∧ (∀ d, stat_in root ignoreFileName = Some d →
            snd (readIgnoreFile d "") ≠ None → added = []).
Proof.
  assert (config = with_ignorePatterns config (ignorePatterns config ++ [])) as Hsame.
  { rewrite app_nil_r. by destruct config. }
  assert (∃ added,
    merge_ignore config root = with_ignorePatterns config (ignorePatterns config ++ added)
    ∧ Forall (λ p, p ≠ "" ∧ HasPrefix p "#" = false ∧ count_byte "010" p = 0) added
    ∧ (∀ d, stat_in root ignoreFileName = Some d →
            snd (readIgnoreFile d "") ≠ None → added = [])) as (added & Hm & Hok & Herr).
  { unfold merge_ignore. destruct (stat_in root ignoreFileName) as [d|].
    - pose proof (readIgnoreFile_ok d "") as Hok.
      destruct (readIgnoreFile d "") as [ps [e|]] eqn:Hr.
      + exists []. done.
      + exists ps. split; [done|]. split; [done|].
        intros ? [= <-]. by rewrite Hr.
    - exists []. done. }
  exists added. rewrite Hm. split; [done|]. split; [done|]. split; [done|].
  split; [|done]. intros name. unfold shouldIgnore. cbn [ignorePatterns with_ignorePatterns].
  rewrite !shouldIgnore_loop_true. intros (p & Hp & Hhit). exists p.
  split; [|done]. apply elem_of_app. by left.
Qed.

(** ** The content walk as a whole *)

Section ContentWalkWhole.

Variable unicode_ToLower : Z → Z.
Variables (config : Config) (dir : string).

Local Abbreviation cfun := (contentsFunc unicode_ToLower config dir).

(** On a directory the function of the walk writes nothing; it asks to
    skip the directory beyond the depth limit and to go on otherwise. *)
Lemma contentsFunc_Dir path name entries readdir out :
  cfun path (Dir name entries readdir) None out
  = (out, if beyond_limit config (currentDepth path) then Some SkipDir else None).
Proof.
  unfold contentsFunc, beyond_limit, currentDepth. cbn [IsDir orb].
  by destruct ((maxDepth config >=? 0)%Z && _).
Qed.

(** On anything else it never asks to skip, so that the entries after it
    are walked. *)
Lemma contentsFunc_file path d out :
  IsDir d = false →
  cfun path d None out
  = (if filtered_in config path d then fst (cfun path d None out) else out, None).
Proof.
  intros Hd. destruct (filtered_in config path d) eqn:Hf.
  - rewrite (contentsFunc_filtered_in _ _ _ _ _ _ Hf). cbv zeta.
    destruct (Info d out) as [size [e|]]; [done|].
    destruct (size >? 1024 * 1024)%Z; [done|].
    destruct (negb (isTextFile d out)); [done|].
    by destruct (ReadFile d out).
  - unfold filtered_in in Hf. rewrite Hd in Hf. unfold contentsFunc. rewrite Hd.
    cbn [orb].
    destruct ((maxDepth config >=? 0)%Z && _); [done|].
    destruct (shouldIgnore (Name d) config); [done|]. cbn [negb andb] in Hf.
    apply negb_false_iff in Hf. by rewrite Hf.
Qed.

Lemma walk_entries_fold {S} (calls : list (S → S * option walk_error)) st :
  Forall (λ call, ∀ st, snd (call st) = None) calls →
  walk_entries calls st = (fold_left (λ st call, fst (call st)) calls st, None).
Proof.
  intros Hc. revert st. induction Hc as [|call calls Hcall _ IH]; intros st; [done|].
  cbn [walk_entries fold_left]. specialize (Hcall st).
  destruct (call st) as [st' err]. cbn [snd fst] in *. subst err. apply IH.
Qed.

Lemma fold_left_flat_map {A B S} (f : S → B → S) (g : A → list B) l st :
  fold_left f (flat_map g l) st = fold_left (λ st a, fold_left f (g a) st) l st.
Proof.
  revert st. induction l as [|a l IH]; intros st; [done|].
  cbn [flat_map]. rewrite fold_left_app. apply IH.
Qed.

Local Abbreviation render :=
  (λ (out : string) (pd : list string * node), fst (cfun pd.1 pd.2 None out)).

(** Where every directory the walk opens lists, the walk fails nowhere and
    writes, one after the other, what its function writes for the entries
    of [walked]. *)
Lemma walkDir_walked d :
  ∀ path out,
    walk_listable config d path = true →
    walkDir cfun path d out = (fold_left render (walked config d path) out, None).
Proof.
  induction d as [name data|name|name entries readdir IH] using node_ind;
    intros path out Hl.
  - cbn [walkDir walked]. rewrite contentsFunc_file by done.
    by destruct (filtered_in config path (File name data)).
  - cbn [walkDir walked]. rewrite contentsFunc_file by done.
    by destruct (filtered_in config path (OutputFile name)).
  - cbn [walkDir walked]. rewrite contentsFunc_Dir.
    cbn [walk_listable] in Hl.
    destruct (beyond_limit config (currentDepth path)); [done|].
    cbn [orb] in Hl. apply andb_prop in Hl as [Hr Hl].
    apply bool_decide_eq_true in Hr as ->.
    rewrite forallb_forall in Hl. rewrite Forall_forall in IH.
    assert (∀ e, e ∈ entries → ∀ out,
              walkDir cfun (path ++ [Name e]) e out
              = (fold_left render (walked config e (path ++ [Name e])) out, None)) as He.
    { intros e He out'. apply IH; [done|]. by apply Hl, list_elem_of_In. }
    rewrite walk_entries_fold.
    + f_equal. rewrite fold_left_flat_map. clear -He.
      revert out. induction entries as [|e entries IHe]; intros out; [done|].
      cbn [map fold_left]. rewrite He by left. cbn [fst].
      apply IHe. intros e' He'. apply He. by right.
    + apply Forall_forall. intros call Hcall.
      apply list_elem_of_In, in_map_iff in Hcall as (e & <- & Hin).
      intros st. rewrite He by by apply list_elem_of_In. done.
Qed.

(** Where a directory the walk opens does not list, the walk ends with
    an error. *)
Lemma walkDir_fails d :
  ∀ path out,
    walk_listable config d path = false →
    ∃ e, snd (walkDir cfun path d out) = Some (Failure e).
Proof.
  induction d as [name data|name|name entries readdir IH] using node_ind;
    intros path out Hl; [done|done|].
  cbn [walkDir]. rewrite contentsFunc_Dir. cbn [walk_listable] in Hl.
  destruct (beyond_limit config (currentDepth path)); [done|]. cbn [orb] in Hl.
  destruct readdir as [e|].
  { exists e. unfold contentsFunc. done. }
  cbn [bool_decide andb] in Hl. rewrite bool_decide_eq_true_2 in Hl by done.
  cbn [andb] in Hl. clear name.
  revert out. induction entries as [|e entries IHe]; intros out; [done|].
  cbn [forallb] in Hl. apply Forall_cons in IH as [He IH].
  cbn [map walk_entries].
  destruct (walk_listable config e (path ++ [Name e])) eqn:Hle.
  - rewrite walkDir_walked by done. by apply IHe.
  - destruct (He (path ++ [Name e]) out Hle) as [err Herr].
    destruct (walkDir cfun (path ++ [Name e]) e out) as [st werr].
    cbn [snd] in Herr. subst werr. by exists err.
Qed.

End ContentWalkWhole.
(** The guard at the head of [writeFileContents] never fires for the call
    [generateReadme] makes, with depth 0. *)
Lemma writeFileContents_WalkDir (unicode_ToLower : Z → Z) root config out :
  writeFileContents unicode_ToLower root config 0 out
  = WalkDir (contentsFunc unicode_ToLower config (targetDir config)) root out.
Proof.
  unfold writeFileContents.
  destruct (maxDepth config >=? 0)%Z eqn:Hm; [|done].
  rewrite Z.geb_leb in Hm. apply Z.leb_le in Hm.
  rewrite Z.gtb_ltb. by rewrite (proj2 (Z.ltb_ge _ _)) by lia.
Qed.

Lemma content_walk_listable (unicode_ToLower : Z → Z) config root out :
  snd (writeFileContents unicode_ToLower root config 0 out) = None
  ↔ walk_listable config root [] = true.
Proof.
  rewrite writeFileContents_WalkDir. unfold WalkDir.
  destruct (walk_listable config root []) eqn:Hl.
  - by rewrite walkDir_walked.
  - destruct (walkDir_fails unicode_ToLower config (targetDir config) root [] out Hl)
      as [e He].
    destruct (walkDir _ _ _ _) as [st err]. cbn [snd] in He. by subst err.
Qed.

(** X9: The content walk returns an error exactly when a directory within
    the depth limit does not list, whether the tree shows that directory
    or not: ignored and hidden directories are opened like any other, and
    no file ever makes the walk fail.  The guard at the head of
    [writeFileContents] writes nothing and reports no error when the depth
    it is given lies beyond the limit, which the depth 0 of the call in
    [generateReadme] never does. *)
Theorem content_walk_succeeds_iff (unicode_ToLower : Z → Z) config root out :
  (snd (writeFileContents unicode_ToLower root config 0 out) = None
   ↔ walk_listable config root [] = true)
  ∧ (∀ depth, beyond_limit config depth = true →
              writeFileContents unicode_ToLower root config depth out = (out, None))
  ∧ beyond_limit config 0 = false.
Proof.
  split; [apply content_walk_listable|]. split.
  - intros depth Hlim. unfold writeFileContents.
    fold (beyond_limit config depth). by rewrite Hlim.
  - apply not_true_iff_false. intros H%beyond_limit_spec. lia.
Qed.

(** X10: Where every directory within the depth limit lists, the content walk
    writes, in the order of the listings, exactly what its function writes
    for the entries of [walked]: everything that is not a directory, lies
    within the depth limit, and is by its own name neither ignored nor
    hidden; the names of the directories above it play no part. *)
Theorem content_walk_renders_walked (unicode_ToLower : Z → Z) config root out :
  walk_listable config root [] = true →
  writeFileContents unicode_ToLower root config 0 out
  = (fold_left (λ out pd,
                  fst (contentsFunc unicode_ToLower config (targetDir config)
                                    pd.1 pd.2 None out))
               (walked config root []) out,
     None).
Proof.
  intros Hl. rewrite writeFileContents_WalkDir. unfold WalkDir.
  by rewrite walkDir_walked.
Qed.

(** ** The tree and the content walk side by side *)

Lemma currentDepth_valid path :
  Forall (λ n, valid_name n = true) path →
  currentDepth path = match path with [] => 0%Z | _ => depth_of path end.
Proof. apply walk_depth. Qed.

Lemma beyond_limit_mono config a b :
  beyond_limit config a = false → (b ≤ a)%Z → beyond_limit config b = false.
Proof.
  intros Ha Hb. apply not_true_iff_false. intros Hb'%beyond_limit_spec.
  apply not_true_iff_false in Ha. apply Ha, beyond_limit_spec. lia.
Qed.

Lemma keep_in_tree_candidate config e :
  keep_in_tree config e = true → IsDir e = false → candidate config e = true.
Proof.
  unfold keep_in_tree, candidate. intros Hk ->.
  destruct (shouldIgnore (Name e) config); [done|].
  by destruct (negb (showHidden config) && HasPrefix (Name e) ".").
Qed.

Lemma filtered_in_candidate_at config path e :
  beyond_limit config (currentDepth path) = false →
  candidate config e = true → filtered_in config path e = true.
Proof.
  unfold beyond_limit, currentDepth, candidate, filtered_in. intros -> Hc.
  cbn [negb andb]. repeat (apply andb_prop in Hc as [Hc ?]).
  by repeat (apply andb_true_intro; split).
Qed.

Lemma shown_walked config d :
  ∀ path depth p e,
    valid_tree d = true → Forall (λ n, valid_name n = true) path →
    depth = Z.of_nat (length path) →
    (p, e) ∈ shown config d path depth → IsDir e = false →
    (p, e) ∈ walked config d path.
Proof.
  induction d as [name data|name|name entries readdir IH] using node_ind;
    intros path depth p e Hv Hpath Hdepth Hin Hfile.
  - rewrite shown_not_dir in Hin by done. by apply elem_of_nil in Hin.
  - rewrite shown_not_dir in Hin by done. by apply elem_of_nil in Hin.
  - cbn [shown] in Hin. fold (beyond_limit config depth) in Hin.
    destruct (beyond_limit config depth) eqn:Hlim; [by apply elem_of_nil in Hin|].
    destruct readdir as [err|]; [by apply elem_of_nil in Hin|].
    cbn [walked]. rewrite (beyond_limit_mono config depth).
    2: done.
    2: { rewrite currentDepth_valid by done. unfold depth_of. destruct path; simpl in *; lia. }
    apply elem_of_flat_map in Hin as (c & Hc & Hin).
    apply elem_of_flat_map. exists c. split; [done|].
    cbn [valid_tree] in Hv. rewrite forallb_forall in Hv.
    pose proof (Hv c (proj1 (list_elem_of_In _ _) Hc)) as [Hname Hvc]%andb_prop.
    assert (Forall (λ n, valid_name n = true) (path ++ [Name c])) as Hpath'.
    { apply Forall_app. split; [done|]. by constructor. }
    destruct (keep_in_tree config c) eqn:Hkeep; [|by apply elem_of_nil in Hin].
    apply elem_of_cons in Hin as [[= -> ->]|Hin].
    + assert (filtered_in config (path ++ [Name c]) c = true) as Hf.
      { apply filtered_in_candidate_at; [|by apply keep_in_tree_candidate].
        rewrite currentDepth_valid by done.
        replace (match path ++ [Name c] with [] => 0%Z | _ => depth_of (path ++ [Name c]) end)
          with depth; [done|].
        unfold depth_of. rewrite length_app. destruct path; simpl in *; lia. }
      destruct c; try done; cbn [walked]; rewrite Hf; by left.
    + rewrite Forall_forall in IH.
      apply (IH c Hc (path ++ [Name c]) (depth + 1)%Z p e); try done.
      rewrite length_app. simpl. lia.
Qed.


(** X12: The converse fails: a directory the tree leaves out, because it is
    ignored or hidden, is opened by the content walk all the same.  With
    one such directory in the root, the tree is empty; if the directory
    does not list, the content walk fails; and if it holds a file that by
    its own name is neither ignored nor hidden, the walk renders it. *)
Theorem left_out_directory_is_walked (unicode_ToLower : Z → Z)
        config root sub entries readdir out :
  keep_in_tree config (Dir sub entries readdir) = false →
  valid_name sub = true →
  writeTree (Dir root [Dir sub entries readdir] None) [] "" config 0 = ([], None)
  ∧ (∀ e, readdir = Some e →
          snd (writeFileContents unicode_ToLower
                 (Dir root [Dir sub entries readdir] None) config 0 out) = Some e)
  ∧ (∀ name data, readdir = None → entries = [File name data] → valid_name name = true →
       (maxDepth config < 0 ∨ 1 ≤ maxDepth config)%Z →
       candidate config (File name data) = true →
       writeFileContents unicode_ToLower
         (Dir root [Dir sub entries readdir] None) config 0 out
       = (fst (contentsFunc unicode_ToLower config (targetDir config)
                            [sub; name] (File name data) None out), None)).
Proof.
  intros Hkeep Hsub.
  assert (beyond_limit config 0 = false) as Hlim0.
  { apply not_true_iff_false. intros H%beyond_limit_spec. lia. }
  assert (currentDepth [] = 0%Z) as Hd0 by done.
  assert (currentDepth [sub] = 0%Z) as Hd1.
  { rewrite currentDepth_valid by by constructor. done. }
  split; [|split].
  - rewrite writeTree_Dir, Hlim0. cbn [List.filter]. by rewrite Hkeep.
  - intros e ->. rewrite writeFileContents_WalkDir. unfold WalkDir.
    cbn [walkDir map walk_entries app Name]. rewrite !contentsFunc_Dir.
    rewrite Hd0, Hd1, Hlim0. unfold contentsFunc. done.
  - intros name data -> -> Hname Hdepth Hc.
    rewrite writeFileContents_WalkDir. unfold WalkDir.
    cbn [walkDir map walk_entries app Name]. rewrite !contentsFunc_Dir.
    rewrite Hd0, Hd1, Hlim0.
    assert (filtered_in config [sub; name] (File name data) = true) as Hf.
    { apply filtered_in_candidate_at; [|done].
      rewrite currentDepth_valid by (by repeat constructor).
      apply not_true_iff_false. intros H%beyond_limit_spec.
      unfold depth_of in H. simpl in H. lia. }
    rewrite (contentsFunc_file unicode_ToLower config (targetDir config)
               [sub; name] (File name data) out eq_refl), Hf.
    done.
Qed.

(** ** The init subcommand, when there is no ignore file yet *)

(** X13: In a directory without [.foldermd.ignore], [init] writes the default
    patterns under that name, leaves every other file as it is, prints its
    two messages and exits with status 0.  When the file cannot be opened
    for writing, nothing changes, nothing is printed, the error names the
    file and the status is 1.  When the write fails after the file was
    opened, the error and the status are the same, but the file is left
    behind with the bytes that reached it (none, or a beginning of the
    default patterns), and from then on [init] refuses with "already
    exists" instead of writing the patterns. *)
Theorem init_creates_default_file st :
  files st !! ignoreFileName = None →
  (∃ st', run_init Written st = (st', 0%Z)
          ∧ files st' !! ignoreFileName = Some defaultIgnoreContent
          ∧ (∀ other, other ≠ ignoreFileName → files st' !! other = files st !! other)
          ∧ stdout st'
            = stdout st
                ++ ["✅ Created .foldermd.ignore with common ignore patterns" +:+ LF;
                    "💡 Edit this file to customize ignore patterns for your project"
                      +:+ LF])
  ∧ (∀ e, createIgnoreFile (OpenFails e) st
          = (st, Some (ErrOther ("failed to create .foldermd.ignore: " +:+ Error e)))
          ∧ run_init (OpenFails e) st = (st, 1%Z))
  ∧ (∀ n e, ∃ st',
        createIgnoreFile (WriteFails n e) st
        = (st', Some (ErrOther ("failed to create .foldermd.ignore: " +:+ Error e)))
        ∧ run_init (WriteFails n e) st = (st', 1%Z)
        ∧ files st' !! ignoreFileName = Some (str_take n defaultIgnoreContent)
        ∧ (∀ other, other ≠ ignoreFileName →
                    files st' !! other = files st !! other)
        ∧ stdout st' = stdout st
        ∧ ∀ werr, run_init werr st' = (st', 1%Z)).
Proof.
  intros Hnone. split; [|split].
  - unfold run_init, createIgnoreFile. rewrite Hnone. cbn [WriteFile Printf files stdout].
    eexists. split; [reflexivity|]. split; [|split].
    + unfold Printf. cbn [files]. apply lookup_insert_eq.
    + intros other Hne. unfold Printf. cbn [files]. by apply lookup_insert_ne.
    + unfold Printf. cbn [stdout]. by rewrite <- app_assoc.
  - intros e. unfold run_init, createIgnoreFile. rewrite Hnone. done.
  - intros n e. unfold run_init, createIgnoreFile. rewrite Hnone. cbn [WriteFile].
    eexists. split; [reflexivity|]. split; [reflexivity|]. cbn [files stdout].
    split; [apply lookup_insert_eq|]. split; [|split; [done|]].
    + intros other Hne. by apply lookup_insert_ne.
    + intros werr. cbn [files]. by rewrite lookup_insert_eq.
Qed.

(** X14: What [init] wrote is what the next run reads: in a directory where
    [init] has just created the ignore file, [generateReadme] extends the
    patterns of the command line by the defaults, the comments and the
    empty lines of the file left out. *)
Theorem default_ignore_file_read_back st config name entries readdir data :
  files st !! ignoreFileName = None →
  files (fst (run_init Written st)) !! ignoreFileName = Some (fd_bytes data) →
  stat_in (Dir name entries readdir) ignoreFileName = Some (File ignoreFileName data) →
  fd_open data = None → fd_read data = None →
  ignorePatterns (merge_ignore config (Dir name entries readdir))
  = ignorePatterns config ++ default_patterns.
Proof.
  intros Hnone Hfile Hstat Ho Hr.
  unfold run_init, createIgnoreFile in Hfile. rewrite Hnone in Hfile.
  cbn [WriteFile] in Hfile. unfold Printf in Hfile. cbn [fst files] in Hfile.
  rewrite lookup_insert_eq in Hfile. injection Hfile as Hbytes.
  unfold merge_ignore. rewrite Hstat. cbn [readIgnoreFile]. rewrite Ho, Hr, <- Hbytes.
  assert (scan_patterns (raw_lines defaultIgnoreContent "") = (default_patterns, None))
    as -> by (vm_compute; reflexivity).
  done.
Qed.

(** ** When the tree renderer succeeds *)

Lemma writeTree_loop_ok_iff config path depth ents :
  Forall (λ e, ∀ path prefix,
            snd (writeTree e path prefix config (depth + 1)) = None
            ↔ tree_listable config e (depth + 1) = true) ents →
  ∀ prefix,
    snd (writeTree_loop path prefix depth (map (recursive_call config path) ents)) = None
    ↔ forallb (λ e, negb (IsDir e) || tree_listable config e (depth + 1)) ents = true.
Proof.
  induction 1 as [|e ents He _ IH]; intros prefix; [done|].
  cbn [map writeTree_loop recursive_call forallb].
  set (isLast := bool_decide (map (recursive_call config path) ents = [])).
  specialize (IH prefix). rewrite andb_true_iff, <- IH.
  destruct (IsDir e) eqn:Hdir; cbn [negb orb].
  - rewrite <- (He (path ++ [Name e]) (nextPrefix prefix isLast)).
    destruct (writeTree e _ _ config _) as [sub [err|]]; cbn [snd].
    + split; [done|]. by intros [? _].
    + destruct (writeTree_loop path prefix depth _) as [more err]. cbn [snd].
      split; [done|]. by intros [_ ?].
  - destruct (writeTree_loop path prefix depth _) as [more err]. cbn [snd].
    split; [done|]. by intros [_ ?].
Qed.

Lemma forallb_perm {A} (f : A → bool) l l' : l ≡ₚ l' → forallb f l = forallb f l'.
Proof.
  induction 1 as [|x l l' _ IH|x y l|l1 l2 l3 _ IH1 _ IH2]; simpl.
  - done.
  - by rewrite IH.
  - by destruct (f x), (f y).
  - by rewrite IH1.
Qed.

Lemma forallb_filter {A} (P f : A → bool) l :
  forallb f (List.filter P l) = forallb (λ x, negb (P x) || f x) l.
Proof.
  induction l as [|x l IH]; simpl; [done|].
  destruct (P x); simpl; by rewrite IH.
Qed.

Lemma writeTree_listable config d :
  ∀ path prefix depth,
    snd (writeTree d path prefix config depth) = None
    ↔ tree_listable config d depth = true.
Proof.
  induction d as [name data|name|name entries readdir IH] using node_ind;
    intros path prefix depth.
  - cbn [writeTree tree_listable]. unfold beyond_limit.
    by destruct ((maxDepth config >=? 0)%Z && (depth >? maxDepth config)%Z).
  - cbn [writeTree tree_listable]. unfold beyond_limit.
    by destruct ((maxDepth config >=? 0)%Z && (depth >? maxDepth config)%Z).
  - destruct readdir as [e|].
    { cbn [writeTree tree_listable]. unfold beyond_limit.
      by destruct ((maxDepth config >=? 0)%Z && (depth >? maxDepth config)%Z). }
    rewrite writeTree_Dir. cbn [tree_listable].
    destruct (beyond_limit config depth); [done|].
    rewrite writeTree_loop_ok_iff.
    + rewrite (forallb_perm _ _ _ (sortSlice_perm less _)), forallb_filter.
      f_equiv. clear. induction entries as [|e entries IHe]; [done|].
      simpl. by rewrite IHe, orb_assoc.
    + apply Forall_forall. intros e He. rewrite Forall_forall in IH.
      intros path' prefix'. apply IH.
      rewrite (sortSlice_perm less) in He.
      apply list_elem_of_In, filter_In in He as [He _]. by apply list_elem_of_In.
Qed.

(** ** The shape of the tree *)

(** A property of the lines that holds of the line of every entry, and
    that a line keeps when the call that printed it was made from one level
    up, holds of all lines. *)
Lemma writeTree_lines config (P : list string → string → Z → tree_line → Prop) :
  (∀ path prefix depth isLast e,
     P path prefix depth
       {| tl_dir := path; tl_depth := depth; tl_prefix := prefix;
          tl_last := isLast; tl_entry := e |}) →
  (∀ path prefix depth isLast e l,
     P (path ++ [Name e]) (nextPrefix prefix isLast) (depth + 1)%Z l →
     P path prefix depth l) →
  ∀ d path prefix depth lines err,
    writeTree d path prefix config depth = (lines, err) →
    Forall (P path prefix depth) lines.
Proof.
  intros Hline Hup.
  assert (Hloop : ∀ path depth ents,
    Forall (λ e, ∀ path prefix depth lines err,
              writeTree e path prefix config depth = (lines, err) →
              Forall (P path prefix depth) lines) ents →
    ∀ prefix lines err,
      writeTree_loop path prefix depth (map (recursive_call config path) ents)
      = (lines, err) →
      Forall (P path prefix depth) lines).
  { intros path depth ents. induction 1 as [|e ents He _ IH]; intros prefix lines err Hl.
    - simplify_eq/=. constructor.
    - cbn [map writeTree_loop recursive_call] in Hl.
      set (isLast := bool_decide (map (recursive_call config path) ents = [])) in *.
      assert (Forall (P path prefix depth)
                     (if IsDir e
                      then (writeTree e (path ++ [Name e]) (nextPrefix prefix isLast)
                                      config (depth + 1)).1
                      else [])) as Hsub.
      { destruct (IsDir e); [|constructor].
        destruct (writeTree e _ _ _ _) as [sub err'] eqn:Hs.
        eapply Forall_impl; [by eapply He|]. intros l. apply Hup. }
      destruct (IsDir e);
        [destruct (writeTree e _ _ _ _) as [sub [err'|]]|];
        [|destruct (writeTree_loop path prefix depth _) as [more err''] eqn:Hmore..];
        simplify_eq; (constructor; [apply Hline|]); simpl in Hsub;
        rewrite ?Forall_app; eauto. }
  induction d as [name data|name|name entries readdir IH] using node_ind;
    intros path prefix depth lines err Hw.
  - cbn [writeTree] in Hw.
    destruct ((maxDepth config >=? 0)%Z && (depth >? maxDepth config)%Z);
      simplify_eq; constructor.
  - cbn [writeTree] in Hw.
    destruct ((maxDepth config >=? 0)%Z && (depth >? maxDepth config)%Z);
      simplify_eq; constructor.
  - destruct readdir as [e|].
    { cbn [writeTree] in Hw.
      destruct ((maxDepth config >=? 0)%Z && (depth >? maxDepth config)%Z);
        simplify_eq; constructor. }
    rewrite writeTree_Dir in Hw.
    destruct (beyond_limit config depth); [simplify_eq; constructor|].
    eapply Hloop; [|done].
    apply Forall_forall. intros e He. rewrite Forall_forall in IH. apply IH.
    rewrite (sortSlice_perm less) in He.
    apply list_elem_of_In, filter_In in He as [He _]. by apply list_elem_of_In.
Qed.

Lemma indented_next prefix isLast k p :
  indented (nextPrefix prefix isLast) k p → indented prefix (S k) p.
Proof.
  induction 1 as [|k p _ IH|k p _ IH].
  - destruct isLast; [apply indented_blank|apply indented_bar]; constructor.
  - by apply indented_blank.
  - by apply indented_bar.
Qed.

(** X16: Whatever run of [writeTree] and however it ends, every line it prints
    is indented by four columns for each level its entry lies below the
    root, each level blank or holding a bar; the entries of the root are
    not indented. *)
Theorem tree_indentation config root lines err :
  writeTree root [] "" config 0 = (lines, err) →
  Forall (λ l, (0 ≤ tl_depth l)%Z
               ∧ indented "" (Z.to_nat (tl_depth l)) (tl_prefix l)) lines.
Proof.
  intros Hw.
  pose proof (writeTree_lines config
    (λ _ prefix depth l, ∃ k, tl_depth l = (depth + Z.of_nat k)%Z
                              ∧ indented prefix k (tl_prefix l))) as Hind.
  eapply Forall_impl; [eapply Hind; [| |exact Hw]|].
  - intros path prefix depth isLast e. exists 0. cbn. split; [lia|constructor].
  - intros _ prefix depth isLast _ l (k & Hd & Hi). exists (S k).
    split; [lia|by eapply indented_next].
  - intros l (k & Hd & Hi). cbn beta in *. rewrite Hd. split; [lia|].
    by rewrite Z.add_0_l, Nat2Z.id.
Qed.
(** ** The overview and the tree *)

Lemma sumZ_app l l' : sumZ (l ++ l') = (sumZ l + sumZ l')%Z.
Proof. induction l as [|x l IH]; simpl; lia. Qed.

Lemma filter_length_perm {A} (f : A → bool) l l' :
  l ≡ₚ l' → length (List.filter f l) = length (List.filter f l').
Proof.
  induction 1 as [|x l l' _ IH|x y l|l1 l2 l3 _ IH1 _ IH2]; simpl.
  - done.
  - destruct (f x); simpl; by rewrite IH.
  - by destruct (f x), (f y).
  - by rewrite IH1.
Qed.

Lemma shown_counts config d :
  ∀ path depth,
    (Z.of_nat (length (List.filter (λ pe, negb (IsDir pe.2)) (shown config d path depth)))
     ≤ total_files d)%Z
    ∧ (Z.of_nat (length (List.filter (λ pe, IsDir pe.2) (shown config d path depth)))
       ≤ total_dirs d - (if IsDir d then 1 else 0))%Z.
Proof.
  induction d as [name data|name|name entries readdir IH] using node_ind;
    intros path depth.
  - rewrite shown_not_dir by done. simpl. lia.
  - rewrite shown_not_dir by done. simpl. lia.
  - cbn [shown total_files total_dirs IsDir].
    assert (0 ≤ sumZ (map total_files entries) ∧ 0 ≤ sumZ (map total_dirs entries))%Z
      as Hnonneg.
    { clear. induction entries as [|e es IH]; [simpl; lia|]. cbn [map sumZ foldr].
      assert (0 ≤ total_files e ∧ 0 ≤ total_dirs e)%Z; [|unfold sumZ in IH; lia].
      clear. induction e as [| |n es r IHe] using node_ind; cbn; try lia.
      induction IHe as [|x l Hx _ IHl]; [simpl; lia|]. cbn [map sumZ foldr] in *.
      unfold sumZ in *. lia. }
    destruct ((maxDepth config >=? 0)%Z && (depth >? maxDepth config)%Z); [simpl; lia|].
    destruct readdir; [simpl; lia|]. clear Hnonneg.
    induction IH as [|e es He _ IHes]; [simpl; lia|].
    cbn [flat_map map sumZ foldr]. rewrite !List.filter_app, !length_app.
    fold (sumZ (map total_files es)). fold (sumZ (map total_dirs es)).
    specialize (He (path ++ [Name e]) (depth + 1)%Z).
    assert (0 ≤ total_files e ∧ 0 ≤ total_dirs e - (if IsDir e then 1 else 0))%Z as Hpos.
    { destruct He as [H1 H2]. lia. }
    destruct (keep_in_tree config e); cbn [List.filter length snd];
      destruct (IsDir e) eqn:Hdir; cbn [negb length] in *; try lia.
    rewrite !(shown_not_dir config e) by done. cbn [List.filter length].
    destruct e; try done; cbn [total_files] in *; lia.
Qed.

(** X17: The overview counts at least what the tree shows: on a run that
    succeeds, the lines of the tree that stand for files are no more than
    the total of files reported, and those that stand for directories no
    more than the total of directories reported. *)
Theorem overview_bounds_tree config root lines :
  writeTree root [] "" config 0 = (lines, None) →
  (Z.of_nat (length (file_lines lines)) ≤ fst (countEntries root))%Z
  ∧ (Z.of_nat (length (dir_lines lines)) ≤ snd (countEntries root) - 1)%Z.
Proof.
  intros Hw. pose proof (writeTree_shown config root _ _ _ _ Hw) as Hperm.
  rewrite countEntries_total. cbn [fst snd].
  assert (IsDir root = true) as Hroot.
  { assert (beyond_limit config 0 = false) as Hlim0.
    { apply not_true_iff_false. intros H%beyond_limit_spec. lia. }
    destruct root; [| |done]; cbn [writeTree] in Hw;
      fold (beyond_limit config 0) in Hw; by rewrite Hlim0 in Hw. }
  destruct (shown_counts config root [] 0) as [Hf Hd]. rewrite Hroot in Hd.
  assert (∀ f : node → bool,
            length (List.filter (λ l, f (tl_entry l)) lines)
            = length (List.filter (λ pe, f pe.2) (shown config root [] 0))) as Hlen.
  { intros f. rewrite <- (filter_length_perm _ _ _ Hperm). clear.
    induction lines as [|l lines IH]; [done|].
    cbn [map List.filter tl_pos snd]. destruct (f (tl_entry l)); simpl; by rewrite IH. }
  unfold file_lines, dir_lines.
  rewrite (Hlen (λ e, negb (IsDir e))), (Hlen IsDir). lia.
Qed.
(** *** The connector of the last entry *)

Lemma writeTree_dirs config d path prefix depth lines err :
  writeTree d path prefix config depth = (lines, err) →
  Forall (λ l, ∃ q, tl_dir l = path ++ q) lines.
Proof.
  apply (writeTree_lines config (λ path _ _ l, ∃ q, tl_dir l = path ++ q)).
  - intros p pre dep isLast e. exists []. by rewrite app_nil_r.
  - intros p pre dep isLast e l [q Hq]. exists (Name e :: q).
    by rewrite Hq, <- app_assoc.
Qed.

Lemma ForallOrdPairs_app {A} (R : A → A → Prop) a b :
  ForallOrdPairs R a → ForallOrdPairs R b →
  (∀ x y, x ∈ a → y ∈ b → R x y) →
  ForallOrdPairs R (a ++ b).
Proof.
  induction 1 as [|x a Hx Ha IH]; intros Hb Hab; [done|].
  cbn [app]. constructor.
  - apply Forall_app. split; [done|]. apply Forall_forall. intros y Hy.
    apply Hab; [by left|done].
  - apply IH; [done|]. intros x' y Hx' Hy. apply Hab; [by right|done].
Qed.

Lemma app_cons_neq {A} (path : list A) x q : path ++ x :: q ≠ path.
Proof.
  intros H. apply (f_equal length) in H. rewrite length_app in H. simpl in H. lia.
Qed.

Lemma writeTree_loop_last config path depth ents :
  NoDup (map Name ents) →
  Forall (λ e, ∀ path prefix depth lines err,
            writeTree e path prefix config depth = (lines, err) →
            ForallOrdPairs closes_listing lines) ents →
  ∀ prefix lines err,
    writeTree_loop path prefix depth (map (recursive_call config path) ents)
    = (lines, err) →
    ForallOrdPairs closes_listing lines
    ∧ Forall (λ l, tl_dir l = path
                   ∨ ∃ e' q, e' ∈ ents ∧ tl_dir l = path ++ Name e' :: q) lines.
Proof.
  intros Hnd Hents. revert Hnd.
  induction Hents as [|e ents He _ IH]; intros Hnd prefix lines err Hl.
  { simplify_eq/=. split; constructor. }
  cbn [map] in Hnd. apply NoDup_cons in Hnd as [Hfresh Hnd].
  cbn [map writeTree_loop recursive_call] in Hl.
  set (isLast := bool_decide (map (recursive_call config path) ents = [])) in *.
  set (line := {| tl_dir := path; tl_depth := depth; tl_prefix := prefix;
                  tl_last := isLast; tl_entry := e |}) in *.
  (* the lines printed below [e] *)
  assert (∃ sub err', (if IsDir e
                       then writeTree e (path ++ [Name e]) (nextPrefix prefix isLast)
                                      config (depth + 1)
                       else ([], None)) = (sub, err')
                      ∧ ForallOrdPairs closes_listing sub
                      ∧ Forall (λ l, ∃ q, tl_dir l = path ++ Name e :: q) sub)
    as (sub & err' & Hsub & Hfop & Hdirs).
  { destruct (IsDir e).
    - destruct (writeTree e _ _ _ _) as [sub err'] eqn:Hs. exists sub, err'.
      split; [done|]. split; [by eapply He|].
      eapply Forall_impl; [by eapply writeTree_dirs|].
      intros l [q Hq]. exists q. by rewrite Hq, <- app_assoc.
    - exists [], None. split; [done|]. split; constructor. }
  rewrite Hsub in Hl.
  (* the lines of the entries after [e] *)
  assert (∃ more, lines = line :: sub ++ more
                  ∧ ForallOrdPairs closes_listing more
                  ∧ Forall (λ l, tl_dir l = path
                                 ∨ ∃ e' q, e' ∈ ents ∧ tl_dir l = path ++ Name e' :: q)
                           more
                  ∧ (isLast = true → more = []))
    as (more & -> & Hmfop & Hmdirs & Hlast).
  { destruct err' as [e1|].
    - exists []. simplify_eq. rewrite app_nil_r. split; [done|].
      split; [constructor|]. split; [constructor|done].
    - destruct (writeTree_loop path prefix depth _) as [more err''] eqn:Hmore.
      exists more. simplify_eq. split; [done|].
      destruct (IH Hnd _ _ _ Hmore) as [H1 H2]. split; [done|]. split; [done|].
      intros Hlast. apply bool_decide_eq_true in Hlast.
      rewrite Hlast in Hmore. cbn in Hmore. congruence. }
  split.
  - constructor.
    + apply Forall_app. split.
      * eapply Forall_impl; [exact Hdirs|]. intros l [q Hq] _. cbn [tl_dir line].
        rewrite Hq. apply app_cons_neq.
      * apply Forall_forall. intros l Hin Hmark. cbn [tl_last line] in Hmark.
        rewrite (Hlast Hmark) in Hin. by apply elem_of_nil in Hin.
    + apply ForallOrdPairs_app; [done|done|].
      intros x y Hx Hy _. rewrite Forall_forall in Hdirs, Hmdirs.
      destruct (Hdirs x Hx) as [q Hq]. rewrite Hq.
      destruct (Hmdirs y Hy) as [->|(e' & q' & He' & ->)].
      * intros H. symmetry in H. by apply app_cons_neq in H.
      * intros H. apply app_inv_head in H. injection H as Hn _.
        apply Hfresh. rewrite <- Hn. apply list_elem_of_fmap. by exists e'.
  - constructor; [by left|]. apply Forall_app. split.
    + eapply Forall_impl; [exact Hdirs|]. intros l [q Hq]. right. exists e, q.
      split; [by left|done].
    + eapply Forall_impl; [exact Hmdirs|]. intros l [?|(e' & q & He' & Hq)]; [by left|].
      right. exists e', q. split; [by right|done].
Qed.

Lemma NoDup_map_filter {A B} (f : A → B) (P : A → bool) l :
  NoDup (map f l) → NoDup (map f (List.filter P l)).
Proof.
  induction l as [|x l IH]; [done|]. cbn [map List.filter].
  intros [Hx Hl]%NoDup_cons. destruct (P x); [|by apply IH].
  cbn [map]. apply NoDup_cons. split; [|by apply IH].
  intros (y & Hy & Hin)%list_elem_of_fmap. apply Hx.
  apply list_elem_of_fmap. exists y. split; [done|].
  apply list_elem_of_In. apply list_elem_of_In, filter_In in Hin as [Hin _]. done.
Qed.

Lemma continued_app a b : continued a → continued b → continued (a ++ b).
Proof.
  induction 1 as [|l ls Hl _ IH]; intros Hb; [done|].
  cbn [app]. constructor; [|by apply IH].
  intros Hopen. apply Exists_app. left. by apply Hl.
Qed.

Lemma writeTree_loop_continued config path depth ents :
  Forall (λ e, ∀ path prefix depth lines,
            writeTree e path prefix config depth = (lines, None) →
            continued lines) ents →
  ∀ prefix lines,
    writeTree_loop path prefix depth (map (recursive_call config path) ents)
    = (lines, None) →
    continued lines
    ∧ (ents ≠ [] → ∃ l ls, lines = l :: ls ∧ tl_dir l = path).
Proof.
  induction 1 as [|e ents He _ IH]; intros prefix lines Hl.
  { simplify_eq/=. split; [constructor|done]. }
  cbn [map writeTree_loop recursive_call] in Hl.
  set (isLast := bool_decide (map (recursive_call config path) ents = [])) in *.
  assert (∃ sub, (if IsDir e
                  then writeTree e (path ++ [Name e]) (nextPrefix prefix isLast)
                                 config (depth + 1)
                  else ([], None)) = (sub, None)
                 ∧ continued sub) as (sub & Hsub & Hcont).
  { destruct (IsDir e).
    - destruct (writeTree e _ _ _ _) as [sub [err'|]] eqn:Hs; [done|].
      exists sub. split; [done|]. by eapply He.
    - exists []. split; [done|constructor]. }
  rewrite Hsub in Hl.
  destruct (writeTree_loop path prefix depth _) as [more err''] eqn:Hmore.
  simplify_eq. destruct (IH _ _ Hmore) as [Hmcont Hfirst].
  split; [|intros _; by eexists _, _].
  constructor; [|by apply continued_app].
  cbn [tl_last tl_dir]. intros Hopen. apply bool_decide_eq_false in Hopen.
  destruct Hfirst as (l & ls & -> & Hdir).
  { intros ->. by apply Hopen. }
  apply Exists_app. right. by left.
Qed.

Lemma writeTree_continued config d :
  ∀ path prefix depth lines,
    writeTree d path prefix config depth = (lines, None) → continued lines.
Proof.
  induction d as [name data|name|name entries readdir IH] using node_ind;
    intros path prefix depth lines Hw.
  - rewrite (writeTree_not_dir config (File name data) _ _ _ _ eq_refl Hw). constructor.
  - rewrite (writeTree_not_dir config (OutputFile name) _ _ _ _ eq_refl Hw). constructor.
  - destruct readdir as [e|].
    { cbn [writeTree] in Hw.
      destruct ((maxDepth config >=? 0)%Z && (depth >? maxDepth config)%Z);
        simplify_eq; constructor. }
    rewrite writeTree_Dir in Hw.
    destruct (beyond_limit config depth); [simplify_eq; constructor|].
    eapply writeTree_loop_continued; [|exact Hw].
    apply Forall_forall. intros e He. rewrite (sortSlice_perm less) in He.
    apply list_elem_of_In, filter_In in He as [He _]. apply list_elem_of_In in He.
    rewrite Forall_forall in IH. by apply IH.
Qed.

Lemma writeTree_last config d :
  ∀ path prefix depth lines err,
    writeTree d path prefix config depth = (lines, err) →
    unique_names d = true →
    ForallOrdPairs closes_listing lines.
Proof.
  induction d as [name data|name|name entries readdir IH] using node_ind;
    intros path prefix depth lines err Hw Hu.
  - cbn [writeTree] in Hw.
    destruct ((maxDepth config >=? 0)%Z && (depth >? maxDepth config)%Z);
      simplify_eq; constructor.
  - cbn [writeTree] in Hw.
    destruct ((maxDepth config >=? 0)%Z && (depth >? maxDepth config)%Z);
      simplify_eq; constructor.
  - destruct readdir as [e|].
    { cbn [writeTree] in Hw.
      destruct ((maxDepth config >=? 0)%Z && (depth >? maxDepth config)%Z);
        simplify_eq; constructor. }
    rewrite writeTree_Dir in Hw.
    destruct (beyond_limit config depth); [simplify_eq; constructor|].
    apply unique_names_Dir in Hu as [Hnd Hall].
    eapply writeTree_loop_last; [| |exact Hw].
    + rewrite (sortSlice_perm less). by apply NoDup_map_filter.
    + apply Forall_forall. intros e He. rewrite (sortSlice_perm less) in He.
      apply list_elem_of_In, filter_In in He as [He _]. apply list_elem_of_In in He.
      rewrite Forall_forall in IH, Hall.
      intros path' prefix' depth' lines' err' Hw'. eapply IH; [done|done|by apply Hall].
Qed.

(** X18: The connector of the last entry keeps its word.  In the lines
    [writeTree] prints, however the run ends and where no directory holds
    a name twice, no line printed after a line marked as last belongs to
    the same directory as that line; and on a run that succeeds, every
    line not marked as last is followed by a line of the same directory. *)
Theorem last_connector_ends_listing config root lines err :
  writeTree root [] "" config 0 = (lines, err) →
  unique_names root = true →
  ForallOrdPairs closes_listing lines
  ∧ (err = None → continued lines).
Proof.
  intros Hw Hu. split; [by eapply writeTree_last|].
  intros ->. by eapply writeTree_continued.
Qed.

(** ** The run as a whole *)

(** X19: [generateReadme] returns without error exactly when the output file
    can be created, the tree renderer meets no directory it cannot list,
    and, in content mode, neither does the content walk; nothing else
    (a file that cannot be read, an ignore file that cannot be read) makes
    the run fail. *)
Theorem generateReadme_succeeds_iff (unicode_ToLower : Z → Z) config env :
  snd (generateReadme unicode_ToLower config env) = None
  ↔ env_create env = None
    ∧ tree_listable (merge_ignore config (env_root env)) (env_root env) 0 = true
    ∧ (includeContent (merge_ignore config (env_root env)) = true →
       walk_listable (merge_ignore config (env_root env)) (env_root env) [] = true).
Proof.
  unfold generateReadme. destruct (env_create env) as [e|].
  { split; [done|]. by intros [? _]. }
  set (config' := merge_ignore config (env_root env)).
  pose proof (writeTree_listable config' (env_root env) [] "" 0) as Htree.
  destruct (writeTree (env_root env) [] "" config' 0) as [tree [e|]]; cbn [snd] in Htree.
  { split; [done|]. intros (_ & Hl & _). apply Htree in Hl. done. }
  destruct (includeContent config') eqn:Hcontent.
  - match goal with
    | |- context [writeFileContents _ _ _ _ ?o] =>
      pose proof (content_walk_listable unicode_ToLower config' (env_root env) o)
        as Hwalk
    end.
    destruct (writeFileContents _ _ _ _ _) as [out [e|]]; cbn [snd] in *.
    + split; [done|]. intros (_ & _ & Hl). apply Hwalk in Hl; done.
    + split; [|done]. intros _. split; [done|]. split; [by apply Htree|].
      intros _. by apply Hwalk.
  - cbn [snd]. split; [|done]. intros _. split; [done|]. split; [by apply Htree|done].
Qed.

(** X20: When the target is not a directory but a file, the run still creates
    the output file, counts the target as one file and minus one
    directories, and fails at the tree with the error of opening the
    target as a directory: the heading, the overview and the opening fence
    of the tree are all that is written. *)
Theorem file_as_target (unicode_ToLower : Z → Z) config env name data :
  env_root env = File name data → env_create env = None →
  generateReadme unicode_ToLower config env
  = (Some (preamble config env),
     Some (ErrOther ("failed to generate tree: open " +:+ targetDir config
                     +:+ ": not a directory")))
  ∧ writeProjectInfo (env_root env) (targetDir config)
    = "## 📊 Project Overview" +:+ LF +:+ LF
      +:+ "- **Total Files:** 1" +:+ LF
      +:+ "- **Total Directories:** -1" +:+ LF
      +:+ "- **Project Root:** `" +:+ targetDir config +:+ "`" +:+ LF +:+ LF.
Proof.
  intros Hroot Hcreate. unfold generateReadme. rewrite Hcreate, Hroot.
  split; [|done].
  assert (beyond_limit config 0 = false) as Hlim0.
  { apply not_true_iff_false. intros H%beyond_limit_spec. lia. }
  cbn [merge_ignore stat_in writeTree]. fold (beyond_limit config 0). rewrite Hlim0.
  cbn [tree_text foldr]. by rewrite app_nil_r_s.
Qed.

(** ** The section of a text file *)

Lemma Contains_byte_cons x c s :
  Contains (String c s) (String x "") = false
  ↔ c ≠ x ∧ Contains s (String x "") = false.
Proof.
  cbn [Contains String.prefix].
  destruct (ascii_dec x c) as [<-|Hne].
  - assert (String.prefix "" s = true) as -> by by destruct s.
    split; [done|]. by intros [? _].
  - split; [intros H; split; [congruence|done]|by intros [_ ?]].
Qed.

Lemma Contains_byte_app_false x a b :
  Contains (a +:+ b) (String x "") = false
  ↔ Contains a (String x "") = false ∧ Contains b (String x "") = false.
Proof.
  induction a as [|c a IH].
  - rewrite app_nil_l_s. split; [by intros ?|by intros [_ ?]].
  - rewrite app_cons_s, !Contains_byte_cons, IH. tauto.
Qed.

(** [filepath.Ext] of a name without dot is empty. *)
Lemma Ext_no_dot s : Contains s "." = false → Ext s = "".
Proof.
  induction s as [|c s IH]; [done|].
  intros [Hc Hs]%Contains_byte_cons. cbn [Ext]. rewrite (IH Hs). cbn [str_empty negb].
  destruct (Contains s "/"); [done|].
  by destruct (Ascii.eqb_spec c ".").
Qed.

(** [filepath.Ext] is the text from the last dot on. *)
Lemma Ext_dot pre ext :
  Contains ext "." = false → Contains ext "/" = false →
  Ext (pre +:+ "." +:+ ext) = "." +:+ ext.
Proof.
  intros Hdot Hsep. induction pre as [|c pre IH].
  - rewrite app_nil_l_s. change ("." +:+ ext) with (String "." ext).
    cbn [Ext]. rewrite (Ext_no_dot ext Hdot), Hsep. done.
  - rewrite app_cons_s. cbn [Ext]. rewrite IH. done.
Qed.

(** [filepath.Ext] looks at the last element of a path only. *)
Lemma Ext_last pre name :
  Contains name "/" = false → Ext (pre +:+ "/" +:+ name) = Ext name.
Proof.
  intros Hsep. induction pre as [|c pre IH].
  - rewrite app_nil_l_s. change ("/" +:+ name) with (String "/" name).
    cbn [Ext]. rewrite Hsep. by destruct (Ext name).
  - rewrite app_cons_s. cbn [Ext]. rewrite IH.
    destruct (Ext name); [|done]. cbn [str_empty negb].
    change ("/" +:+ name) with (String "/" name).
    by rewrite (Contains_byte_app pre "/" name).
Qed.

Lemma Join_snoc path name :
  Join (path ++ [name]) "/"
  = match path with [] => name | _ => Join path "/" +:+ "/" +:+ name end.
Proof.
  induction path as [|n path IH]; [done|].
  destruct path as [|m path]; [done|].
  change (Join ((n :: m :: path) ++ [name]) "/")
    with (n +:+ "/" +:+ Join ((m :: path) ++ [name]) "/").
  rewrite IH. change (Join (n :: m :: path) "/") with (n +:+ "/" +:+ Join (m :: path) "/").
  by rewrite !app_assoc_s.
Qed.

Lemma Ext_walk_path dir path name :
  Contains name "/" = false → Ext (walk_path dir (path ++ [name])) = Ext name.
Proof.
  intros Hsep. unfold walk_path.
  destruct (path ++ [name]) as [|x l] eqn:Hp; [by destruct path|]. rewrite <- Hp.
  rewrite Join_snoc. destruct path as [|n path].
  - by apply Ext_last.
  - replace (dir +:+ "/" +:+ Join (n :: path) "/" +:+ "/" +:+ name)
      with ((dir +:+ "/" +:+ Join (n :: path) "/") +:+ "/" +:+ name)
      by (by rewrite !app_assoc_s).
    by apply Ext_last.
Qed.

Lemma isASCII_app a b : isASCII (a +:+ b) = isASCII a && isASCII b.
Proof.
  induction a as [|c a IH]; [done|]. rewrite app_cons_s. simpl.
  by rewrite IH, andb_assoc.
Qed.

Lemma lower_bytes_app a b : lower_bytes (a +:+ b) = lower_bytes a +:+ lower_bytes b.
Proof. induction a as [|c a IH]; [done|]. rewrite !app_cons_s. simpl. by rewrite IH. Qed.


(** ** The output file inside the directory it describes *)

Lemma isTextFile_OutputFile name out :
  isTextFile (OutputFile name) out = true
  ↔ out ≠ "" ∧ ∀ i, i < 512 → String.get i out ≠ Some "000"%char.
Proof.
  unfold isTextFile, open_and_read, Read.
  destruct out as [|c out]; [by split; [|intros [? _]]|].
  cbn [str_empty]. rewrite bool_decide_eq_false_2 by (by intros ?).
  cbn [andb]. rewrite no_null_byte_true. split.
  - intros H. split; [done|]. intros i Hi. rewrite <- (str_take_get 512) by done. apply H.
  - intros [_ H] i. destruct (decide (i < 512)) as [Hi|Hi].
    + rewrite str_take_get by done. by apply H.
    + intros Hget. apply get_in_range in Hget. rewrite str_take_len in Hget. lia.
Qed.


(** ** The title of the document *)

Lemma strip_trailing_slashes_app pre name :
  valid_name name = true →
  strip_trailing_slashes (pre +:+ name) = pre +:+ name.
Proof.
  intros [Hne Hsep]%andb_prop. apply negb_true_iff in Hne, Hsep.
  assert (strip_trailing_slashes name = name ∧ str_empty (strip_trailing_slashes name) = false)
    as [Hn Hn'].
  { clear pre. induction name as [|c name IH]; [done|].
    apply Contains_byte_cons in Hsep as [Hc Hsep]. cbn [strip_trailing_slashes].
    destruct name as [|c' name].
    - cbn. destruct (Ascii.eqb_spec c "/"); [congruence|done].
    - destruct (IH eq_refl Hsep) as [-> ->]. done. }
  induction pre as [|c pre IH]; [by rewrite app_nil_l_s|].
  rewrite app_cons_s. cbn [strip_trailing_slashes]. rewrite IH.
  destruct (pre +:+ name) eqn:Hp; [|done].
  destruct pre; [|done]. rewrite app_nil_l_s in Hp. by subst name.
Qed.

Lemma last_element_app pre name :
  Contains name "/" = false → last_element (pre +:+ "/" +:+ name) = name.
Proof.
  intros Hsep. induction pre as [|c pre IH].
  - rewrite app_nil_l_s. change ("/" +:+ name) with (String "/" name).
    cbn [last_element].
    assert (Contains (String "/" name) "/" = true) as ->
      by apply (Contains_byte_app "" "/" name).
    destruct name as [|c name]; [done|]. cbn [last_element]. by rewrite Hsep.
  - rewrite app_cons_s. cbn [last_element].
    assert (Contains (String c (pre +:+ "/" +:+ name)) "/" = true) as ->
      by apply (Contains_byte_app (String c pre) "/" name).
    apply IH.
Qed.

(** [filepath.Base] of a path that ends in a name is that name. *)
Lemma Base_app pre name :
  valid_name name = true → Base (pre +:+ "/" +:+ name) = name.
Proof.
  intros Hv. pose proof Hv as [Hne Hsep]%andb_prop. apply negb_true_iff in Hne, Hsep.
  unfold Base. assert (str_empty (pre +:+ "/" +:+ name) = false) as -> by by destruct pre.
  replace (pre +:+ "/" +:+ name) with ((pre +:+ "/") +:+ name) by by rewrite app_assoc_s.
  rewrite strip_trailing_slashes_app by done. rewrite app_assoc_s.
  rewrite last_element_app by done. by rewrite Hne.
Qed.

(** X24: The title of the document is the name of the target directory: the
    last element of the path given, or the path itself when it is a single
    name; for the target [.] it is the last element of the working
    directory. *)
Theorem title_is_directory_name config env name :
  valid_name name = true →
  (targetDir config = name → name ≠ "." → projectName config env = name)
  ∧ (∀ pre, targetDir config = pre +:+ "/" +:+ name → name ≠ "." →
            projectName config env = name)
  ∧ (∀ pre, targetDir config = "." → env_cwd env = pre +:+ "/" +:+ name →
            projectName config env = name).
Proof.
  intros Hv. pose proof Hv as [Hne Hsep]%andb_prop. apply negb_true_iff in Hne, Hsep.
  assert (Base name = name) as Hbase.
  { unfold Base. rewrite Hne.
    pose proof (strip_trailing_slashes_app "" name Hv) as Hs. rewrite app_nil_l_s in Hs.
    rewrite Hs. destruct name as [|c name]; [done|]. cbn [last_element]. by rewrite Hsep. }
  unfold projectName. split; [|split].
  - intros -> Hdot. rewrite Hbase. by rewrite bool_decide_eq_false_2.
  - intros pre -> Hdot. rewrite Base_app by done. by rewrite bool_decide_eq_false_2.
  - intros pre -> ->. cbn. by apply Base_app.
Qed.

(** ** Patterns that are trimmed already *)

Lemma isASCII_cons c s :
  isASCII (String c s) = true ↔ (byte_val c < utf8.RuneSelf)%Z ∧ isASCII s = true.
Proof. cbn [isASCII]. rewrite andb_true_iff, Z.ltb_lt. done. Qed.

Lemma isASCII_take n s : isASCII s = true → isASCII (str_take n s) = true.
Proof.
  revert s. induction n as [|n IH]; intros [|c s]; try done.
  intros [Hc Hs]%isASCII_cons. cbn [str_take]. apply isASCII_cons. auto.
Qed.

Lemma isASCII_last s c :
  isASCII s = true → str_last s = Some c → (byte_val c < utf8.RuneSelf)%Z.
Proof.
  induction s as [|a s IH]; [done|]. intros [Ha Hs]%isASCII_cons.
  cbn [str_last]. destruct s as [|b s]; [by intros [= <-]|]. by apply IH.
Qed.

Lemma head_ok_take n s : head_ok s = true → head_ok (str_take n s) = true.
Proof. destruct n, s; done. Qed.

Lemma TrimSpace_left_ascii s :
  isASCII s = true →
  ∃ r, TrimSpace_left s = inr r ∧ isASCII r = true ∧ head_ok r = true.
Proof.
  induction s as [|c s IH]; [by exists ""|].
  intros [Hc Hs]%isASCII_cons. cbn [TrimSpace_left].
  rewrite (proj2 (Z.leb_gt _ _)) by done.
  destruct (asciiSpace (byte_val c)) eqn:Hsp; [by apply IH|].
  exists (String c s). split; [done|]. split; [by apply isASCII_cons|].
  cbn [head_ok]. by rewrite Hsp.
Qed.

Lemma TrimSpace_right_ascii fuel s :
  str_len s ≤ fuel → isASCII s = true → head_ok s = true →
  isASCII (TrimSpace_right fuel s) = true
  ∧ head_ok (TrimSpace_right fuel s) = true
  ∧ last_ok (TrimSpace_right fuel s) = true.
Proof.
  revert s. induction fuel as [|fuel IH]; intros s Hf Ha Hh.
  { destruct s; [done|simpl in Hf; lia]. }
  cbn [TrimSpace_right]. destruct (str_last s) as [c|] eqn:Hlast.
  2: { unfold last_ok. by rewrite Hlast. }
  rewrite (proj2 (Z.leb_gt _ _)) by by eapply isASCII_last.
  destruct (asciiSpace (byte_val c)) eqn:Hsp.
  - apply IH; [|by apply isASCII_take|by apply head_ok_take].
    rewrite str_take_len. lia.
  - split; [done|]. split; [done|]. unfold last_ok. by rewrite Hlast, Hsp.
Qed.

(** ASCII text that neither starts nor ends with white space is left as
    it is by [strings.TrimSpace]. *)
Lemma TrimSpace_fixed r :
  isASCII r = true → head_ok r = true → last_ok r = true → TrimSpace r = r.
Proof.
  intros Ha Hh Hl. unfold TrimSpace.
  assert (TrimSpace_left r = inr r) as ->.
  { destruct r as [|c r]; [done|]. apply isASCII_cons in Ha as [Hc _].
    cbn [TrimSpace_left]. rewrite (proj2 (Z.leb_gt _ _)) by done.
    cbn [head_ok] in Hh. apply negb_true_iff in Hh. by rewrite Hh. }
  destruct (str_len r) as [|n] eqn:Hn; [done|]. cbn [TrimSpace_right].
  unfold last_ok in Hl. destruct (str_last r) as [c|] eqn:Hlast; [|done].
  rewrite (proj2 (Z.leb_gt _ _)) by by eapply isASCII_last.
  apply negb_true_iff in Hl. by rewrite Hl.
Qed.

(** On ASCII text [strings.TrimSpace] gives ASCII text that it leaves as
    it is. *)
Lemma TrimSpace_ascii s :
  isASCII s = true →
  isASCII (TrimSpace s) = true ∧ TrimSpace (TrimSpace s) = TrimSpace s.
Proof.
  intros Ha. destruct (TrimSpace_left_ascii s Ha) as (r & Hr & Har & Hhr).
  assert (TrimSpace s = TrimSpace_right (str_len r) r) as ->.
  { unfold TrimSpace. by rewrite Hr. }
  destruct (TrimSpace_right_ascii (str_len r) r) as (H1 & H2 & H3); [lia|done|done|].
  split; [done|]. by apply TrimSpace_fixed.
Qed.

Lemma isASCII_rev_app a b :
  isASCII (String.rev_app a b) = isASCII a && isASCII b.
Proof.
  revert b. induction a as [|c a IH]; intros b; [done|].
  cbn [String.rev_app]. rewrite IH. cbn [isASCII].
  by destruct (_ <? _)%Z, (isASCII a), (isASCII b).
Qed.

Lemma Split_go_ascii s sep cur :
  isASCII s = true → isASCII cur = true →
  Forall (λ p, isASCII p = true) (Split_go s sep cur).
Proof.
  revert cur. induction s as [|c s IH]; intros cur Hs Hcur; cbn [Split_go].
  - constructor; [|done]. unfold String.rev. by rewrite isASCII_rev_app, Hcur.
  - apply isASCII_cons in Hs as [Hc Hs]. destruct (Ascii.eqb c sep).
    + constructor; [|by apply IH]. unfold String.rev. by rewrite isASCII_rev_app, Hcur.
    + apply IH; [done|]. by apply isASCII_cons.
Qed.

Lemma raw_lines_ascii s cur :
  isASCII s = true → isASCII cur = true →
  Forall (λ p, isASCII p = true) (raw_lines s cur).
Proof.
  revert cur. induction s as [|c s IH]; intros cur Hs Hcur; cbn [raw_lines].
  - destruct (str_empty cur); constructor; [|done].
    unfold String.rev. by rewrite isASCII_rev_app, Hcur.
  - apply isASCII_cons in Hs as [Hc Hs]. destruct (Ascii.eqb c "010").
    + constructor; [|by apply IH]. unfold String.rev. by rewrite isASCII_rev_app, Hcur.
    + apply IH; [done|]. by apply isASCII_cons.
Qed.

Lemma dropCR_ascii line : isASCII line = true → isASCII (dropCR line) = true.
Proof.
  intros Ha. unfold dropCR. destruct (str_last line) as [c|]; [|done].
  destruct (Ascii.eqb_spec c "013") as [->|Hne]; [by apply isASCII_take|].
  destruct c as [[] [] [] [] [] [] [] []]; done.
Qed.

Lemma scan_patterns_trimmed lines :
  Forall (λ p, isASCII p = true) lines →
  Forall (λ p, TrimSpace p = p) (fst (scan_patterns lines)).
Proof.
  induction 1 as [|raw lines Hraw _ IH]; [done|].
  cbn [scan_patterns]. destruct (_ <=? _)%Z; [done|].
  destruct (scan_patterns lines) as [ps err]. cbn [fst] in *.
  apply Forall_app. split; [|done].
  unfold ignore_lines. cbn [map List.filter].
  destruct (_ && _); [|done]. constructor; [|done].
  by apply TrimSpace_ascii, dropCR_ascii.
Qed.

(** X25: Where the value of [--ignore] and the ignore file are ASCII text, the
    patterns in force have no white space around them, so that the
    trimming in [shouldIgnore] changes none of them: a name is ignored
    exactly when one of the patterns, as it stands, equals it or holds a
    star and matches it as a glob. *)
Theorem patterns_in_force_are_trimmed flags args root name :
  isASCII (flag_ignore flags) = true →
  (∀ file data, stat_in root ignoreFileName = Some (File file data) →
                isASCII (fd_bytes data) = true) →
  Forall (λ p, TrimSpace p = p)
         (ignorePatterns (merge_ignore (runConfig flags args) root))
  ∧ (shouldIgnore name (merge_ignore (runConfig flags args) root) = true
     ↔ ∃ pattern,
         pattern ∈ ignorePatterns (merge_ignore (runConfig flags args) root)
         ∧ claimed_hit name pattern).
Proof.
  intros Hflag Hfile.
  assert (Forall (λ p, TrimSpace p = p)
                 (ignorePatterns (merge_ignore (runConfig flags args) root))) as Htrim.
  { assert (Forall (λ p, TrimSpace p = p) (ignorePatterns (runConfig flags args)))
      as Hcli.
    { unfold runConfig. cbn [ignorePatterns].
      destruct (str_empty (flag_ignore flags)); cbn [negb]; [done|].
      apply Forall_map. eapply Forall_impl; [by apply Split_go_ascii|].
      intros p Hp. by apply TrimSpace_ascii. }
    unfold merge_ignore. destruct (stat_in root ignoreFileName) as [d|] eqn:Hstat; [|done].
    destruct (readIgnoreFile d "") as [ps [e|]] eqn:Hread; [done|].
    cbn [ignorePatterns with_ignorePatterns]. apply Forall_app. split; [done|].
    replace ps with (fst (readIgnoreFile d "")) by by rewrite Hread.
    destruct d as [file data|file|file entries readdir]; cbn [readIgnoreFile]; [| |done].
    - destruct (fd_open data); [done|]. destruct (fd_read data); [done|].
      apply scan_patterns_trimmed, raw_lines_ascii; [by eapply Hfile|done].
    - by apply scan_patterns_trimmed, raw_lines_ascii. }
  split; [done|]. unfold shouldIgnore. rewrite shouldIgnore_loop_true.
  rewrite Forall_forall in Htrim.
  split; intros (p & Hp & Hhit); exists p; (split; [done|]).
  - apply hits_claimed. unfold pattern_hits in Hhit. by rewrite (Htrim p Hp) in Hhit.
  - unfold pattern_hits. rewrite (Htrim p Hp). by apply hits_claimed.
Qed.

(** ** Positions, filters and what the two traversals reach *)

Lemma keep_in_tree_passes config e : keep_in_tree config e = passes config e.
Proof.
  unfold keep_in_tree, passes.
  destruct (shouldIgnore (Name e) config), (showHidden config),
    (HasPrefix (Name e) "."), (includeFiles config), (IsDir e); done.
Qed.

Lemma visible_listed config d q e : visible config d q e → listed config d q e.
Proof.
  induction 1 as [name entries e He Hk|name entries c q e Hc Hk _ IH].
  - constructor; [done|]. by rewrite <- keep_in_tree_passes.
  - constructor; [done| |done]. by rewrite <- keep_in_tree_passes.
Qed.

Lemma listed_is_dir config d q e : listed config d q e → IsDir d = true.
Proof. by destruct 1. Qed.

Lemma tree_listable_Dir config name entries readdir depth :
  tree_listable config (Dir name entries readdir) depth = true →
  beyond_limit config depth = false →
  readdir = None
  ∧ ∀ c, c ∈ entries → passes config c = true → IsDir c = true →
         tree_listable config c (depth + 1) = true.
Proof.
  cbn [tree_listable]. intros Hl Hlim. rewrite Hlim in Hl.
  destruct readdir as [err|]; [done|]. split; [done|].
  intros c Hc Hp Hd. rewrite forallb_forall in Hl.
  specialize (Hl c (proj1 (list_elem_of_In _ _) Hc)).
  by rewrite keep_in_tree_passes, Hp, Hd in Hl.
Qed.

(** Where the tree renderer meets nothing it cannot list, every directory
    above an entry it is to print lists. *)
Lemma listed_visible config d q e :
  listed config d q e →
  ∀ depth,
    tree_listable config d depth = true →
    (maxDepth config < 0 ∨ depth + Z.of_nat (length q) - 1 ≤ maxDepth config)%Z →
    visible config d q e.
Proof.
  induction 1 as [name entries readdir e He Hp|name entries readdir c q e Hc Hp Hl IH];
    intros depth Htree Hdepth.
  - destruct (tree_listable_Dir _ _ _ _ _ Htree) as [-> _].
    { apply not_true_iff_false. intros H%beyond_limit_spec. simpl in Hdepth. lia. }
    constructor; [done|]. by rewrite keep_in_tree_passes.
  - destruct (tree_listable_Dir _ _ _ _ _ Htree) as [-> Hsub].
    { apply not_true_iff_false. intros H%beyond_limit_spec.
      simpl length in Hdepth. lia. }
    constructor; [done|by rewrite keep_in_tree_passes|].
    apply (IH (depth + 1)%Z).
    + apply Hsub; [done..|]. by eapply listed_is_dir.
    + simpl length in Hdepth. lia.
Qed.

(** *** The entries of the content walk *)

Lemma at_path_is_dir d q e : at_path d q e → IsDir d = true.
Proof. by destruct 1. Qed.

Lemma valid_tree_entry name entries readdir c :
  valid_tree (Dir name entries readdir) = true → c ∈ entries →
  valid_name (Name c) = true ∧ valid_tree c = true.
Proof.
  cbn [valid_tree]. intros Hv Hc. rewrite forallb_forall in Hv.
  by apply andb_prop, Hv, list_elem_of_In.
Qed.

Lemma at_path_valid d q e :
  at_path d q e → valid_tree d = true → Forall (λ n, valid_name n = true) q.
Proof.
  induction 1 as [name entries readdir e He|name entries readdir c q e Hc _ IH];
    intros Hv.
  - destruct (valid_tree_entry _ _ _ _ Hv He) as [Hn _]. by repeat constructor.
  - destruct (valid_tree_entry _ _ _ _ Hv Hc) as [Hn Hvc]. constructor; [done|auto].
Qed.

Lemma filtered_in_limit config path d :
  filtered_in config path d = true → beyond_limit config (currentDepth path) = false.
Proof.
  unfold filtered_in, beyond_limit, currentDepth.
  intros [[[H _]%andb_prop _]%andb_prop _]%andb_prop. by apply negb_true_iff in H.
Qed.

Lemma filtered_in_not_dir config path d :
  filtered_in config path d = true → IsDir d = false.
Proof.
  unfold filtered_in.
  intros [[[_ H]%andb_prop _]%andb_prop _]%andb_prop. by apply negb_true_iff in H.
Qed.

Lemma currentDepth_app p q :
  Forall (λ n, valid_name n = true) p → Forall (λ n, valid_name n = true) q →
  (currentDepth p ≤ currentDepth (p ++ q))%Z.
Proof.
  intros Hp Hq. rewrite !currentDepth_valid by (by try apply Forall_app).
  unfold depth_of. destruct p as [|a p]; [destruct q; simpl; lia|].
  simpl. rewrite length_app. lia.
Qed.

(** The content walk meets every entry that is to be rendered. *)
Lemma walked_at_path config d q e :
  at_path d q e →
  ∀ p, valid_tree d = true → Forall (λ n, valid_name n = true) p →
       filtered_in config (p ++ q) e = true →
       (p ++ q, e) ∈ walked config d p.
Proof.
  induction 1 as [name entries readdir e He|name entries readdir c q e Hc Hat IH];
    intros p Hv Hp Hf.
  - destruct (valid_tree_entry _ _ _ _ Hv He) as [Hn _].
    cbn [walked]. rewrite (beyond_limit_mono config (currentDepth (p ++ [Name e]))).
    2: by eapply filtered_in_limit.
    2: { apply currentDepth_app; [done|]. by repeat constructor. }
    apply elem_of_flat_map. exists e. split; [done|].
    pose proof (filtered_in_not_dir _ _ _ Hf) as Hd.
    destruct e; try done; cbn [walked]; rewrite Hf; by left.
  - destruct (valid_tree_entry _ _ _ _ Hv Hc) as [Hn Hvc].
    pose proof (at_path_valid _ _ _ Hat Hvc) as Hq.
    cbn [walked]. rewrite (beyond_limit_mono config (currentDepth (p ++ Name c :: q))).
    2: by eapply filtered_in_limit.
    2: { apply currentDepth_app; [done|]. by constructor. }
    apply elem_of_flat_map. exists c. split; [done|].
    replace (p ++ Name c :: q) with ((p ++ [Name c]) ++ q) in * by by rewrite <- app_assoc.
    apply IH; [done| |done]. apply Forall_app. split; [done|]. by repeat constructor.
Qed.

(** The content walk meets nothing else, and nothing it is not to render. *)
Lemma walked_sound config d :
  ∀ p0 p e,
    (p, e) ∈ walked config d p0 →
    filtered_in config p e = true
    ∧ ((p = p0 ∧ e = d ∧ IsDir d = false) ∨ (∃ q, p = p0 ++ q ∧ at_path d q e)).
Proof.
  induction d as [name data|name|name entries readdir IH] using node_ind;
    intros p0 p e Hin.
  - cbn [walked] in Hin. destruct (filtered_in config p0 (File name data)) eqn:Hf;
      [|by apply elem_of_nil in Hin].
    apply list_elem_of_singleton in Hin as [= -> ->]. split; [done|]. by left.
  - cbn [walked] in Hin. destruct (filtered_in config p0 (OutputFile name)) eqn:Hf;
      [|by apply elem_of_nil in Hin].
    apply list_elem_of_singleton in Hin as [= -> ->]. split; [done|]. by left.
  - cbn [walked] in Hin.
    destruct (beyond_limit config (currentDepth p0)); [by apply elem_of_nil in Hin|].
    apply elem_of_flat_map in Hin as (c & Hc & Hin).
    rewrite Forall_forall in IH.
    destruct (IH c Hc _ _ _ Hin) as [Hf [(-> & Heq & Hd)|(q & -> & Hat)]].
    + subst c. split; [done|]. right. exists [Name e]. split; [done|]. by constructor.
    + split; [done|]. right. exists (Name c :: q).
      split; [by rewrite <- app_assoc|]. by econstructor.
Qed.

Lemma walked_filtered_in config d p0 :
  Forall (λ pd, filtered_in config pd.1 pd.2 = true) (walked config d p0).
Proof.
  apply Forall_forall. intros [p e] Hin. by apply walked_sound in Hin as [? _].
Qed.

(** With unique names the content walk meets no entry twice. *)
Lemma walked_NoDup config d :
  unique_names d = true → ∀ p0, NoDup (walked config d p0).
Proof.
  induction d as [name data|name|name entries readdir IH] using node_ind;
    intros Hu p0.
  - cbn [walked]. destruct (filtered_in _ _ _); [apply NoDup_singleton|constructor].
  - cbn [walked]. destruct (filtered_in _ _ _); [apply NoDup_singleton|constructor].
  - apply unique_names_Dir in Hu as [Hnd Hall].
    cbn [walked]. destruct (beyond_limit config (currentDepth p0)); [constructor|].
    induction entries as [|c entries IHes]; [constructor|].
    apply Forall_cons in IH as [IHc IH]. apply Forall_cons in Hall as [Hc Hall].
    apply NoDup_cons in Hnd as [Hfresh Hnd].
    cbn [flat_map]. apply NoDup_app. split; [by apply IHc|split; [|by apply IHes]].
    intros [p e] Hin1 (c' & Hc' & Hin2)%elem_of_flat_map.
    assert (∀ c0 p1 e1, (p1, e1) ∈ walked config c0 (p0 ++ [Name c0]) →
                        ∃ q, p1 = p0 ++ Name c0 :: q) as Hpre.
    { intros c0 p1 e1 Hin. apply walked_sound in Hin as [_ [(-> & _)|(q & -> & _)]].
      - by exists [].
      - exists q. by rewrite <- app_assoc. }
    apply Hpre in Hin1 as (q1 & ->). apply Hpre in Hin2 as (q2 & Heq).
    apply app_inv_head in Heq. simplify_eq.
    apply Hfresh. apply list_elem_of_fmap. by exists c'.
Qed.

(** Past the root, the filter of the content walk is the filter of the
    specification. *)
Lemma filtered_in_to_render config path d :
  Forall (λ n, valid_name n = true) path → path ≠ [] →
  filtered_in config path d = true ↔ to_render config path d.
Proof.
  intros Hv Hne. unfold filtered_in, to_render.
  rewrite (walk_depth path Hv). destruct path as [|n path]; [done|].
  set (depth := depth_of (n :: path)).
  destruct (maxDepth config >=? 0)%Z eqn:Hm; [rewrite Z.geb_leb in Hm; apply Z.leb_le in Hm
                                            |rewrite Z.geb_leb in Hm; apply Z.leb_gt in Hm];
    (destruct (depth >? maxDepth config)%Z eqn:Hg;
     [rewrite Z.gtb_ltb in Hg; apply Z.ltb_lt in Hg
     |rewrite Z.gtb_ltb in Hg; apply Z.ltb_ge in Hg]);
    destruct (IsDir d), (shouldIgnore (Name d) config), (showHidden config),
      (HasPrefix (Name d) "."); cbn;
    (split; [intros ?; try done; repeat split; auto; lia
            |intros (? & ? & [?|?] & [?|?]); try done; lia]).
Qed.

Lemma at_path_nonempty d q e : at_path d q e → q ≠ [].
Proof. by destruct 1. Qed.

(** Below a root that is a directory, the entries of the content walk are
    the entries that are to be rendered. *)
Lemma walked_to_render config root path d :
  valid_tree root = true → IsDir root = true →
  (path, d) ∈ walked config root [] ↔ at_path root path d ∧ to_render config path d.
Proof.
  intros Hv Hroot. split.
  - intros [Hf [(_ & -> & Hd)|(q & -> & Hat)]]%walked_sound; [congruence|].
    split; [done|]. apply filtered_in_to_render; [|by eapply at_path_nonempty|done].
    by eapply at_path_valid.
  - intros [Hat Hr].
    apply (walked_at_path config root path d Hat [] Hv (Forall_nil_2 _)).
    apply filtered_in_to_render; [by eapply at_path_valid|by eapply at_path_nonempty|done].
Qed.

(** *** What the walk writes for one of its entries *)

Section OneEntry.

Variable unicode_ToLower : Z → Z.
Variable config : Config.

Local Abbreviation wfc := (writeFileContents unicode_ToLower).
Local Abbreviation rnd := (render unicode_ToLower config).

(** Where every directory within the depth limit lists, the walk writes
    what its function writes for the entries before [pd], then for [pd],
    then for the entries after it, and returns no error. *)
Lemma walk_through root out pre pd post :
  walk_listable config root [] = true →
  walked config root [] = pre ++ pd :: post →
  wfc root config 0 out
  = (fold_left rnd post (rnd (fold_left rnd pre out) pd), None).
Proof.
  intros Hl Hw. rewrite writeFileContents_WalkDir. unfold WalkDir.
  rewrite walkDir_walked by done. rewrite Hw, fold_left_app. done.
Qed.

(** What is written for a regular file does not depend on what has been
    written before it. *)
Lemma render_File out path name data :
  filtered_in config path (File name data) = true →
  fd_info data = None →
  let d := File name data in
  let rel := display_path path d in
  let size := fd_size data in
  rnd out (path, d)
  = if (size >? 1024 * 1024)%Z then
      out +:+ placeholder rel ("File too large to display (" +:+ formatFileSize size +:+ ")")
    else if negb (isTextFile d "") then
      out +:+ placeholder rel ("Binary file (" +:+ formatFileSize size +:+ ")")
    else
      match fd_readfile data with
      | Some e => out +:+ placeholder rel ("Error reading file: " +:+ Error e)
      | None =>
        let lang := getLanguageFromExtension
                      (ToLower unicode_ToLower
                               (Ext (walk_path (targetDir config) path))) in
        out +:+ header rel
            +:+ "*Size: " +:+ formatFileSize size
            +:+ " | Language: " +:+ lang +:+ "*" +:+ LF +:+ LF
            +:+ "```" +:+ lang +:+ LF +:+ fd_bytes data +:+ LF +:+ "```"
            +:+ LF +:+ LF
      end.
Proof.
  intros Hf Hinfo. cbv zeta. unfold render. cbn [fst snd].
  rewrite (contentsFunc_filtered_in _ _ _ _ _ _ Hf). cbv zeta.
  cbn [Info ReadFile]. rewrite Hinfo.
  change (isTextFile (File name data) out) with (isTextFile (File name data) "").
  destruct (fd_size data >? 1024 * 1024)%Z; [done|].
  destruct (negb (isTextFile (File name data) "")); [done|].
  by destruct (fd_readfile data).
Qed.

(** Every entry of the walk whose [Info] succeeds gets a section headed
    by its path. *)
Lemma render_header out path d :
  filtered_in config path d = true →
  snd (Info d out) = None →
  ∃ body, rnd out (path, d) = out +:+ header (display_path path d) +:+ body.
Proof.
  intros Hf Hinfo. unfold render. cbn [fst snd].
  rewrite (contentsFunc_filtered_in _ _ _ _ _ _ Hf). cbv zeta.
  destruct (Info d out) as [size [e|]]; [done|].
  assert (∀ note, placeholder (display_path path d) note
                  = header (display_path path d) +:+ "*" +:+ note +:+ "*" +:+ LF +:+ LF)
    as Hph.
  { intros note. unfold placeholder, header. by rewrite !app_assoc_s. }
  destruct (size >? 1024 * 1024)%Z; [rewrite Hph; by eexists|].
  destruct (negb (isTextFile d out)); [rewrite Hph; by eexists|].
  destruct (ReadFile d out); [|rewrite Hph]; by eexists.
Qed.

(** An entry at [path] that is to be rendered is met by the walk, between
    the entries before it and those after it. *)
Lemma walked_split root path d :
  valid_tree root = true → at_path root path d → to_render config path d →
  ∃ pre post, walked config root [] = pre ++ (path, d) :: post.
Proof.
  intros Hv Hat Hr. apply list_elem_of_split.
  apply walked_to_render; [done|by eapply at_path_is_dir|done].
Qed.

End OneEntry.

(** ** The depth limit and the coverage of the two traversals *)

Lemma StronglySorted_weaken {A} (R R' : relation A) l :
  (∀ a b, R a b → R' a b) → StronglySorted R l → StronglySorted R' l.
Proof.
  intros HR. induction 1 as [|x l _ IH Hx]; constructor; [done|].
  eapply Forall_impl; [exact Hx|]. intros b. apply HR.
Qed.


(** ** The notes of the content walk *)

(** C4, as the code has it: a regular file that the content walk is to
    render and whose [Info] succeeds gets, in place of its content, a note
    in the document: its size when it is larger than 1 MiB; otherwise
    "Binary file" when [isTextFile] rejects it, which is the case for a file
    that cannot be opened or whose first read fails, whatever reading its
    content would report; otherwise the error of reading its content.  The
    entries met before it and after it are rendered as without it and the
    walk returns no error. *)
Theorem soft_errors_leave_a_note (unicode_ToLower : Z → Z)
        config root out path name data :
  walk_listable config root [] = true →
  valid_tree root = true →
  at_path root path (File name data) →
  to_render config path (File name data) →
  fd_info data = None →
  ∃ pre post,
    walked config root [] = pre ++ (path, File name data) :: post
    ∧ ((fd_size data > 1024 * 1024)%Z →
       leaves_note unicode_ToLower config root out pre path (File name data) post
         ("File too large to display (" +:+ formatFileSize (fd_size data) +:+ ")"))
    ∧ ((fd_size data ≤ 1024 * 1024)%Z → isTextFile (File name data) "" = false →
       leaves_note unicode_ToLower config root out pre path (File name data) post
         ("Binary file (" +:+ formatFileSize (fd_size data) +:+ ")"))
    ∧ ((fd_size data ≤ 1024 * 1024)%Z → fd_open data ≠ None ∨ fd_read data ≠ None →
       leaves_note unicode_ToLower config root out pre path (File name data) post
         ("Binary file (" +:+ formatFileSize (fd_size data) +:+ ")"))
    ∧ (∀ e, (fd_size data ≤ 1024 * 1024)%Z → isTextFile (File name data) "" = true →
            fd_readfile data = Some e →
            leaves_note unicode_ToLower config root out pre path (File name data) post
              ("Error reading file: " +:+ Error e)).
Proof.
  intros Hl Hv Hat Hr Hinfo.
  destruct (walked_split config root path _ Hv Hat Hr) as (pre & post & Hw).
  exists pre, post. split; [done|].
  assert (filtered_in config path (File name data) = true) as Hf.
  { apply filtered_in_to_render;
      [by eapply at_path_valid|by eapply at_path_nonempty|done]. }
  pose proof (walk_through unicode_ToLower config root out pre _ post Hl Hw) as Hwalk.
  rewrite (render_File unicode_ToLower config _ path name data Hf Hinfo) in Hwalk.
  cbv zeta in Hwalk. unfold leaves_note.
  assert (∀ big, (fd_size data >? 1024 * 1024)%Z = big
                 ↔ if big then (fd_size data > 1024 * 1024)%Z
                   else (fd_size data ≤ 1024 * 1024)%Z) as Hsize.
  { intros [|]; [rewrite Z.gtb_ltb, Z.ltb_lt|rewrite Z.gtb_ltb, Z.ltb_ge]; lia. }
  assert (fd_open data ≠ None ∨ fd_read data ≠ None →
          isTextFile (File name data) "" = false) as Hclosed.
  { unfold isTextFile, open_and_read, Read.
    destruct (fd_open data); [done|]. destruct (fd_read data); [done|].
    by intros [?|?]. }
  split; [|split; [|split]].
  - intros Hbig. apply (Hsize true) in Hbig. by rewrite Hbig in Hwalk.
  - intros Hsmall Hbin. apply (Hsize false) in Hsmall.
    by rewrite Hsmall, Hbin in Hwalk.
  - intros Hsmall Hbin%Hclosed. apply (Hsize false) in Hsmall.
    by rewrite Hsmall, Hbin in Hwalk.
  - intros e Hsmall Htext Hread. apply (Hsize false) in Hsmall.
    by rewrite Hsmall, Htext, Hread in Hwalk.
Qed.

(** C9: a file of no bytes is not text for [isTextFile] (the read of
    nothing is taken for a failure), and where the content walk is to
    render it the document gets the note of a binary file of 0 B in place
    of an empty fenced block, between what is written for the entries
    before it and after it. *)
Theorem empty_file_rendered_as_binary (unicode_ToLower : Z → Z)
        config root out path name data :
  fd_bytes data = "" →
  (∀ out', isTextFile (File name data) out' = false)
  ∧ (walk_listable config root [] = true →
     valid_tree root = true →
     at_path root path (File name data) →
     to_render config path (File name data) →
     fd_info data = None → fd_size data = 0%Z →
     ∃ pre post,
       walked config root [] = pre ++ (path, File name data) :: post
       ∧ leaves_note unicode_ToLower config root out pre path (File name data) post
           "Binary file (0 B)").
Proof.
  intros Hb. split; [intros out'; by apply isTextFile_empty|].
  intros Hl Hv Hat Hr Hinfo Hsize.
  destruct (walked_split config root path _ Hv Hat Hr) as (pre & post & Hw).
  exists pre, post. split; [done|].
  assert (filtered_in config path (File name data) = true) as Hf.
  { apply filtered_in_to_render;
      [by eapply at_path_valid|by eapply at_path_nonempty|done]. }
  pose proof (walk_through unicode_ToLower config root out pre _ post Hl Hw) as Hwalk.
  rewrite (render_File unicode_ToLower config _ path name data Hf Hinfo) in Hwalk.
  cbv zeta in Hwalk. rewrite Hsize, (isTextFile_empty name data "" Hb) in Hwalk.
  exact Hwalk.
Qed.

(** ** The document as a whole *)

(** The indentation of every line of the tree is text of the renderer's
    own. *)
Lemma writeTree_prefixes config d path prefix depth lines err :
  tree_prefix prefix = true → single_line prefix = true →
  writeTree d path prefix config depth = (lines, err) →
  Forall (λ l, tree_prefix (tl_prefix l) = true ∧ single_line (tl_prefix l) = true)
         lines.
Proof.
  intros Hp Hs Hw.
  pose proof (writeTree_lines config
                (λ _ prefix _ l,
                   tree_prefix prefix = true → single_line prefix = true →
                   tree_prefix (tl_prefix l) = true ∧ single_line (tl_prefix l) = true))
    as Hlines.
  eapply Forall_impl; [eapply Hlines; [| |exact Hw]|].
  - intros ? ? ? ? ? ? ?. done.
  - intros ? prefix' ? isLast ? l Hl Hp' Hs'.
    destruct (nextPrefix_ok prefix' isLast Hp' Hs') as [? ?]. by apply Hl.
  - intros l Hl. by apply Hl.
Qed.

(** The lines of the tree stay inside the block they are printed in when
    the names printed hold no line end. *)
Lemma tree_lines_ok config d path lines err :
  writeTree d path "" config 0 = (lines, err) →
  Forall (λ l, single_line (Name (tl_entry l)) = true) lines →
  Forall line_ok lines.
Proof.
  intros Hw Hnames.
  pose proof (writeTree_prefixes config d path "" 0 lines err eq_refl eq_refl Hw) as Hp.
  rewrite Forall_forall in Hnames, Hp. apply Forall_forall. intros l Hl.
  destruct (Hp l Hl). split; [done|]. split; [done|]. by apply Hnames.
Qed.

Lemma projectName_merge config env :
  projectName (merge_ignore config (env_root env)) env = projectName config env.
Proof.
  unfold projectName.
  by destruct (merge_ignore_fields config (env_root env)) as (-> & _).
Qed.

Section Sections.

Variable unicode_ToLower : Z → Z.
Variable config : Config.

Local Abbreviation rnd := (render unicode_ToLower config).
Local Abbreviation cfun := (contentsFunc unicode_ToLower config (targetDir config)).

(** What is written for an entry of the walk starts and ends outside any
    block. *)
Lemma render_section out path d :
  filtered_in config path d = true →
  section_ok (path, d) = true →
  ∃ t, rnd out (path, d) = out +:+ t ∧ runs Outside t Outside.
Proof.
  intros Hf Hok.
  destruct d as [name data|name|name entries readdir];
    [|discriminate Hok|by apply filtered_in_not_dir in Hf].
  unfold section_ok in Hok. cbn [fst snd] in Hok.
  destruct (fd_info data) as [e|] eqn:Hinfo.
  { exists "". split; [|apply runs_nil]. unfold render. cbn [fst snd].
    rewrite (contentsFunc_filtered_in _ _ _ _ _ _ Hf). cbv zeta. cbn [Info].
    by rewrite Hinfo, app_nil_r_s. }
  apply andb_prop in Hok as [Hrel Hfile].
  rewrite (render_File unicode_ToLower config out path name data Hf Hinfo).
  cbv zeta. unfold harmless_file in Hfile. rewrite Hinfo in Hfile.
  destruct (fd_size data >? 1024 * 1024)%Z.
  { eexists. split; [done|]. apply runs_placeholder; [done|single]. }
  change (isTextFile (File "" data) "") with (isTextFile (File name data) "")
    in Hfile.
  destruct (negb (isTextFile (File name data) "")).
  { eexists. split; [done|]. apply runs_placeholder; [done|single]. }
  destruct (fd_readfile data) as [e|].
  { eexists. split; [done|]. apply runs_placeholder; [done|single]. }
  eexists. split; [done|].
  set (lang := getLanguageFromExtension _).
  pose proof (tag_ok_language
                (ToLower unicode_ToLower (Ext (walk_path (targetDir config) path))))
    as Hlang.
  fold lang in Hlang.
  assert (single_line lang = true) as Hsl by (by apply andb_prop in Hlang as [? _]).
  eapply runs_app; [by apply runs_header|].
  do 2 md_line.
  apply runs_open_fence; [done|].
  apply runs_content; [done|].
  apply runs_close_fence. md_line.
Qed.

Lemma render_sections l :
  Forall (λ pd, filtered_in config pd.1 pd.2 = true) l →
  Forall (λ pd, section_ok pd = true) l →
  ∀ out, ∃ t, fold_left rnd l out = out +:+ t ∧ runs Outside t Outside.
Proof.
  induction l as [|[path d] l IH]; intros Hf Hok out.
  - exists "". split; [by rewrite app_nil_r_s|apply runs_nil].
  - apply Forall_cons in Hf as [Hf Hfs]. apply Forall_cons in Hok as [Hok Hoks].
    cbn [fold_left].
    destruct (render_section out path d Hf Hok) as (t1 & -> & Hr1).
    destruct (IH Hfs Hoks (out +:+ t1)) as (t2 & -> & Hr2).
    exists (t1 +:+ t2). split; [by rewrite app_assoc_s|by eapply runs_app].
Qed.

(** *** The walk up to its failure *)

Lemma until_failure_fold {A} (f : string → A → string)
      (calls : list (string → string * option walk_error))
      (rs : list (list A * bool)) :
  Forall2 (λ call (r : list A * bool), ∀ out,
             fst (call out) = fold_left f r.1 out
             ∧ if r.2 then ∃ e, snd (call out) = Some (Failure e)
               else snd (call out) = None) calls rs →
  ∀ out,
    fst (walk_entries calls out) = fold_left f (until_failure rs).1 out
    ∧ if (until_failure rs).2 then ∃ e, snd (walk_entries calls out) = Some (Failure e)
      else snd (walk_entries calls out) = None.
Proof.
  induction 1 as [|call [l failed] calls rs Hcall _ IH]; intros out; [done|].
  cbn [walk_entries until_failure]. destruct (Hcall out) as [Hfst Hsnd].
  destruct (call out) as [st err]. cbn [fst snd] in *. subst st.
  destruct failed.
  - destruct Hsnd as [e ->]. cbn [fst snd]. split; [done|by exists e].
  - subst err. destruct (IH (fold_left f l out)) as [Hfst' Hsnd'].
    destruct (until_failure rs) as [l' failed']. cbn [fst snd] in *.
    by rewrite fold_left_app.
Qed.

(** The walk writes what its function writes for the entries of
    [visited], and fails exactly when [visited] says so. *)
Lemma walkDir_visited d :
  ∀ path out,
    fst (walkDir cfun path d out) = fold_left rnd (visited config d path).1 out
    ∧ if (visited config d path).2
      then ∃ e, snd (walkDir cfun path d out) = Some (Failure e)
      else snd (walkDir cfun path d out) = None.
Proof.
  induction d as [name data|name|name entries readdir IH] using node_ind;
    intros path out.
  - cbn [walkDir visited]. rewrite contentsFunc_file by done.
    by destruct (filtered_in config path (File name data)).
  - cbn [walkDir visited]. rewrite contentsFunc_file by done.
    by destruct (filtered_in config path (OutputFile name)).
  - cbn [walkDir visited]. rewrite contentsFunc_Dir.
    destruct (beyond_limit config (currentDepth path)); [done|].
    destruct readdir as [e|].
    { unfold contentsFunc. cbn [fst snd]. split; [done|by exists e]. }
    apply until_failure_fold. apply Forall2_fmap, Forall_Forall2_diag.
    eapply Forall_impl; [exact IH|]. intros e He out'. apply He.
Qed.

Lemma until_failure_Forall {A} (P : A → Prop) (rs : list (list A * bool)) :
  Forall (λ r, Forall P r.1) rs → Forall P (until_failure rs).1.
Proof.
  induction 1 as [|[l failed] rs Hl _ IH]; [constructor|].
  cbn [until_failure]. destruct failed; [done|].
  destruct (until_failure rs) as [l' failed']. cbn [fst] in *.
  apply Forall_app. by split.
Qed.

Lemma visited_filtered_in d :
  ∀ path, Forall (λ pd, filtered_in config pd.1 pd.2 = true) (visited config d path).1.
Proof.
  induction d as [name data|name|name entries readdir IH] using node_ind;
    intros path.
  - cbn [visited fst].
    destruct (filtered_in config path (File name data)) eqn:Hf; by repeat constructor.
  - cbn [visited fst].
    destruct (filtered_in config path (OutputFile name)) eqn:Hf; by repeat constructor.
  - cbn [visited]. destruct (beyond_limit config (currentDepth path)); [constructor|].
    destruct readdir; [constructor|].
    apply until_failure_Forall. apply Forall_fmap.
    eapply Forall_impl; [exact IH|]. intros e He. apply He.
Qed.

End Sections.

(** C1, as the code has it: a run that succeeds writes a document in which
    every fenced block that is opened is closed, provided that the text the
    run copies into it holds no line end of its own (the names printed in
    the tree, the paths that head the sections, the messages of read
    errors that are reported, the ignore patterns, the target directory and
    the name of the project), that no file whose content is embedded holds
    a line that closes a fence of three backticks, and that the content
    walk does not come by the output file itself.  Files that get no
    section, names that are not printed and content that is not embedded
    are under no condition. *)
Theorem document_well_formed (unicode_ToLower : Z → Z) config env doc :
  generateReadme unicode_ToLower config env = (Some doc, None) →
  Forall (λ l, single_line (Name (tl_entry l)) = true)
         (fst (writeTree (env_root env) [] ""
                         (merge_ignore config (env_root env)) 0)) →
  (includeContent config = true →
   Forall (λ pd, section_ok pd = true)
          (walked (merge_ignore config (env_root env)) (env_root env) [])) →
  Forall (λ p, single_line p = true)
         (ignorePatterns (merge_ignore config (env_root env))) →
  single_line (targetDir config) = true →
  single_line (projectName config env) = true →
  well_formed doc.
Proof.
  intros Hgen Hnames Hsections Hps Hdir Hname. unfold generateReadme in Hgen.
  destruct (env_create env); [done|].
  rewrite <- projectName_merge in Hname.
  destruct (merge_ignore_fields config (env_root env)) as (Htd & _ & Hic).
  rewrite <- Hic in Hsections. rewrite <- Htd in Hdir.
  set (config' := merge_ignore config (env_root env)) in *.
  destruct (writeTree (env_root env) [] "" config' 0) as [tree [e|]] eqn:Hw; [done|].
  pose proof (tree_lines_ok config' _ _ _ _ Hw Hnames) as Hlines.
  apply runs_well_formed.
  destruct (includeContent config') eqn:Hcontent.
  - match type of Hgen with
    | context [writeFileContents _ _ _ _ ?o] => set (out := o) in *
    end.
    pose proof (content_walk_listable unicode_ToLower config' (env_root env) out)
      as Hwalk.
    pose proof (writeFileContents_WalkDir unicode_ToLower (env_root env) config' out)
      as Hwfc.
    destruct (writeFileContents _ _ _ _ _) as [out' [e|]]; [done|].
    cbn [snd] in Hwalk. unfold WalkDir in Hwfc.
    rewrite walkDir_walked in Hwfc by by apply Hwalk.
    destruct (render_sections unicode_ToLower config' _
                (walked_filtered_in config' (env_root env) [])
                (Hsections eq_refl) out) as (t & Ht & Hr).
    fold (render unicode_ToLower config') in Hwfc.
    assert (out' = out +:+ t) as -> by congruence.
    simplify_eq. subst out. rewrite !app_assoc_s.
    eapply runs_app; [by apply runs_preamble|].
    eapply runs_app; [by apply runs_tree_text|].
    apply runs_close_fence. do 3 md_line.
    eapply runs_app; [done|]. by apply runs_writeFooter.
  - simplify_eq. rewrite !app_assoc_s.
    eapply runs_app; [by apply runs_preamble|].
    eapply runs_app; [by apply runs_tree_text|].
    apply runs_close_fence. md_line. by apply runs_writeFooter.
Qed.

(** X21: What a failed run leaves behind.  When the output file was created
    and the run then failed, what has been written is a document with all
    blocks closed exactly when the tree had been printed in full: a
    failure of the tree renderer leaves the block of the tree open, a
    failure of the content walk leaves whole sections and no footer.  This
    holds where the names printed in the tree and the paths that head the
    sections written before the failure hold no line end, and the files
    embedded before the failure no line that closes a fence. *)
Theorem failed_run_document (unicode_ToLower : Z → Z) config env doc e :
  generateReadme unicode_ToLower config env = (Some doc, Some e) →
  Forall (λ l, single_line (Name (tl_entry l)) = true)
         (fst (writeTree (env_root env) [] ""
                         (merge_ignore config (env_root env)) 0)) →
  (includeContent config = true →
   Forall (λ pd, section_ok pd = true)
          (fst (visited (merge_ignore config (env_root env)) (env_root env) []))) →
  single_line (targetDir config) = true →
  single_line (projectName config env) = true →
  well_formed doc
  ↔ tree_listable (merge_ignore config (env_root env)) (env_root env) 0 = true.
Proof.
  intros Hgen Hnames Hsections Hdir Hname. unfold generateReadme in Hgen.
  destruct (env_create env); [done|].
  rewrite <- projectName_merge in Hname.
  destruct (merge_ignore_fields config (env_root env)) as (Htd & _ & Hic).
  rewrite <- Hic in Hsections. rewrite <- Htd in Hdir.
  set (config' := merge_ignore config (env_root env)) in *.
  pose proof (writeTree_listable config' (env_root env) [] "" 0) as Htree.
  destruct (writeTree (env_root env) [] "" config' 0) as [tree [e'|]] eqn:Hw.
  - (* the tree failed: the document ends inside its block *)
    cbn [snd] in Htree. simplify_eq.
    pose proof (tree_lines_ok config' _ _ _ _ Hw Hnames) as Hlines.
    assert (runs Outside (preamble config' env +:+ tree_text config' tree)
                 (Inside backtick 3)) as Hruns.
    { eapply runs_app; [by apply runs_preamble|by apply runs_tree_text]. }
    specialize (Hruns ""). rewrite app_nil_r_s in Hruns.
    split.
    + unfold well_formed. intros Hwf. unfold scan_text in Hruns.
      rewrite Hwf in Hruns. done.
    + intros Hl. apply Htree in Hl. done.
  - (* the content walk failed: whole sections have been written *)
    cbn [snd] in Htree. split; [intros _; by apply Htree|]. intros _.
    pose proof (tree_lines_ok config' _ _ _ _ Hw Hnames) as Hlines.
    destruct (includeContent config') eqn:Hcontent; [|done].
    match type of Hgen with
    | context [writeFileContents _ _ _ _ ?o] => set (out := o) in *
    end.
    pose proof (writeFileContents_WalkDir unicode_ToLower (env_root env) config' out)
      as Hwfc.
    destruct (walkDir_visited unicode_ToLower config' (env_root env) [] out)
      as [Hfst _].
    destruct (render_sections unicode_ToLower config' _
                (visited_filtered_in config' (env_root env) [])
                (Hsections eq_refl) out) as (t & Ht & Hr).
    assert (fst (writeFileContents unicode_ToLower (env_root env) config' 0 out)
            = out +:+ t) as Hout.
    { rewrite Hwfc. unfold WalkDir.
      destruct (walkDir _ _ _ _) as [st [[| |?]|]]; cbn [fst] in *; congruence. }
    destruct (writeFileContents _ _ _ _ _) as [out' [e'|]]; [|done].
    cbn [fst] in Hout. simplify_eq. apply runs_well_formed.
    subst out. rewrite !app_assoc_s.
    eapply runs_app; [by apply runs_preamble|].
    eapply runs_app; [by apply runs_tree_text|].
    apply runs_close_fence. do 3 md_line. done.
Qed.

(** ** The claims on concrete inputs *)

(** C2, as the specification has it, fails: the pattern [" a"] ignores the
    name ["a"], which it neither equals nor matches as a glob. *)
Lemma untrimmed_pattern_ignores :
  shouldIgnore "a" (with_ignorePatterns (sample_config false (-1)) [" a"]) = true
  ∧ ¬ (∃ pattern,
         pattern ∈ ignorePatterns (with_ignorePatterns (sample_config false (-1)) [" a"])
         ∧ claimed_hit "a" pattern).
Proof.
  split; [by vm_compute|].
  intros (pattern & Hp & Hhit). cbn in Hp.
  apply list_elem_of_singleton in Hp as ->.
  destruct Hhit as [Heq|[Hstar _]]; [discriminate Heq|by vm_compute in Hstar].
Qed.

(** C1, as the specification has it, fails: a Markdown file that holds a
    fenced block of its own closes the block it is embedded in, and the
    closing fence of the section opens a block that is never closed. *)
Lemma fence_line_in_content_breaks_document :
  ∃ doc, generateReadme identity_case (sample_config true (-1)) (sample_env fenced_notes)
         = (Some doc, None)
         ∧ ¬ well_formed doc.
Proof.
  eexists. split; [vm_compute; reflexivity|].
  unfold well_formed. vm_compute. discriminate.
Qed.

(** The two other ways into an open block that the provisos of C1 rule
    out: the output file read back into itself, and a line end in a name. *)
Lemma output_file_in_tree_breaks_document :
  ∃ doc, generateReadme identity_case (sample_config true (-1)) (sample_env holds_output)
         = (Some doc, None)
         ∧ ¬ well_formed doc.
Proof.
  eexists. split; [vm_compute; reflexivity|].
  unfold well_formed. vm_compute. discriminate.
Qed.

Lemma line_end_in_name_breaks_document :
  ∃ doc, generateReadme identity_case (sample_config false (-1)) (sample_env fence_in_name)
         = (Some doc, None)
         ∧ ¬ well_formed doc.
Proof.
  eexists. split; [vm_compute; reflexivity|].
  unfold well_formed. vm_compute. discriminate.
Qed.


(** C4, as the specification has it, fails: a file that cannot be opened,
    so that reading its content fails, is noted as a binary file; the
    error of the read is not reported. *)
Lemma unopenable_file_noted_as_binary :
  ReadFile (File "secret.txt" locked_file) ""
  = inr (ErrOther "open proj/secret.txt: permission denied")
  ∧ writeFileContents identity_case locked_project (sample_config true (-1)) 0 ""
    = ("### 📄 secret.txt" +:+ LF +:+ LF +:+ "*Binary file (6 B)*" +:+ LF +:+ LF, None).
Proof. split; vm_compute; reflexivity. Qed.

(** The notes of C4 side by side, in the document of one walk. *)
Lemma notes_in_one_walk :
  writeFileContents identity_case noted_files (sample_config true (-1)) 0 ""
  = ("### 📄 a.go" +:+ LF +:+ LF
       +:+ "*Size: 12 B | Language: go*" +:+ LF +:+ LF
       +:+ "```go" +:+ LF +:+ "package main" +:+ LF +:+ "```" +:+ LF +:+ LF
       +:+ "### 📄 big.iso" +:+ LF +:+ LF
       +:+ "*File too large to display (2.0 MB)*" +:+ LF +:+ LF
       +:+ "### 📄 logo.png" +:+ LF +:+ LF
       +:+ "*Binary file (5 B)*" +:+ LF +:+ LF
       +:+ "### 📄 secret.txt" +:+ LF +:+ LF
       +:+ "*Binary file (6 B)*" +:+ LF +:+ LF
       +:+ "### 📄 torn.txt" +:+ LF +:+ LF
       +:+ "*Error reading file: read proj/torn.txt: input/output error*" +:+ LF +:+ LF
       +:+ "### 📄 z.txt" +:+ LF +:+ LF
       +:+ "*Size: 3 B | Language: text*" +:+ LF +:+ LF
       +:+ "```text" +:+ LF +:+ "end" +:+ LF +:+ "```" +:+ LF +:+ LF,
     None).
Proof. vm_compute. reflexivity. Qed.

(** The document of a walk that meets a file of no bytes. *)
Lemma empty_file_in_one_walk :
  writeFileContents identity_case with_empty_file (sample_config true (-1)) 0 ""
  = ("### 📄 a.go" +:+ LF +:+ LF
       +:+ "*Size: 12 B | Language: go*" +:+ LF +:+ LF
       +:+ "```go" +:+ LF +:+ "package main" +:+ LF +:+ "```" +:+ LF +:+ LF
       +:+ "### 📄 empty.txt" +:+ LF +:+ LF
       +:+ "*Binary file (0 B)*" +:+ LF +:+ LF
       +:+ "### 📄 z.txt" +:+ LF +:+ LF
       +:+ "*Size: 3 B | Language: text*" +:+ LF +:+ LF
       +:+ "```text" +:+ LF +:+ "end" +:+ LF +:+ "```" +:+ LF +:+ LF,
     None).
Proof. vm_compute. reflexivity. Qed.

(** [filepath.Clean] on the cases of its documentation and tests, and
    [filepath.Join] as [writeTree] uses it. *)
Lemma Clean_examples :
  map Clean ["abc//def//ghi"; "abc/./def"; "abc/def/../ghi/../jkl"; "abc/def/../../..";
             "/abc/def/../../.."; "abc/../../././../def"; "/../abc"; "./proj/"; ""]
  = ["abc/def/ghi"; "abc/def"; "abc/jkl"; ".."; "/"; "../../def"; "/abc"; "proj"; "."]
  ∧ dir_at (sample_config false (-1)) ["cmd"; "util"] = "proj/cmd/util"
  ∧ dir_at (runConfig default_flags []) ["cmd"] = "cmd"
  ∧ dir_at (runConfig default_flags ["./proj/"]) [] = "./proj/".
Proof. repeat split; vm_compute; reflexivity. Qed.

(** The claims that have hypotheses, at concrete inputs. *)

(** Evaluate the list a [Forall] ranges over, then the property at its
    members one by one. *)
Ltac forall_members :=
  lazymatch goal with
  | |- Forall ?P ?l =>
    let l' := eval vm_compute in l in
    replace l with l' by (vm_compute; reflexivity);
    repeat (constructor; [vm_compute; reflexivity|]); constructor
  end.

(** C1 on a project whose files are embedded, and on one where the only
    file that holds a fence lies below the depth limit and so plays no
    part. *)
Lemma document_well_formed_witness :
  (∃ doc, generateReadme identity_case (sample_config true (-1)) (sample_env sample_tree)
          = (Some doc, None)
          ∧ well_formed doc)
  ∧ (∃ doc, generateReadme identity_case (sample_config true 0)
                           (sample_env fenced_notes_below)
            = (Some doc, None)
            ∧ well_formed doc).
Proof.
  split.
  - eexists. split; [vm_compute; reflexivity|].
    apply (document_well_formed identity_case (sample_config true (-1))
                                (sample_env sample_tree)).
    + vm_compute. reflexivity.
    + forall_members.
    + intros _. forall_members.
    + forall_members.
    + vm_compute. reflexivity.
    + vm_compute. reflexivity.
  - eexists. split; [vm_compute; reflexivity|].
    apply (document_well_formed identity_case (sample_config true 0)
                                (sample_env fenced_notes_below)).
    + vm_compute. reflexivity.
    + forall_members.
    + intros _. forall_members.
    + forall_members.
    + vm_compute. reflexivity.
    + vm_compute. reflexivity.
Defined.


Lemma soft_errors_leave_a_note_witness :
  (∃ pre post,
      walked (sample_config true (-1)) noted_files []
      = pre ++ (["big.iso"], File "big.iso" huge_file) :: post
      ∧ leaves_note identity_case (sample_config true (-1)) noted_files ""
          pre ["big.iso"] (File "big.iso" huge_file) post
          "File too large to display (2.0 MB)")
  ∧ (∃ pre post,
        walked (sample_config true (-1)) noted_files []
        = pre ++ (["secret.txt"], File "secret.txt" locked_file) :: post
        ∧ leaves_note identity_case (sample_config true (-1)) noted_files ""
            pre ["secret.txt"] (File "secret.txt" locked_file) post
            "Binary file (6 B)")
  ∧ (∃ pre post,
        walked (sample_config true (-1)) noted_files []
        = pre ++ (["torn.txt"], File "torn.txt" torn_file) :: post
        ∧ leaves_note identity_case (sample_config true (-1)) noted_files ""
            pre ["torn.txt"] (File "torn.txt" torn_file) post
            "Error reading file: read proj/torn.txt: input/output error").
Proof.
  split; [|split].
  - destruct (soft_errors_leave_a_note identity_case (sample_config true (-1))
                noted_files "" ["big.iso"] "big.iso" huge_file)
      as (pre & post & Hw & Hbig & _).
    + vm_compute. reflexivity.
    + vm_compute. reflexivity.
    + apply (at_child _ _ _ (File "big.iso" _)). repeat constructor.
    + split; [reflexivity|]. split; [vm_compute; reflexivity|].
      split; [right; reflexivity|left; reflexivity].
    + reflexivity.
    + exists pre, post. split; [exact Hw|]. apply Hbig. reflexivity.
  - destruct (soft_errors_leave_a_note identity_case (sample_config true (-1))
                noted_files "" ["secret.txt"] "secret.txt" locked_file)
      as (pre & post & Hw & _ & _ & Hclosed & _).
    + vm_compute. reflexivity.
    + vm_compute. reflexivity.
    + apply (at_child _ _ _ (File "secret.txt" _)). repeat constructor.
    + split; [reflexivity|]. split; [vm_compute; reflexivity|].
      split; [right; reflexivity|left; reflexivity].
    + reflexivity.
    + exists pre, post. split; [exact Hw|].
      apply Hclosed; [vm_compute; discriminate|by left].
  - destruct (soft_errors_leave_a_note identity_case (sample_config true (-1))
                noted_files "" ["torn.txt"] "torn.txt" torn_file)
      as (pre & post & Hw & _ & _ & _ & Herr).
    + vm_compute. reflexivity.
    + vm_compute. reflexivity.
    + apply (at_child _ _ _ (File "torn.txt" _)). repeat constructor.
    + split; [reflexivity|]. split; [vm_compute; reflexivity|].
      split; [right; reflexivity|left; reflexivity].
    + reflexivity.
    + exists pre, post. split; [exact Hw|].
      apply (Herr (PathError "read" "proj/torn.txt" EIO));
        [vm_compute; discriminate|vm_compute; reflexivity|reflexivity].
Defined.

Lemma init_keeps_existing_file_witness :
  run_init Written initialised = (initialised, 1%Z).
Proof.
  refine (proj1 (proj2 (init_keeps_existing_file Written initialised "build" _))).
  vm_compute. reflexivity.
Defined.

Lemma empty_file_rendered_as_binary_witness :
  isTextFile (File "empty.txt" empty_file) "" = false
  ∧ ∃ pre post,
      walked (sample_config true (-1)) with_empty_file []
      = pre ++ (["empty.txt"], File "empty.txt" empty_file) :: post
      ∧ leaves_note identity_case (sample_config true (-1)) with_empty_file ""
          pre ["empty.txt"] (File "empty.txt" empty_file) post "Binary file (0 B)".
Proof.
  destruct (empty_file_rendered_as_binary identity_case (sample_config true (-1))
              with_empty_file "" ["empty.txt"] "empty.txt" empty_file eq_refl)
    as [Hbin Hnote].
  split; [apply Hbin|]. apply Hnote.
  - vm_compute. reflexivity.
  - vm_compute. reflexivity.
  - apply (at_child _ _ _ (File "empty.txt" _)). repeat constructor.
  - split; [reflexivity|]. split; [vm_compute; reflexivity|].
    split; [right; reflexivity|left; reflexivity].
  - reflexivity.
  - reflexivity.
Defined.

Lemma malformed_glob_only_equality_witness :
  hits "a" "*[" = false ∧ hits "*[" "*[" = true.
Proof.
  split.
  - apply not_true_iff_false. intros Hh.
    apply (proj1 (proj2 (malformed_glob_only_equality "a" "*[" ErrBadPattern
                           ltac:(vm_compute; reflexivity)
                           ltac:(vm_compute; reflexivity)))) in Hh.
    discriminate Hh.
  - apply (proj1 (proj2 (malformed_glob_only_equality "*[" "*[" ErrBadPattern
                           ltac:(vm_compute; reflexivity)
                           ltac:(vm_compute; reflexivity)))).
    reflexivity.
Defined.

(** ** The further properties at concrete inputs *)

Lemma star_suffix_pattern_witness : hits "debug.log" "*.log" = true.
Proof.
  apply (proj2 (star_suffix_pattern "debug.log" ".log" eq_refl)).
  exists "debug". split; reflexivity.
Defined.

Lemma star_prefix_pattern_witness : hits "temp1" "temp*" = true.
Proof.
  apply (proj2 (star_prefix_pattern "temp1" "temp" eq_refl)).
  exists "1". split; reflexivity.
Defined.

Lemma star_infix_pattern_witness : hits "__pycache__" "*cache*" = true.
Proof.
  exact (eq_trans (star_infix_pattern "__pycache__" "cache" eq_refl eq_refl) eq_refl).
Defined.

Lemma init_creates_default_file_witness :
  (∃ st', run_init Written fresh = (st', 0%Z)
          ∧ files st' !! ignoreFileName = Some defaultIgnoreContent)
  ∧ (∃ st', run_init (WriteFails 0 EIO) fresh = (st', 1%Z)
            ∧ files st' !! ignoreFileName = Some ""
            ∧ run_init Written st' = (st', 1%Z)).
Proof.
  destruct (init_creates_default_file fresh eq_refl) as (Hok & _ & Hfail).
  split.
  - destruct Hok as (st' & Hrun & Hfile & _).
    exists st'. split; [exact Hrun|exact Hfile].
  - destruct (Hfail 0 EIO) as (st' & _ & Hrun & Hfile & _ & _ & Hagain).
    exists st'. split; [exact Hrun|]. split; [exact Hfile|apply Hagain].
Defined.

Lemma default_ignore_file_read_back_witness :
  ignorePatterns (merge_ignore (sample_config false (-1)) with_ignore_file)
  = ignorePatterns (sample_config false (-1)) ++ default_patterns.
Proof.
  refine (default_ignore_file_read_back fresh (sample_config false (-1)) "proj" _ None
            (plain_file defaultIgnoreContent) _ _ _ _ _).
  - reflexivity.
  - vm_compute. reflexivity.
  - vm_compute. reflexivity.
  - reflexivity.
  - reflexivity.
Defined.

Lemma content_walk_renders_walked_witness :
  snd (writeFileContents identity_case sample_tree (sample_config true (-1)) 0 "") = None.
Proof.
  rewrite (content_walk_renders_walked identity_case (sample_config true (-1))
             sample_tree "").
  - reflexivity.
  - vm_compute. reflexivity.
Defined.


Lemma left_out_directory_is_walked_witness :
  writeTree only_git [] "" (sample_config true (-1)) 0 = ([], None)
  ∧ writeFileContents identity_case only_git (sample_config true (-1)) 0 ""
    = (fst (contentsFunc identity_case (sample_config true (-1)) "proj"
                         [".git"; "HEAD"]
                         (File "HEAD" (plain_file "ref: refs/heads/main")) None ""),
       None).
Proof.
  destruct (left_out_directory_is_walked identity_case (sample_config true (-1))
              "proj" ".git" [File "HEAD" (plain_file "ref: refs/heads/main")] None ""
              eq_refl eq_refl) as (Htree & _ & Hwalk).
  split; [exact Htree|].
  apply Hwalk; [reflexivity|reflexivity|reflexivity|left; reflexivity|reflexivity].
Defined.

Lemma file_as_target_witness :
  snd (generateReadme identity_case (runConfig default_flags ["notes.txt"])
                      (sample_env (File "notes.txt" (plain_file "x"))))
  = Some (ErrOther "failed to generate tree: open notes.txt: not a directory").
Proof.
  rewrite (proj1 (file_as_target identity_case (runConfig default_flags ["notes.txt"])
                    (sample_env (File "notes.txt" (plain_file "x")))
                    "notes.txt" (plain_file "x") eq_refl eq_refl)).
  reflexivity.
Defined.


Lemma tree_indentation_witness :
  Forall (λ l, (0 ≤ tl_depth l)%Z
               ∧ indented "" (Z.to_nat (tl_depth l)) (tl_prefix l))
         (fst (writeTree sample_tree [] "" (sample_config false (-1)) 0)).
Proof.
  apply (tree_indentation (sample_config false (-1)) sample_tree _ None).
  vm_compute. reflexivity.
Defined.

Lemma overview_bounds_tree_witness :
  (Z.of_nat (length (file_lines
                       (fst (writeTree sample_tree [] "" (sample_config false (-1)) 0))))
   ≤ fst (countEntries sample_tree))%Z.
Proof.
  apply (overview_bounds_tree (sample_config false (-1)) sample_tree).
  vm_compute. reflexivity.
Defined.

Lemma last_connector_ends_listing_witness :
  ForallOrdPairs closes_listing
    (fst (writeTree sample_tree [] "" (sample_config false (-1)) 0)).
Proof.
  apply (last_connector_ends_listing (sample_config false (-1)) sample_tree _ None).
  - vm_compute. reflexivity.
  - vm_compute. reflexivity.
Defined.

Lemma failed_run_document_witness :
  ∃ doc e,
    generateReadme identity_case (sample_config false (-1)) (sample_env unreadable_root)
    = (Some doc, Some e)
    ∧ (well_formed doc
       ↔ tree_listable (merge_ignore (sample_config false (-1)) unreadable_root)
                       unreadable_root 0 = true).
Proof.
  eexists _, _. split; [vm_compute; reflexivity|].
  eapply (failed_run_document identity_case (sample_config false (-1))
                              (sample_env unreadable_root)).
  - vm_compute. reflexivity.
  - forall_members.
  - intros _. forall_members.
  - vm_compute. reflexivity.
  - vm_compute. reflexivity.
Defined.


Lemma title_is_directory_name_witness :
  projectName (sample_config false (-1)) (sample_env sample_tree) = "proj".
Proof.
  apply (proj1 (title_is_directory_name (sample_config false (-1))
                  (sample_env sample_tree) "proj" eq_refl)).
  - reflexivity.
  - discriminate.
Defined.

Lemma patterns_in_force_are_trimmed_witness :
  Forall (λ p, TrimSpace p = p)
         (ignorePatterns (merge_ignore (runConfig default_flags ["proj"]) with_ignore_file)).
Proof.
  refine (proj1 (patterns_in_force_are_trimmed default_flags ["proj"] with_ignore_file
                   "a.go" _ _)).
  - vm_compute. reflexivity.
  - intros file data Hstat. vm_compute in Hstat. injection Hstat as _ <-.
    vm_compute. reflexivity.
Defined.
